(** * Quantum Variational Rewinding tutorial: a shallow embedding

    The development follows [demonstrations/tutorial_univariate_qvr.py].
    Python functions become Rocq functions with the same names.  Exceptions
    are values of [result]; the global generator of the tensor library is
    threaded explicitly through the computations of type [M].  The tensor
    library itself (arithmetic on entries, random draws, [linspace]) is not
    part of the repository: it is the interface [TensorLib]. *)

From Stdlib Require Import String.
From Stdlib Require Import List Arith Lia ZArith QArith Bool Permutation FinFun Sorted.
From Stdlib Require Import Reals Lra.
Import ListNotations.

Set Implicit Arguments.
Local Open Scope nat_scope.

(** ** Python values and exceptions *)

Module Py.

Inductive exn : Type :=
| IndexError
| KeyError
| RuntimeError
| ValueError.

Inductive result (A : Type) : Type :=
| Ok (a : A)
| Raise (e : exn).

Arguments Ok {A} a.
Arguments Raise {A} e.

Definition rbind {A B : Type} (c : result A) (k : A -> result B) : result B :=
  match c with
  | Ok a => k a
  | Raise e => Raise e
  end.

(** [l[i]] for a non-negative index. *)
Definition index {A : Type} (l : list A) (i : nat) : result A :=
  match nth_error l i with
  | Some a => Ok a
  | None => Raise IndexError
  end.

(** [l[i:j]] for non-negative bounds. *)
Definition slice {A : Type} (l : list A) (i j : nat) : list A :=
  firstn (j - i) (skipn i l).

(** A [for] loop whose body may raise: the state is threaded from left to
    right and the first exception ends the loop. *)
Fixpoint for_each {A S : Type} (body : S -> A -> result S) (s : S) (l : list A)
  : result S :=
  match l with
  | [] => Ok s
  | a :: l' => rbind (body s a) (fun s' => for_each body s' l')
  end.

(** [itertools.combinations(l, k)]: the [k]-element subsequences of [l] in
    lexicographic order of their positions. *)
Fixpoint combinations {A : Type} (l : list A) (k : nat) : list (list A) :=
  match k with
  | 0 => [[]]
  | S k' =>
      match l with
      | [] => []
      | a :: l' => map (cons a) (combinations l' k') ++ combinations l' k
      end
  end.

(** [range(n)]. *)
Definition range (n : nat) : list nat := seq 0 n.

(** [range(a, b)]. *)
Definition range2 (a b : nat) : list nat := seq a (b - a).

End Py.

Import Py.

Notation "x <~ c ;; k" := (rbind c (fun x => k))
  (at level 100, c at next level, right associativity).

(** ** The tensor library

    Entries of tensors, the arithmetic on them and the random generator
    belong to the tensor library, which the tutorial only calls.  The laws
    are the few facts about that arithmetic the proofs below rely on. *)

Class TensorLib : Type := {
  scalar : Type;
  rng : Type;
  (** a Python numeric literal at the default dtype *)
  lit : Q -> scalar;
  (** an integer entry compared with or converted to a floating entry *)
  of_int : Z -> scalar;
  t_pi : scalar;
  t_add : scalar -> scalar -> scalar;
  t_sub : scalar -> scalar -> scalar;
  t_mul : scalar -> scalar -> scalar;
  t_div : scalar -> scalar -> scalar;
  t_neg : scalar -> scalar;
  t_abs : scalar -> scalar;
  t_square : scalar -> scalar;
  t_arctan : scalar -> scalar;
  (** [x.mean()] of a one-dimensional tensor *)
  t_mean : list scalar -> scalar;
  (** [a > b] and [a == b] on entries, as Python truth values *)
  t_gt : scalar -> scalar -> bool;
  t_eq : scalar -> scalar -> bool;
  (** [torch.linspace(a, b, steps)]: [steps] equally spaced entries, the
      first one [a] and, from two steps on, the last one [b] *)
  linspace : scalar -> scalar -> nat -> list scalar;
  (** [torch.empty(n)]: a buffer of [n] entries whose content is not
      specified *)
  torch_empty : nat -> list scalar;
  (** [torch.manual_seed] and one draw of [randn], [rand], [normal] *)
  manual_seed : Z -> rng;
  randn1 : rng -> scalar * rng;
  rand1 : rng -> scalar * rng;
  normal1 : scalar -> scalar -> rng -> scalar * rng;
  (** one draw of [randint(low, high)] *)
  randint1 : Z -> Z -> rng -> Z * rng;
  (** [torch.randperm(n)], also the order in which a shuffling loader
      visits [n] items *)
  randperm : nat -> rng -> list nat * rng;
  linspace_length : forall a b n, length (linspace a b n) = n;
  linspace_first : forall a b n, nth_error (linspace a b (S n)) 0 = Some a;
  linspace_last : forall a b n, nth_error (linspace a b (S (S n))) (S n) = Some b;
  torch_empty_length : forall n, length (torch_empty n) = n;
  randperm_perm : forall n r, Permutation (fst (randperm n r)) (seq 0 n);
  neg_one : t_neg (lit 1) = lit (-1);
  sub_one_one : t_sub (lit 1) (lit 1) = lit 0;
  square_zero : t_square (lit 0) = lit 0;
  mean_zeros : forall n, t_mean (repeat (lit 0) (S n)) = lit 0
}.

(** A one-dimensional tensor. *)
Definition tensor `{TensorLib} : Type := list scalar.

(** ** The diagonal circuit [D] *)

Section Circuit.

Context `{TL : TensorLib}.

(** Operations queued on the tape, with the wires they were given. *)
Inductive gate : Type :=
| RZ (phi : scalar) (wires : list nat)
| CNOT (wires : list nat).

(** The body of the inner loop of [D] for one [comb]; the state is the
    counter [cnt] and the operations queued so far. *)
Definition D_comb (gamma : tensor) (st : nat * list gate) (comb : list nat)
  : result (nat * list gate) :=
  let '(cnt, tape) := st in
  if length comb =? 1 then
    g <~ index gamma cnt ;;
    c0 <~ index comb 0 ;;
    Ok (cnt + 1, tape ++ [RZ g [c0]])
  else if 1 <? length comb then
    let cnots := map (fun i => slice comb i (i + 2)) (range (length comb - 1)) in
    let tape1 := tape ++ map CNOT cnots in
    g <~ index gamma cnt ;;
    Ok (cnt + 1, (tape1 ++ [RZ g [last comb 0]]) ++ map CNOT (rev cnots))
  else Ok st.

Definition D (gamma : tensor) (n : nat) (k : option nat) : result (nat * list gate) :=
  let k := match k with None => n | Some k => k end in
  for_each
    (fun st i => for_each (D_comb gamma) st (combinations (range n) i))
    (0, []) (range2 1 (k + 1)).

(** *** The circuit in the words of the specification *)

Fixpoint consecutive_pairs (l : list nat) : list (list nat) :=
  match l with
  | a :: (b :: _) as t => [a; b] :: consecutive_pairs t
  | _ => []
  end.

(** The operations for one subset: a bare rotation for a singleton, else the
    CNOT chain, the rotation on the last qubit, and the chain undone. *)
Definition walsh_block (comb : list nat) (phi : scalar) : list gate :=
  match comb with
  | [] => []
  | [q] => [RZ phi [q]]
  | _ => map CNOT (consecutive_pairs comb)
         ++ [RZ phi [last comb 0]]
         ++ map CNOT (rev (consecutive_pairs comb))
  end.

(** The non-empty subsets of at most [k] of the [n] qubits, by size and then
    in the order of [combinations]. *)
Definition subsets_upto (n k : nat) : list (list nat) :=
  flat_map (combinations (range n)) (range2 1 (k + 1)).

Fixpoint blocks (combs : list (list nat)) (gamma : tensor) : list gate :=
  match combs, gamma with
  | c :: combs', g :: gamma' => walsh_block c g ++ blocks combs' gamma'
  | _, _ => []
  end.

Definition rz_angles (tape : list gate) : list scalar :=
  flat_map (fun g => match g with RZ phi _ => [phi] | CNOT _ => [] end) tape.

Definition count_rz (tape : list gate) : nat := length (rz_angles tape).

End Circuit.

(** Binomial coefficients, by Pascal's rule. *)
Fixpoint binom (n k : nat) : nat :=
  match k with
  | 0 => 1
  | S k' =>
      match n with
      | 0 => 0
      | S n' => binom n' k' + binom n' k
      end
  end.

(** [sum over i from 1 to k of C(n, i)]. *)
Definition walsh_terms (n k : nat) : nat :=
  list_sum (map (binom n) (range2 1 (k + 1))).


(** ** Computations that use the global generator *)

Section Effects.

Context `{TL : TensorLib}.

(** A computation reads and advances the generator and may raise. *)
Definition M (A : Type) : Type := rng -> result (A * rng).

Definition ret {A : Type} (a : A) : M A := fun r => Ok (a, r).

Definition bind {A B : Type} (c : M A) (k : A -> M B) : M B :=
  fun r =>
    match c r with
    | Ok (a, r') => k a r'
    | Raise e => Raise e
    end.

(** A computation that does not touch the generator. *)
Definition lift {A : Type} (c : result A) : M A :=
  fun r =>
    match c with
    | Ok a => Ok (a, r)
    | Raise e => Raise e
    end.

(** A draw from the generator. *)
Definition draw {A : Type} (f : rng -> A * rng) : M A := fun r => Ok (f r).

(** [torch.manual_seed(seed)]. *)
Definition seed_generator (seed : Z) : M unit := fun _ => Ok (tt, manual_seed seed).

End Effects.

Notation "x <- c ;; k" := (bind c (fun x => k))
  (at level 100, c at next level, right associativity).

Section Loops.

Context `{TL : TensorLib}.

(** A [for] loop in [M]. *)
Fixpoint for_eachM {A S : Type} (body : S -> A -> M S) (s : S) (l : list A) : M S :=
  match l with
  | [] => ret s
  | a :: l' => s' <- body s a ;; for_eachM body s' l'
  end.

(** A list comprehension [[f(a) for a in l]] in [M]. *)
Fixpoint mapM {A B : Type} (f : A -> M B) (l : list A) : M (list B) :=
  match l with
  | [] => ret []
  | a :: l' => b <- f a ;; bs <- mapM f l' ;; ret (b :: bs)
  end.

(** [n] successive draws. *)
Fixpoint draws {A : Type} (f : rng -> A * rng) (n : nat) (r : rng) : list A * rng :=
  match n with
  | 0 => ([], r)
  | S n' =>
      let (x, r1) := f r in
      let (xs, r2) := draws f n' r1 in
      (x :: xs, r2)
  end.

(** [torch.randn((rows, cols))], [torch.normal(mean, std, (rows, cols))]. *)
Definition randn (rows cols : nat) : M (list tensor) :=
  draw (draws (draws randn1 cols) rows).

Definition normal (mean std : scalar) (rows cols : nat) : M (list tensor) :=
  draw (draws (draws (normal1 mean std) cols) rows).

End Loops.

(** ** Lists as tensors *)

Section Tensors.

Context `{TL : TensorLib}.

(** [enumerate(l)]. *)
Definition enumerate {A : Type} (l : list A) : list (nat * A) :=
  combine (seq 0 (length l)) l.

(** [l[i] = v] on a buffer. *)
Definition setitem {A : Type} (l : list A) (i : nat) (v : A) : result (list A) :=
  if i <? length l then Ok (firstn i l ++ v :: skipn (S i) l)
  else Raise IndexError.

(** The length of the result of broadcasting two axes. *)
Definition bshape (a b : nat) : result nat :=
  if a =? b then Ok a
  else if a =? 1 then Ok b
  else if b =? 1 then Ok a
  else Raise RuntimeError.

(** An entrywise operation on two axes whose lengths broadcast. *)
Definition bmap2 {A B C : Type} (op : A -> B -> C) (a : list A) (b : list B) : list C :=
  match a, b with
  | [x], _ => map (op x) b
  | _, [y] => map (fun x => op x y) a
  | _, _ => map (fun p => op (fst p) (snd p)) (combine a b)
  end.

Definition broadcast2 {A B C : Type} (op : A -> B -> C) (a : list A) (b : list B)
  : result (list C) :=
  _ <~ bshape (length a) (length b) ;;
  Ok (bmap2 op a b).

(** [x.unsqueeze(0)] of an entry. *)
Definition unsqueeze0 (x : scalar) : tensor := [x].

(** A Python dictionary with string keys, in insertion order. *)
Definition dict (V : Type) : Type := list (string * V).

Fixpoint getitem {V : Type} (d : dict V) (key : string) : result V :=
  match d with
  | [] => Raise KeyError
  | (k, v) :: d' => if String.eqb k key then Ok v else getitem d' key
  end.

End Tensors.

(** ** The loss and the anomaly score *)

Section Loss.

Context `{TL : TensorLib}.

(** The projector is a call into the circuit simulator: a function of the
    embedded point, the time, and the parameters [alpha] and [gamma]. *)
Variable callable_proj : tensor -> tensor -> tensor -> tensor -> scalar.

(** [sigma.abs() * noise + mu] for a two-dimensional [noise] with [cols]
    columns. *)
Definition sample_gammas (sigma mu : tensor) (noise : list tensor) (cols : nat)
  : result (list tensor) :=
  w <~ bshape (length sigma) cols ;;
  _ <~ bshape w (length mu) ;;
  Ok (map (fun row => bmap2 t_add (bmap2 t_mul (map t_abs sigma) row) mu) noise).

Definition F (xt t : tensor) (alpha mu sigma : tensor) (gamma_length n_samples : nat)
  : M scalar :=
  noise <- randn n_samples gamma_length ;;
  gammas <- lift (sample_gammas sigma mu noise gamma_length) ;;
  expectation <-
    lift (for_each
            (fun buf ig => setitem buf (fst ig) (callable_proj xt t alpha (snd ig)))
            (torch_empty n_samples) (enumerate gammas)) ;;
  ret (t_mean expectation).

Definition callable_arctan_penalty (tau : scalar) : tensor -> scalar :=
  let prefac := t_div (lit 1) t_pi in
  fun sigma =>
    t_mul prefac
      (t_mean (map (fun s => t_arctan (t_mul (t_mul (t_mul (lit 2) t_pi) tau) (t_abs s)))
                   sigma)).

Definition get_loss (batch : tensor * tensor) (alpha mu sigma : tensor)
           (gamma_length n_samples : nat) (callable_penalty : tensor -> scalar)
  : M scalar :=
  let '(X_batch, T_batch) := batch in
  loss <-
    for_eachM
      (fun buf i =>
         x <- lift (index X_batch i) ;;
         t <- lift (index T_batch i) ;;
         f <- F (unsqueeze0 x) (unsqueeze0 t) alpha mu sigma gamma_length n_samples ;;
         lift (setitem buf i (t_square (t_sub (lit 1) f))))
      (torch_empty (length X_batch)) (range (length X_batch)) ;;
  ret (t_add (t_mul (lit (1 # 2)) (t_mean loss)) (callable_penalty sigma)).

(** What [get_anomaly_score] returns: the pair when [get_time_resolved] is
    set, else the mean alone. *)
Inductive anomaly_score : Type :=
| TimeResolved (score : tensor) (mean : scalar)
| Averaged (mean : scalar).

Definition get_anomaly_score (x T : tensor) (alpha_star mu_star sigma_star : tensor)
           (gamma_length n_samples : nat) (get_time_resolved : bool)
  : M anomaly_score :=
  score <-
    for_eachM
      (fun buf i =>
         xi <- lift (index x i) ;;
         ti <- lift (index T i) ;;
         f <- F (unsqueeze0 xi) (unsqueeze0 ti) alpha_star mu_star sigma_star
                gamma_length n_samples ;;
         lift (setitem buf i (t_square (t_sub (lit 1) f))))
      (torch_empty (length T)) (range (length T)) ;;
  ret (if get_time_resolved then TimeResolved score (t_mean score)
       else Averaged (t_mean score)).

(** An entry of [torch.tensor([...])] must be a number. *)
Definition as_entry (a : anomaly_score) : result scalar :=
  match a with
  | Averaged m => Ok m
  | TimeResolved _ _ => Raise ValueError
  end.

Definition get_norm_and_anom_scores (X_norm X_anom : list tensor) (T : tensor)
           (model_params : dict tensor) (gamma_length n_samples : nat) : M tensor :=
  alpha <- lift (getitem model_params "alpha") ;;
  mu <- lift (getitem model_params "mu") ;;
  sigma <- lift (getitem model_params "sigma") ;;
  let score_of xt :=
    a <- get_anomaly_score xt T alpha mu sigma gamma_length n_samples false ;;
    lift (as_entry a) in
  norm_scores <- mapM score_of X_norm ;;
  anom_scores <- mapM score_of X_anom ;;
  ret (norm_scores ++ anom_scores).

End Loss.

(** ** Thresholds and accuracy *)

Section Accuracy.

Context `{TL : TensorLib}.

Definition get_accuracy_score (pred : list Z) (truth : tensor) : result scalar :=
  agree <~ broadcast2 (fun p t => t_eq (of_int p) t) pred truth ;;
  Ok (t_div (of_int (Z.of_nat (length (filter (fun b : bool => b) agree))))
            (of_int (Z.of_nat (length truth)))).

Definition get_preds_given_threshold (zeta : scalar) (scores : tensor) : list Z :=
  map (fun score => if t_gt score zeta then (-1)%Z else 1%Z) scores.

Definition get_truth_labels (normal_series_set anomalous_series_set : list tensor)
  : tensor :=
  let norm := repeat (lit 1) (length normal_series_set) in
  let anom := map t_neg (repeat (lit 1) (length normal_series_set)) in
  norm ++ anom.

Definition threshold_scan_acc_score (scores truth_labels : tensor)
           (zeta_min zeta_max : scalar) (steps : nat) : result tensor :=
  for_each
    (fun accs iz =>
       let preds := get_preds_given_threshold (snd iz) scores in
       a <~ get_accuracy_score preds truth_labels ;;
       setitem accs (fst iz) a)
    (torch_empty steps) (enumerate (linspace zeta_min zeta_max steps)).

End Accuracy.

(** ** Synthetic time series *)

Section Series.

Context `{TL : TensorLib}.

Definition GLOBAL_SEED : Z := 1989.

(** [torch.rand(n)]. *)
Definition rand (n : nat) : M tensor := draw (draws rand1 n).

(** [torch.randint(low, high, (n,))]; an empty range of values is refused. *)
Definition randint (low high : Z) (n : nat) : M (list Z) :=
  fun r =>
    if (high <=? low)%Z then Raise RuntimeError
    else Ok (draws (randint1 low high) n r).

Definition generate_normal_time_series_set (p num_series : nat)
           (noise_amp t_init t_end : scalar) (seed : Z) : M (list tensor * tensor) :=
  _ <- seed_generator seed ;;
  X <- normal (lit 0) noise_amp num_series p ;;
  let T := linspace t_init t_end p in
  ret (X, T).

(** [y[start : start + duration] += torch.normal(0.0, spike_amp, (duration,))]:
    the noise must have the length of the slice, or one entry. *)
Definition add_spike (spike_amp : scalar) (y : tensor) (sd : nat * Z) : M tensor :=
  let start_idx := fst sd in
  let duration := Z.to_nat (snd sd) in
  noise <- draw (draws (normal1 (lit 0) spike_amp) duration) ;;
  let view := slice y start_idx (start_idx + duration) in
  if (length noise =? length view) || (length noise =? 1) then
    ret (firstn start_idx y ++ bmap2 t_add view noise ++ skipn (start_idx + duration) y)
  else lift (Raise RuntimeError).

Definition generate_anomalous_time_series_set (p num_series : nat)
           (noise_amp spike_amp : scalar) (max_duration : nat)
           (t_init t_end : scalar) (seed : Z) : M (list tensor * tensor) :=
  _ <- seed_generator seed ;;
  Y <- normal (lit 0) noise_amp num_series p ;;
  Y' <-
    mapM
      (fun y =>
         (* 5-10 spikes allowed *)
         spike_num <- randint 5 10 1 ;;
         let spike_num := Z.to_nat (hd 0%Z spike_num) in
         durations <- randint 1 (Z.of_nat max_duration) spike_num ;;
         perm <- (if p <? max_duration then lift (Raise RuntimeError)
                  else draw (randperm (p - max_duration))) ;;
         let spike_start_idxs := firstn spike_num perm in
         for_eachM (add_spike spike_amp) y (combine spike_start_idxs durations))
      Y ;;
  let T := linspace t_init t_end p in
  ret (Y', T).

Definition make_atomized_training_set (X : list tensor) (T : tensor)
  : list (scalar * scalar) :=
  let X_flat := concat X in
  let T_flat := concat (repeat T (length X)) in
  combine X_flat T_flat.

(** [W] stands for [W.shape]: the number of entries of the parameter tensor
    of the template for the given layers and qubits. *)
Definition get_initial_parameters (W : nat -> nat -> nat) (W_layers n_qubits : nat)
           (seed : Z) : M (dict tensor) :=
  _ <- seed_generator seed ;;
  init_alpha <- rand (W W_layers n_qubits) ;;
  init_mu <- rand 1 ;;
  (* Best to start sigma small and expand if needed *)
  init_sigma <- rand 1 ;;
  ret [ ("alpha"%string, map (t_mul (t_mul (lit 2) t_pi)) init_alpha);
        ("mu"%string, map (t_mul (t_mul (lit 2) t_pi)) init_mu);
        ("sigma"%string,
          map (fun s => t_add (t_mul (lit (1 # 10)) s) (lit (5 # 100))) init_sigma) ].

End Series.

(** ** The batch cycler [DataGetter] *)

(** Batches of [b] items in order, the last one shorter when the items run
    out; the fuel is the number of items, enough for [b >= 1]. *)
Fixpoint chunks_fuel {A : Type} (fuel b : nat) (l : list A) : list (list A) :=
  match fuel with
  | 0 => []
  | S fuel' =>
      match l with
      | [] => []
      | _ => firstn b l :: chunks_fuel fuel' b (skipn b l)
      end
  end.

Definition chunks {A : Type} (b : nat) (l : list A) : list (list A) :=
  chunks_fuel (length l) b l.

(** [l.pop()]. *)
Definition pop {A : Type} (l : list A) : result (A * list A) :=
  match rev l with
  | [] => Raise IndexError
  | a :: rest => Ok (a, rev rest)
  end.

(** Every [index] of a list of positions. *)
Fixpoint gather {A : Type} (l : list A) (positions : list nat) : result (list A) :=
  match positions with
  | [] => Ok []
  | i :: positions' =>
      a <~ index l i ;;
      rest <~ gather l positions' ;;
      Ok (a :: rest)
  end.

Section Cycler.

Context `{TL : TensorLib}.

(** Items of type [A] are collated into batches of type [B]. *)
Variables A B : Type.
Variable collate : list A -> B.

Record DataGetter : Type := mkDataGetter {
  dg_X : list A;
  dg_batch_size : nat;
  dg_data : list B
}.

(** All the batches of one pass of
    [iter(DataLoader(X, batch_size=batch_size, shuffle=True))]: the loader
    refuses a batch size that is not positive and, for shuffling, a data set
    without items; it visits the items in a random order and cuts them into
    batches. *)
Definition loader_pass (X : list A) (batch_size : nat) : M (list B) :=
  if (batch_size =? 0) || (length X =? 0) then lift (Raise ValueError)
  else
    order <- draw (randperm (length X)) ;;
    items <- lift (gather X order) ;;
    ret (map collate (chunks batch_size items)).

(** [_init_data] appends everything the iterator yields. *)
Definition _init_data (self : DataGetter) (yielded : list B) : DataGetter :=
  mkDataGetter (dg_X self) (dg_batch_size self) (dg_data self ++ yielded).

Definition __init__ (X : list A) (batch_size : nat) (seed : Z) : M DataGetter :=
  _ <- seed_generator seed ;;
  let self := mkDataGetter X batch_size [] in
  yielded <- loader_pass (dg_X self) (dg_batch_size self) ;;
  ret (_init_data self yielded).

Definition __next__ (self : DataGetter) : M (B * DataGetter) :=
  match pop (dg_data self) with
  | Ok (b, rest) => ret (b, mkDataGetter (dg_X self) (dg_batch_size self) rest)
  | Raise IndexError =>
      (* Caught when the data set runs out of elements *)
      yielded <- loader_pass (dg_X self) (dg_batch_size self) ;;
      let self' := _init_data self yielded in
      br <- lift (pop (dg_data self')) ;;
      ret (fst br, mkDataGetter (dg_X self') (dg_batch_size self') (snd br))
  | Raise e => lift (Raise e)
  end.

Definition get_training_cycler (Xtr : list A) (batch_size : nat) (seed : Z)
  : M DataGetter :=
  __init__ Xtr batch_size seed.

(** [n] calls of [next(cycler)], with the batches in the order returned. *)
Fixpoint next_n (n : nat) (cycler : DataGetter) : M (list B * DataGetter) :=
  match n with
  | 0 => ret ([], cycler)
  | S n' =>
      bc <- __next__ cycler ;;
      rest <- next_n n' (snd bc) ;;
      ret (fst bc :: fst rest, snd rest)
  end.

End Cycler.

(** ** Training *)

(** The position of a key among the values of a dictionary. *)
Fixpoint key_index {V : Type} (d : dict V) (key : string) : result nat :=
  match d with
  | [] => Raise KeyError
  | (k, _) :: d' =>
      if String.eqb k key then Ok 0
      else i <~ key_index d' key ;; Ok (S i)
  end.

Section Training.

Context `{TL : TensorLib}.

Variable callable_proj : tensor -> tensor -> tensor -> tensor -> scalar.

(** The optimizer belongs to the tensor library.  [pytorch_optimizer] builds
    its state from the parameters and the learning rate; [opt_update] is the
    update that [opt.step] applies, in place, to the parameters from their
    gradients; [backward] is [loss.backward()]: the gradients, at the
    current parameters, of a loss given as a function of the parameters. *)
Variable optimizer : Type.
Variable pytorch_optimizer : list tensor -> scalar -> optimizer.
Variable opt_update : optimizer -> list tensor -> list tensor -> optimizer * list tensor.
Variable backward : (list tensor -> result scalar) -> list tensor -> list tensor.

(** The default collation of a batch of [(xt, t)] pairs: one tensor for
    each component. *)
Definition collate_pairs (items : list (scalar * scalar)) : tensor * tensor :=
  List.split items.

Definition cycler_t : Type := DataGetter (scalar * scalar) (tensor * tensor).

(** The objects the training loop mutates: the parameter tensors held by the
    optimizer (in the order of [init_params.values()]), the state of the
    optimizer, and the cycler.  [alpha], [mu] and [sigma] of the source are
    references to three of the parameter tensors: their positions. *)
Record train_state : Type := mkTrainState {
  ts_params : list tensor;
  ts_opt : optimizer;
  ts_cycler : cycler_t
}.

Record results_dict : Type := mkResults {
  opt_params : dict tensor;
  loss_history : list scalar
}.

Section Step.

Variables alpha_at mu_at sigma_at : nat.
Variables gamma_length n_samples : nat.
Variable callable_penalty : tensor -> scalar.

(** The loss of [batch] at the parameter values [params], with the
    generator in state [r]. *)
Definition loss_at (batch : tensor * tensor) (params : list tensor) : M scalar :=
  alpha <- lift (index params alpha_at) ;;
  mu <- lift (index params mu_at) ;;
  sigma <- lift (index params sigma_at) ;;
  get_loss callable_proj batch alpha mu sigma gamma_length n_samples callable_penalty.

Definition value_of {A : Type} (c : result (A * rng)) : result A :=
  match c with
  | Ok (a, _) => Ok a
  | Raise e => Raise e
  end.

(** [closure()]: the loss on [next(cycler)] and its gradients. *)
Definition closure (st : train_state) : M (scalar * list tensor * cycler_t) :=
  bc <- __next__ collate_pairs (ts_cycler st) ;;
  fun r =>
    match loss_at (fst bc) (ts_params st) r with
    | Ok (loss, r') =>
        let grads :=
          backward (fun params => value_of (loss_at (fst bc) params r)) (ts_params st) in
        Ok ((loss, grads, snd bc), r')
    | Raise e => Raise e
    end.

(** [opt.step(closure)]: the closure is evaluated once, the parameters are
    updated from the gradients, the loss of the closure is returned. *)
Definition opt_step (st : train_state) : M (scalar * train_state) :=
  lgc <- closure st ;;
  let '(loss, grads, cycler') := lgc in
  let (opt', params') := opt_update (ts_opt st) (ts_params st) grads in
  ret (loss, mkTrainState params' opt' cycler').

End Step.

Definition train_model_gradients (lr : scalar) (init_params : dict tensor)
           (cycler : cycler_t) (n_samples : nat) (callable_penalty : tensor -> scalar)
           (batch_iterations : nat) (gamma_length : nat) (seed : Z)
           (print_intermediate : bool) : M (results_dict * cycler_t) :=
  _ <- seed_generator seed ;;
  let params := map snd init_params in
  _ <- lift (match params with [] => Raise ValueError | _ => Ok tt end) ;;
  let opt := pytorch_optimizer params lr in
  alpha <- lift (key_index init_params "alpha") ;;
  mu <- lift (key_index init_params "mu") ;;
  sigma <- lift (key_index init_params "sigma") ;;
  final <-
    for_eachM
      (fun (acc : train_state * list scalar) (i : nat) =>
         ls <- opt_step alpha mu sigma gamma_length n_samples callable_penalty (fst acc) ;;
         ret (snd ls, snd acc ++ [fst ls]))
      (mkTrainState params opt cycler, []) (range batch_iterations) ;;
  let st := fst final in
  p0 <- lift (index (ts_params st) 0) ;;
  p1 <- lift (index (ts_params st) 1) ;;
  p2 <- lift (index (ts_params st) 2) ;;
  ret (mkResults [("alpha"%string, p0); ("mu"%string, p1); ("sigma"%string, p2)]
                 (snd final),
       ts_cycler st).

(** *** The training loop in the words of the specification *)

(** [n] optimizer steps from a state and a generator: the losses in the
    order they were produced, and the state and generator reached. *)
Inductive steps (alpha_at mu_at sigma_at gamma_length n_samples : nat)
          (callable_penalty : tensor -> scalar)
  : nat -> train_state -> rng -> list scalar -> train_state -> rng -> Prop :=
| steps_done st r :
    steps alpha_at mu_at sigma_at gamma_length n_samples callable_penalty
          0 st r [] st r
| steps_next n st r loss st1 r1 losses st2 r2 :
    opt_step alpha_at mu_at sigma_at gamma_length n_samples callable_penalty st r
    = Ok ((loss, st1), r1) ->
    steps alpha_at mu_at sigma_at gamma_length n_samples callable_penalty
          n st1 r1 losses st2 r2 ->
    steps alpha_at mu_at sigma_at gamma_length n_samples callable_penalty
          (S n) st r (loss :: losses) st2 r2.

End Training.

(** ** Testing *)

Section Testing.

Context `{TL : TensorLib}.

(** The projector built by [get_callable_projector_func]: a call into the
    circuit simulator. *)
Variable callable_proj : tensor -> tensor -> tensor -> tensor -> scalar.

Definition testing_workflow (opt_params : dict tensor) (gamma_length n_samples : nat)
           (best_zetas : list scalar) (p num_series : nat)
           (noise_amp spike_amp : scalar) (max_duration : nat)
           (t_init t_end : scalar) (W : nat -> nat -> nat) (n_qubits : nat)
           (random_model_seeds : list Z) (W_layers : nat) : M (list scalar) :=
  XT <- generate_normal_time_series_set p num_series noise_amp t_init t_end GLOBAL_SEED ;;
  let X_val_norm := fst XT in
  YT <- generate_anomalous_time_series_set p num_series noise_amp spike_amp
          max_duration t_init t_end GLOBAL_SEED ;;
  let X_val_anom := fst YT in
  let T := snd YT in
  let truth_labels := get_truth_labels X_val_norm X_val_anom in
  (* Evaluate optimal model *)
  scores <- get_norm_and_anom_scores callable_proj X_val_norm X_val_anom T
              opt_params gamma_length n_samples ;;
  zeta0 <- lift (index best_zetas 0) ;;
  let preds := get_preds_given_threshold zeta0 scores in
  acc <- lift (get_accuracy_score preds truth_labels) ;;
  (* Evaluate random models *)
  for_eachM
    (fun accs_list (zeta_seed : scalar * Z) =>
       let seed := snd zeta_seed in
       rand_params <- get_initial_parameters W W_layers n_qubits seed ;;
       scores <- get_norm_and_anom_scores callable_proj X_val_norm X_val_anom T
                   rand_params gamma_length n_samples ;;
       zeta0 <- lift (index best_zetas 0) ;;
       let preds := get_preds_given_threshold zeta0 scores in
       acc <- lift (get_accuracy_score preds truth_labels) ;;
       ret (accs_list ++ [acc]))
    [acc] (combine (skipn 1 best_zetas) random_model_seeds).

End Testing.

(** ** Exact real arithmetic as a tensor library

    Entries are real numbers or [NaN], the value of an undefined quotient
    ([0/0], the mean of an empty tensor).  The generator is a counter and
    every draw returns the mean of its distribution. *)

Module Ideal.

Local Open Scope R_scope.

Inductive ext : Type :=
| NaN
| Fin (x : R).

Definition lift1 (f : R -> R) (a : ext) : ext :=
  match a with
  | Fin x => Fin (f x)
  | NaN => NaN
  end.

Definition lift2 (f : R -> R -> R) (a b : ext) : ext :=
  match a, b with
  | Fin x, Fin y => Fin (f x y)
  | _, _ => NaN
  end.

Definition ediv (a b : ext) : ext :=
  match a, b with
  | Fin x, Fin y => if Req_dec_T y 0 then NaN else Fin (x / y)
  | _, _ => NaN
  end.

Fixpoint esum (l : list ext) : ext :=
  match l with
  | [] => Fin 0
  | a :: l' => lift2 Rplus a (esum l')
  end.

Definition emean (l : list ext) : ext :=
  ediv (esum l) (Fin (INR (length l))).

Definition egt (a b : ext) : bool :=
  match a, b with
  | Fin x, Fin y => if Rlt_dec y x then true else false
  | _, _ => false
  end.

Definition eeq (a b : ext) : bool :=
  match a, b with
  | Fin x, Fin y => if Req_dec_T x y then true else false
  | _, _ => false
  end.

(** The entry at position [i] of [steps] equally spaced ones from [a] to [b]. *)
Definition espaced (a b : ext) (steps i : nat) : ext :=
  lift2 Rplus a
        (lift2 Rmult (Fin (INR i)) (ediv (lift2 Rminus b a) (Fin (INR (steps - 1))))).

Definition elinspace (a b : ext) (steps : nat) : list ext :=
  match steps with
  | 0%nat => []
  | 1%nat => [a]
  | S (S inner) => a :: map (espaced a b steps) (seq 1 inner) ++ [b]
  end.

Lemma elinspace_length (a b : ext) (n : nat) : length (elinspace a b n) = n.
Proof.
  destruct n as [|[|n]]; trivial.
  unfold elinspace. cbn [length]. rewrite length_app, length_map, length_seq.
  simpl. lia.
Qed.

Lemma elinspace_first (a b : ext) (n : nat) :
  nth_error (elinspace a b (S n)) 0 = Some a.
Proof. destruct n; reflexivity. Qed.

Lemma elinspace_last (a b : ext) (n : nat) :
  nth_error (elinspace a b (S (S n))) (S n) = Some b.
Proof.
  unfold elinspace. cbn [nth_error].
  rewrite nth_error_app2; rewrite length_map, length_seq; [|lia].
  now rewrite Nat.sub_diag.
Qed.

(** On real end points the end entries are the equally spaced ones too. *)
Lemma espaced_ends (a b : R) (n : nat) :
  espaced (Fin a) (Fin b) (S (S n)) 0 = Fin a
  /\ espaced (Fin a) (Fin b) (S (S n)) (S n) = Fin b.
Proof.
  unfold espaced, ediv. cbn [lift2].
  replace (S (S n) - 1)%nat with (S n) by lia.
  assert (Hn : INR (S n) <> 0) by (rewrite S_INR; pose proof (pos_INR n); lra).
  destruct (Req_dec_T (INR (S n)) 0) as [E|_]; [contradiction|].
  cbn [lift2]. split; f_equal.
  - simpl. lra.
  - field. exact Hn.
Qed.

Lemma identity_perm (n : nat) (r : nat) :
  Permutation (fst (seq 0 n, S r)) (seq 0 n).
Proof. apply Permutation_refl. Qed.

Lemma Q2R_one : Q2R 1 = 1.
Proof. unfold Q2R. simpl. rewrite Rinv_1. ring. Qed.

Lemma Q2R_zero : Q2R 0 = 0.
Proof. unfold Q2R. simpl. ring. Qed.

Lemma eneg_one : lift1 Ropp (Fin (Q2R 1)) = Fin (Q2R (-1)).
Proof. simpl. f_equal. unfold Q2R. simpl. rewrite Rinv_1. ring. Qed.

Lemma esub_one_one : lift2 Rminus (Fin (Q2R 1)) (Fin (Q2R 1)) = Fin (Q2R 0).
Proof. simpl. f_equal. unfold Q2R. simpl. lra. Qed.

Lemma esquare_zero : lift1 Rsqr (Fin (Q2R 0)) = Fin (Q2R 0).
Proof. simpl. f_equal. unfold Q2R, Rsqr. simpl. lra. Qed.

Lemma esum_const (x : R) (n : nat) : esum (repeat (Fin x) n) = Fin (INR n * x).
Proof.
  induction n as [|n IH].
  - simpl. f_equal. lra.
  - change (repeat (Fin x) (S n)) with (Fin x :: repeat (Fin x) n).
    cbn [esum]. rewrite IH, S_INR. simpl. f_equal. lra.
Qed.

(** The mean of a non-empty constant tensor is the constant. *)
Lemma emean_const (x : R) (n : nat) : emean (repeat (Fin x) (S n)) = Fin x.
Proof.
  unfold emean. rewrite esum_const, repeat_length. unfold ediv.
  pose proof (pos_INR n) as Hn.
  destruct (Req_dec_T (INR (S n)) 0) as [E|NE].
  - rewrite S_INR in E. lra.
  - f_equal. field. exact NE.
Qed.

Lemma emean_zeros (n : nat) : emean (repeat (Fin (Q2R 0)) (S n)) = Fin (Q2R 0).
Proof. apply emean_const. Qed.

(** The mean of an empty tensor is undefined. *)
Lemma emean_nil : emean [] = NaN.
Proof.
  unfold emean, ediv. simpl.
  destruct (Req_dec_T 0 0) as [_|NE]; [reflexivity|]. now elim NE.
Qed.

Lemma repeat_NaN_length (n : nat) : length (repeat NaN n) = n.
Proof. apply repeat_length. Qed.

Definition ideal : TensorLib :=
  {| scalar := ext;
     rng := nat;
     lit := fun q => Fin (Q2R q);
     of_int := fun z => Fin (IZR z);
     t_pi := Fin PI;
     t_add := lift2 Rplus;
     t_sub := lift2 Rminus;
     t_mul := lift2 Rmult;
     t_div := ediv;
     t_neg := lift1 Ropp;
     t_abs := lift1 Rabs;
     t_square := lift1 Rsqr;
     t_arctan := lift1 atan;
     t_mean := emean;
     t_gt := egt;
     t_eq := eeq;
     linspace := elinspace;
     torch_empty := fun n => repeat NaN n;
     manual_seed := Z.to_nat;
     randn1 := fun r => (Fin 0, S r);
     rand1 := fun r => (Fin (1 / 2), S r);
     normal1 := fun mean _ r => (mean, S r);
     randint1 := fun low _ r => (low, S r);
     randperm := fun n r => (seq 0 n, S r);
     linspace_length := elinspace_length;
     linspace_first := elinspace_first;
     linspace_last := elinspace_last;
     torch_empty_length := repeat_NaN_length;
     randperm_perm := identity_perm;
     neg_one := eneg_one;
     sub_one_one := esub_one_one;
     square_zero := esquare_zero;
     mean_zeros := emean_zeros |}.

End Ideal.

(** ** The vocabulary of the specification *)

Section LossVocabulary.

Context `{TL : TensorLib}.

Variable callable_proj : tensor -> tensor -> tensor -> tensor -> scalar.

(** [(1 - F(callable_proj, xt, t, alpha, mu, sigma, gamma_length, n_samples))^2]
    for one point [(xt, t)]; every evaluation of [F] draws new samples. *)
Definition squared_deviation (alpha mu sigma : tensor) (gamma_length n_samples : nat)
           (point : scalar * scalar) : M scalar :=
  f <- F callable_proj (unsqueeze0 (fst point)) (unsqueeze0 (snd point))
         alpha mu sigma gamma_length n_samples ;;
  ret (t_square (t_sub (lit 1) f)).

End LossVocabulary.

(** The shapes of [sigma] and [mu] broadcast against a row of
    [gamma_length] samples. *)
Definition shapes_ok (sigma_len mu_len gamma_length : nat) : Prop :=
  exists w w', bshape sigma_len gamma_length = Ok w /\ bshape w mu_len = Ok w'.

Section AccuracyVocabulary.

Context `{TL : TensorLib}.

(** The number of positions where the prediction equals the truth. *)
Definition agreeing (pred : list Z) (truth : tensor) : nat :=
  length (filter (fun pt => t_eq (of_int (fst pt)) (snd pt)) (combine pred truth)).

(** The accuracy of the predictions at threshold [zeta]. *)
Definition accuracy_at (zeta : scalar) (scores truth : tensor) : scalar :=
  t_div (of_int (Z.of_nat (agreeing (get_preds_given_threshold zeta scores) truth)))
        (of_int (Z.of_nat (length truth))).

End AccuracyVocabulary.

Section TestingVocabulary.

Context `{TL : TensorLib}.

Variable callable_proj : tensor -> tensor -> tensor -> tensor -> scalar.

(** The accuracy of the model with parameters [model_params] on the two
    validation sets, with predictions taken at threshold [zeta]. *)
Definition model_accuracy (X_norm X_anom : list tensor) (T truth_labels : tensor)
           (gamma_length n_samples : nat) (model_params : dict tensor)
           (zeta : scalar) : M scalar :=
  scores <- get_norm_and_anom_scores callable_proj X_norm X_anom T model_params
              gamma_length n_samples ;;
  lift (get_accuracy_score (get_preds_given_threshold zeta scores) truth_labels).

(** The workflow with every accuracy taken at the single threshold [zeta0];
    as many random models are evaluated as there are further thresholds and
    seeds. *)
Definition testing_at_first_threshold (opt_params : dict tensor)
           (gamma_length n_samples : nat) (zeta0 : scalar) (n_further : nat)
           (p num_series : nat) (noise_amp spike_amp : scalar) (max_duration : nat)
           (t_init t_end : scalar) (W : nat -> nat -> nat) (n_qubits : nat)
           (random_model_seeds : list Z) (W_layers : nat) : M (list scalar) :=
  XT <- generate_normal_time_series_set p num_series noise_amp t_init t_end GLOBAL_SEED ;;
  YT <- generate_anomalous_time_series_set p num_series noise_amp spike_amp
          max_duration t_init t_end GLOBAL_SEED ;;
  let truth_labels := get_truth_labels (fst XT) (fst YT) in
  acc <- model_accuracy (fst XT) (fst YT) (snd YT) truth_labels
           gamma_length n_samples opt_params zeta0 ;;
  accs <-
    mapM (fun seed =>
            rand_params <- get_initial_parameters W W_layers n_qubits seed ;;
            model_accuracy (fst XT) (fst YT) (snd YT) truth_labels
                           gamma_length n_samples rand_params zeta0)
         (firstn n_further random_model_seeds) ;;
  ret (acc :: accs).

End TestingVocabulary.

Section TrainingVocabulary.

Context `{TL : TensorLib}.

Variable callable_proj : tensor -> tensor -> tensor -> tensor -> scalar.
Variable optimizer : Type.
Variable pytorch_optimizer : list tensor -> scalar -> optimizer.
Variable opt_update : optimizer -> list tensor -> list tensor -> optimizer * list tensor.
Variable backward : (list tensor -> result scalar) -> list tensor -> list tensor.

(** What [train_model_gradients] returns after [batch_iterations] steps from
    the initial state. *)
Definition trained (init_params : dict tensor) (lr : scalar) (cycler : cycler_t)
           (n_samples : nat) (callable_penalty : tensor -> scalar)
           (batch_iterations gamma_length : nat) (seed : Z)
           (res : results_dict) (cycler' : cycler_t) (r' : rng) : Prop :=
  let params := map snd init_params in
  exists alpha_at mu_at sigma_at st p0 p1 p2,
    key_index init_params "alpha" = Ok alpha_at
    /\ key_index init_params "mu" = Ok mu_at
    /\ key_index init_params "sigma" = Ok sigma_at
    /\ steps callable_proj opt_update backward alpha_at mu_at sigma_at
             gamma_length n_samples callable_penalty batch_iterations
                (mkTrainState params (pytorch_optimizer params lr) cycler)
                (manual_seed seed) (loss_history res) st r'
    /\ index (ts_params st) 0 = Ok p0
    /\ index (ts_params st) 1 = Ok p1
    /\ index (ts_params st) 2 = Ok p2
    /\ opt_params res = [("alpha"%string, p0); ("mu"%string, p1); ("sigma"%string, p2)]
    /\ cycler' = ts_cycler st.

Variable X : list (scalar * scalar).
Variable batch_size : nat.
Variables alpha_at mu_at sigma_at : nat.
Variables mu_len sigma_len : nat.

(** A batch holds as many times as points. *)
Definition well_formed (batch : tensor * tensor) : Prop :=
  length (fst batch) = length (snd batch).

Definition cycler_ok (c : cycler_t) : Prop :=
  dg_X c = X /\ dg_batch_size c = batch_size /\ Forall well_formed (dg_data c).

Definition params_ok (ps : list tensor) : Prop :=
  3 <= length ps
  /\ alpha_at < length ps
  /\ (exists mu, index ps mu_at = Ok mu /\ length mu = mu_len)
  /\ (exists sigma, index ps sigma_at = Ok sigma /\ length sigma = sigma_len).

Definition train_inv (st : train_state optimizer) : Prop :=
  cycler_ok (ts_cycler st) /\ params_ok (ts_params st).

End TrainingVocabulary.

(** *** Concrete inputs over exact reals *)

(** A projector that always measures the reference state. *)
Definition perfect_proj : @tensor Ideal.ideal -> @tensor Ideal.ideal
                          -> @tensor Ideal.ideal -> @tensor Ideal.ideal
                          -> @scalar Ideal.ideal :=
  fun _ _ _ _ => Ideal.Fin 1.

(** Three qubits, locality two, six angles. *)
Definition gamma6 : @tensor Ideal.ideal :=
  map (fun z => Ideal.Fin (IZR z)) [1; 2; 3; 4; 5; 6]%Z.

(** A rotation by an integer angle and a CNOT, on given qubits. *)
Definition rz (angle : Z) (q : nat) : @gate Ideal.ideal :=
  RZ (TL := Ideal.ideal) (Ideal.Fin (IZR angle)) [q].

Definition cnot (control target : nat) : @gate Ideal.ideal :=
  CNOT (TL := Ideal.ideal) [control; target].

(** A model with no [alpha], [mu = 0] and [sigma = 1]. *)
Definition unit_params : dict (@tensor Ideal.ideal) :=
  [("alpha"%string, []); ("mu"%string, [Ideal.Fin 0]); ("sigma"%string, [Ideal.Fin 1])].



(** ** The training and threshold-tuning workflows *)

Section Workflows.

Context `{TL : TensorLib}.

(** The projector built by [get_callable_projector_func]. *)
Variable callable_proj : tensor -> tensor -> tensor -> tensor -> scalar.

Variable optimizer : Type.
Variable pytorch_optimizer : list tensor -> scalar -> optimizer.
Variable opt_update : optimizer -> list tensor -> list tensor -> optimizer * list tensor.
Variable backward : (list tensor -> result scalar) -> list tensor -> list tensor.

(** Every electron is called with its default seed. *)
Definition training_workflow (W : nat -> nat -> nat) (n_qubits W_layers : nat)
           (gamma_length n_samples p num_series : nat)
           (noise_amp t_init t_end : scalar) (batch_size : nat) (tau lr : scalar)
           (batch_iterations : nat) : M results_dict :=
  XT <- generate_normal_time_series_set p num_series noise_amp t_init t_end GLOBAL_SEED ;;
  let '(X, T) := XT in
  let Xtr := make_atomized_training_set X T in
  cycler <- get_training_cycler collate_pairs Xtr batch_size GLOBAL_SEED ;;
  init_params <- get_initial_parameters W W_layers n_qubits GLOBAL_SEED ;;
  let callable_penalty := callable_arctan_penalty tau in
  res <- train_model_gradients callable_proj pytorch_optimizer opt_update backward
               lr init_params cycler n_samples callable_penalty batch_iterations
               gamma_length GLOBAL_SEED false ;;
  ret (fst res).

Definition threshold_tuning_workflow (opt_params : dict tensor)
           (gamma_length n_samples : nat) (zeta_min zeta_max : scalar) (steps : nat)
           (p num_series : nat) (noise_amp spike_amp : scalar) (max_duration : nat)
           (t_init t_end : scalar) (W : nat -> nat -> nat) (n_qubits : nat)
           (random_model_seeds : list Z) (W_layers : nat)
  : M (list tensor * list tensor) :=
  XT <- generate_normal_time_series_set p num_series noise_amp t_init t_end GLOBAL_SEED ;;
  let X_val_norm := fst XT in
  YT <- generate_anomalous_time_series_set p num_series noise_amp spike_amp
          max_duration t_init t_end GLOBAL_SEED ;;
  let X_val_anom := fst YT in
  let T := snd YT in
  let truth_labels := get_truth_labels X_val_norm X_val_anom in
  (* Evaluate optimal model *)
  scores <- get_norm_and_anom_scores callable_proj X_val_norm X_val_anom T
              opt_params gamma_length n_samples ;;
  accs_opt <- lift (threshold_scan_acc_score scores truth_labels zeta_min zeta_max steps) ;;
  (* Evaluate random models *)
  for_eachM
    (fun (lists : list tensor * list tensor) (seed : Z) =>
       rand_params <- get_initial_parameters W W_layers n_qubits seed ;;
       scores <- get_norm_and_anom_scores callable_proj X_val_norm X_val_anom T
                   rand_params gamma_length n_samples ;;
       accs <- lift (threshold_scan_acc_score scores truth_labels zeta_min zeta_max steps) ;;
       ret (fst lists ++ [accs], snd lists ++ [scores]))
    ([accs_opt], [scores]) random_model_seeds.

End Workflows.

(** ** The loop body of the anomalous series *)

Section Spikes.

Context `{TL : TensorLib}.

(** The body of [for y in Y] in [generate_anomalous_time_series_set]: the
    spikes of one series, as they are drawn and added. *)
Definition spike_series (p : nat) (spike_amp : scalar) (max_duration : nat)
           (y : tensor) : M tensor :=
  spike_num <- randint 5 10 1 ;;
  let spike_num := Z.to_nat (hd 0%Z spike_num) in
  durations <- randint 1 (Z.of_nat max_duration) spike_num ;;
  perm <- (if p <? max_duration then lift (Raise RuntimeError)
           else draw (randperm (p - max_duration))) ;;
  let spike_start_idxs := firstn spike_num perm in
  for_eachM (add_spike spike_amp) y (combine spike_start_idxs durations).

End Spikes.

(** ** The circuit of [get_probs] *)

Section Probs.

Context `{TL : TensorLib}.

(** What the quantum function queues: the embedding [U] and the template [W]
    are operations of the simulator, given here with their arguments; the
    operations of [D] are queued one by one; [qml.probs] queues the
    measurement that the node returns. *)
Inductive operation : Type :=
| Embedding (xt : tensor) (wires : list nat)
| Template (alpha : tensor) (wires : list nat)
| Diagonal (g : gate)
| AdjointTemplate (alpha : tensor) (wires : list nat)
| Probs (wires : list nat).

(** [U] and [W] are callables of the simulator: they accept their arguments
    or raise. *)
Variable U : tensor -> list nat -> result unit.
Variable W : tensor -> list nat -> result unit.

Definition get_probs (xt t alpha gamma : tensor) (k : option nat) (n_qubits : nat)
  : result (list operation) :=
  _ <~ U xt (range n_qubits) ;;
  _ <~ W alpha (range n_qubits) ;;
  gamma_t <~ broadcast2 t_mul gamma t ;;
  d <~ D gamma_t n_qubits k ;;
  _ <~ W alpha (range n_qubits) ;;
  Ok ([Embedding xt (range n_qubits); Template alpha (range n_qubits)]
        ++ map Diagonal (snd d)
        ++ [AdjointTemplate alpha (range n_qubits); Probs (range n_qubits)]).

End Probs.

(** ** Further vocabulary *)

(** [torch.randint(low, high, ...)] draws from [low] up to, not including,
    [high]. *)
Definition randint_in_range `{TensorLib} : Prop :=
  forall low high r, (low < high)%Z -> (low <= fst (randint1 low high r) < high)%Z.

(** A standard deviation that [torch.normal] accepts: not negative. *)
Definition valid_std `{TensorLib} (std : scalar) : Prop :=
  t_gt std (lit 0) = true \/ t_eq std (lit 0) = true.

(** The optimizer updates the parameters in place: shapes are kept. *)
Definition keeps_shapes `{TensorLib} (optimizer : Type)
           (opt_update : optimizer -> list tensor -> list tensor -> optimizer * list tensor)
  : Prop :=
  forall o ps gs, map (@length scalar) (snd (opt_update o ps gs)) = map (@length scalar) ps.

(** The action of the queued operations on a computational basis state, given
    by the bit of every qubit: a CNOT flips its target when its control is
    set, a rotation about Z changes the phase only. *)
Definition apply_gate `{TensorLib} (g : gate) (bits : nat -> bool) : nat -> bool :=
  match g with
  | CNOT [control; target] =>
      fun q => if q =? target then xorb (bits target) (bits control) else bits q
  | _ => bits
  end.

Definition run_tape `{TensorLib} (tape : list gate) (bits : nat -> bool) : nat -> bool :=
  fold_left (fun b g => apply_gate g b) tape bits.

(** The number of batches of one pass over [n] items. *)
Definition batches_per_pass (n batch_size : nat) : nat :=
  (n + batch_size - 1) / batch_size.

(** An operation on valid wires of an [n]-qubit device: a rotation on one
    qubit, or a CNOT from a qubit to a later one. *)
Definition well_placed `{TensorLib} (n : nat) (g : gate) : Prop :=
  match g with
  | RZ _ [q] => q < n
  | CNOT [control; target] => control < target < n
  | _ => False
  end.

(** *** A concrete optimizer *)

(** An optimizer that leaves the parameters as they are. *)
Definition idle_update (o : unit) (ps gs : list (@tensor Ideal.ideal))
  : unit * list (@tensor Ideal.ideal) := (o, ps).
(** ** Properties of [combinations] and of the loops of [D] *)

Section CombinationsFacts.

Variable A : Type.

Lemma combinations_length (l : list A) :
  forall k, length (combinations l k) = binom (length l) k.
Proof.
  induction l as [|a l IH]; intros [|k]; simpl; trivial.
  rewrite length_app, length_map, !IH. reflexivity.
Qed.

Lemma combinations_size (l : list A) :
  forall k c, In c (combinations l k) -> length c = k.
Proof.
  induction l as [|a l IH]; intros [|k] c; simpl.
  - intros [<-|[]]. reflexivity.
  - intros [].
  - intros [<-|[]]. reflexivity.
  - rewrite in_app_iff, in_map_iff. intros [(c' & <- & Hc')|Hc].
    + simpl. f_equal. now apply IH.
    + now apply IH.
Qed.

Lemma combinations_incl (l : list A) :
  forall k c, In c (combinations l k) -> incl c l.
Proof.
  induction l as [|a l IH]; intros [|k] c; simpl.
  - intros [<-|[]]. apply incl_nil_l.
  - intros [].
  - intros [<-|[]]. apply incl_nil_l.
  - rewrite in_app_iff, in_map_iff. intros [(c' & <- & Hc')|Hc].
    + apply incl_cons; [now left|]. apply incl_tl. eapply IH; eassumption.
    + apply incl_tl. eapply IH; eassumption.
Qed.

Lemma combinations_NoDup (l : list A) :
  NoDup l -> forall k, NoDup (combinations l k).
Proof.
  induction 1 as [|a l Ha Hl IH]; intros [|k]; simpl.
  - repeat constructor. intros [].
  - constructor.
  - repeat constructor. intros [].
  - apply NoDup_app.
    + apply Finite.Injective_map_NoDup; [|apply IH].
      intros x y Hxy. now injection Hxy.
    + apply IH.
    + intros c Hc Hc'. apply in_map_iff in Hc as (c' & <- & _).
      apply combinations_incl in Hc'. apply Ha, Hc'. now left.
Qed.

End CombinationsFacts.

Lemma combinations_seq_spec (n : nat) :
  forall a k c,
    In c (combinations (seq a n) k) <->
    length c = k /\ StronglySorted lt c /\ Forall (fun q => a <= q < a + n) c.
Proof.
  induction n as [|n IH]; intros a [|k] c; simpl.
  - split.
    + intros [<-|[]]. repeat split; constructor.
    + intros (Hl & _). destruct c; [now left|discriminate].
  - split; [intros []|]. intros (Hl & _ & Hf).
    destruct c as [|q c]; [discriminate|]. inversion Hf; subst. lia.
  - split.
    + intros [<-|[]]. repeat split; constructor.
    + intros (Hl & _). destruct c; [now left|discriminate].
  - rewrite in_app_iff, in_map_iff. split.
    + intros [(c' & <- & Hc')|Hc].
      * apply IH in Hc' as (Hl & Hs & Hf). repeat split.
        -- simpl. now f_equal.
        -- constructor; [assumption|].
           eapply Forall_impl; [|exact Hf]. simpl. intros; lia.
        -- constructor; [lia|].
           eapply Forall_impl; [|exact Hf]. simpl. intros; lia.
      * apply IH in Hc as (Hl & Hs & Hf). repeat split; trivial.
        eapply Forall_impl; [|exact Hf]. simpl. intros; lia.
    + intros (Hl & Hs & Hf). destruct c as [|q c]; [discriminate|].
      inversion Hs as [|? ? Hs' Hlt]; subst. inversion Hf as [|? ? Hq Hf']; subst.
      destruct (Nat.eq_dec q a) as [->|Hne].
      * left. exists c. split; [reflexivity|]. apply IH. repeat split.
        -- simpl in Hl. lia.
        -- assumption.
        -- rewrite Forall_forall in *. intros x Hx.
           specialize (Hlt x Hx). specialize (Hf' x Hx). simpl in *. lia.
      * right. apply IH. repeat split; trivial.
        constructor; [lia|].
        rewrite Forall_forall in *. intros x Hx.
        specialize (Hlt x Hx). specialize (Hf' x Hx). simpl in *. lia.
Qed.

(** [binom] is the binomial coefficient [n! / (k! (n-k)!)]. *)
Lemma binom_gt (n : nat) : forall k, n < k -> binom n k = 0.
Proof.
  induction n as [|n IH]; intros [|k] Hk; simpl; try lia.
  rewrite !IH by lia. reflexivity.
Qed.

Lemma binom_fact (n : nat) :
  forall k, k <= n -> binom n k * (fact k * fact (n - k)) = fact n.
Proof.
  induction n as [|n IH]; intros [|k] Hk; simpl binom.
  - reflexivity.
  - lia.
  - rewrite Nat.sub_0_r. change (fact 0) with 1. lia.
  - destruct (Nat.eq_dec k n) as [->|Hne].
    + rewrite (@binom_gt n (S n)) by lia. specialize (IH n (le_n _)).
      rewrite Nat.sub_diag in *. simpl fact in *. nia.
    + assert (Hk' : k <= n) by lia. assert (Hk'' : S k <= n) by lia.
      pose proof (IH k Hk') as H1. pose proof (IH (S k) Hk'') as H2.
      replace (S n - S k) with (n - k) by lia.
      replace (n - k) with (S (n - S k)) in * by lia.
      change (fact (S n)) with (S n * fact n).
      change (fact (S k)) with (S k * fact k) in *.
      change (fact (S (n - S k))) with (S (n - S k) * fact (n - S k)) in *.
      replace (S n) with (S k + S (n - S k)) at 1 by lia.
      nia.
Qed.

Lemma for_each_app {A S : Type} (body : S -> A -> result S) (l1 l2 : list A) :
  forall s, for_each body s (l1 ++ l2)
            = rbind (for_each body s l1) (fun s' => for_each body s' l2).
Proof.
  induction l1 as [|a l1 IH]; intros s; simpl; trivial.
  destruct (body s a) as [s'|e]; simpl; auto.
Qed.

(** Two nested [for] loops are one loop over the flattened iteration space. *)
Lemma for_each_flat_map {A B S : Type} (body : S -> B -> result S)
      (inner : A -> list B) (l : list A) :
  forall s, for_each (fun st i => for_each body st (inner i)) s l
            = for_each body s (flat_map inner l).
Proof.
  induction l as [|a l IH]; intros s; simpl; trivial.
  rewrite for_each_app. destruct (for_each body s (inner a)); simpl; auto.
Qed.

Lemma index_skipn {A : Type} (l : list A) (i : nat) :
  i < length l -> exists a, index l i = Ok a /\ skipn i l = a :: skipn (S i) l.
Proof.
  revert i. induction l as [|x l IH]; intros [|i] Hi; simpl in *; try lia.
  - exists x. split; reflexivity.
  - destruct (IH i) as (a & Ha & Hs); [lia|]. exists a. split; [exact Ha|].
    rewrite Hs. destruct l; reflexivity.
Qed.

Lemma length_flat_map_sum {A B : Type} (f : A -> list B) (l : list A) :
  length (flat_map f l) = list_sum (map (fun a => length (f a)) l).
Proof.
  induction l as [|a l IH]; simpl; trivial. rewrite length_app, IH. reflexivity.
Qed.

Section CircuitFacts.

Context `{TL : TensorLib}.

Lemma slices_pairs (comb : list nat) :
  map (fun i => slice comb i (i + 2)) (range (length comb - 1))
  = consecutive_pairs comb.
Proof.
  rewrite Nat.sub_1_r. unfold range.
  induction comb as [|a [|b t] IH]; trivial.
  change (pred (length (a :: b :: t))) with (S (pred (length (b :: t)))).
  rewrite <- cons_seq, <- seq_shift, map_cons, map_map.
  change (consecutive_pairs (a :: b :: t)) with ([a; b] :: consecutive_pairs (b :: t)).
  rewrite <- IH. reflexivity.
Qed.

Lemma D_comb_block (gamma : tensor) (cnt : nat) (tape : list gate)
      (comb : list nat) (g : scalar) :
  1 <= length comb -> index gamma cnt = Ok g ->
  D_comb gamma (cnt, tape) comb = Ok (cnt + 1, tape ++ walsh_block comb g).
Proof.
  intros Hlen Hg. unfold D_comb.
  destruct comb as [|a [|b t]]; [simpl in Hlen; lia| |].
  - simpl. rewrite Hg. reflexivity.
  - remember (a :: b :: t) as comb eqn:Ecomb.
    assert (H1 : (length comb =? 1) = false)
      by (apply Nat.eqb_neq; subst comb; simpl; lia).
    assert (H2 : (1 <? length comb) = true)
      by (apply Nat.ltb_lt; subst comb; simpl; lia).
    rewrite H1, H2, Hg. cbv zeta. simpl rbind.
    rewrite slices_pairs. subst comb. unfold walsh_block.
    rewrite <- !app_assoc. reflexivity.
Qed.

Lemma D_inner_loop (gamma : tensor) (combs : list (list nat)) :
  forall cnt tape,
    Forall (fun c => 1 <= length c) combs ->
    cnt + length combs <= length gamma ->
    for_each (D_comb gamma) (cnt, tape) combs
    = Ok (cnt + length combs, tape ++ blocks combs (skipn cnt gamma)).
Proof.
  induction combs as [|c combs IH]; intros cnt tape Hne Hlen; cbn [for_each length blocks].
  - simpl. rewrite Nat.add_0_r, app_nil_r. reflexivity.
  - inversion Hne as [|? ? Hc Hcs]; subst. simpl in Hlen.
    destruct (@index_skipn _ gamma cnt) as (g & Hg & Hs); [lia|].
    rewrite D_comb_block with (g := g) by assumption. simpl rbind.
    rewrite IH by (trivial; lia). rewrite Hs.
    replace (cnt + 1) with (S cnt) by lia.
    rewrite <- app_assoc. do 2 f_equal. lia.
Qed.

(** With too few entries in [gamma] the read [gamma[cnt]] raises. *)
Lemma D_inner_loop_short (gamma : tensor) (combs : list (list nat)) :
  forall cnt tape,
    Forall (fun c => 1 <= length c) combs ->
    cnt <= length gamma < cnt + length combs ->
    for_each (D_comb gamma) (cnt, tape) combs = Raise IndexError.
Proof.
  induction combs as [|c combs IH]; intros cnt tape Hne Hlen;
    cbn [for_each length] in *; [lia|].
  inversion Hne as [|? ? Hc Hcs]; subst.
  destruct (Nat.eq_dec cnt (length gamma)) as [Heq|Hneq].
  - assert (Hi : index gamma cnt = Raise IndexError).
    { unfold index. replace (nth_error gamma cnt) with (@None scalar); trivial.
      symmetry. apply nth_error_None. lia. }
    unfold D_comb. destruct c as [|a [|b t]]; [simpl in Hc; lia| |].
    + simpl. rewrite Hi. reflexivity.
    + remember (a :: b :: t) as comb eqn:Ecomb.
      assert (H1 : (length comb =? 1) = false)
        by (apply Nat.eqb_neq; subst comb; simpl; lia).
      assert (H2 : (1 <? length comb) = true)
        by (apply Nat.ltb_lt; subst comb; simpl; lia).
      rewrite H1, H2, Hi. reflexivity.
  - destruct (@index_skipn _ gamma cnt) as (g & Hg & _); [lia|].
    rewrite D_comb_block with (g := g) by assumption. simpl rbind. apply IH; trivial. lia.
Qed.

Lemma rz_angles_app (t1 t2 : list gate) :
  rz_angles (t1 ++ t2) = rz_angles t1 ++ rz_angles t2.
Proof. unfold rz_angles. apply flat_map_app. Qed.

Lemma rz_angles_cnots (ws : list (list nat)) : rz_angles (map CNOT ws) = [].
Proof. induction ws as [|w ws IH]; simpl; trivial. Qed.

Lemma rz_angles_block (comb : list nat) (g : scalar) :
  1 <= length comb -> rz_angles (walsh_block comb g) = [g].
Proof.
  destruct comb as [|a [|b t]]; simpl length; intros Hlen; [lia|reflexivity|].
  unfold walsh_block. rewrite !rz_angles_app, !rz_angles_cnots. reflexivity.
Qed.

Lemma rz_angles_blocks (combs : list (list nat)) :
  forall gamma : tensor,
    Forall (fun c => 1 <= length c) combs ->
    length combs <= length gamma ->
    rz_angles (blocks combs gamma) = firstn (length combs) gamma.
Proof.
  induction combs as [|c combs IH]; intros [|g gamma] Hne Hlen; simpl in *;
    trivial; try lia.
  inversion Hne; subst.
  rewrite rz_angles_app, rz_angles_block, IH by (trivial; lia). reflexivity.
Qed.

End CircuitFacts.

Lemma subsets_upto_nonempty (n k : nat) :
  Forall (fun c => 1 <= length c) (subsets_upto n k).
Proof.
  apply Forall_forall. intros c Hc. unfold subsets_upto, range2 in Hc.
  apply in_flat_map in Hc as (i & Hi & Hc).
  apply combinations_size in Hc. apply in_seq in Hi. lia.
Qed.

Lemma subsets_upto_length (n k : nat) :
  length (subsets_upto n k) = walsh_terms n k.
Proof.
  unfold subsets_upto, walsh_terms. rewrite length_flat_map_sum.
  f_equal. apply map_ext. intros i.
  rewrite combinations_length. unfold range. now rewrite length_seq.
Qed.

Lemma subsets_upto_spec (n k : nat) (c : list nat) :
  In c (subsets_upto n k) <->
  1 <= length c <= k /\ StronglySorted lt c /\ Forall (fun q => q < n) c.
Proof.
  unfold subsets_upto, range2, range. rewrite in_flat_map. split.
  - intros (i & Hi & Hc). apply in_seq in Hi.
    apply combinations_seq_spec in Hc as (Hl & Hs & Hf).
    repeat split; trivial; try lia.
    eapply Forall_impl; [|exact Hf]. simpl. intros; lia.
  - intros (Hl & Hs & Hf). exists (length c). split.
    + apply in_seq. lia.
    + apply combinations_seq_spec. repeat split; trivial.
      eapply Forall_impl; [|exact Hf]. simpl. intros; lia.
Qed.

Lemma subsets_upto_NoDup (n k : nat) : NoDup (subsets_upto n k).
Proof.
  unfold subsets_upto, range2. generalize (k + 1 - 1) as m. generalize 1 as a.
  intros a m. revert a. induction m as [|m IH]; intros a; simpl.
  - constructor.
  - apply NoDup_app.
    + apply combinations_NoDup. apply seq_NoDup.
    + apply IH.
    + intros c Hc Hc'. apply combinations_size in Hc.
      apply in_flat_map in Hc' as (i & Hi & Hc').
      apply combinations_size in Hc'. apply in_seq in Hi. lia.
Qed.

Lemma D_as_single_loop `{TL : TensorLib} (gamma : tensor) (n k : nat) :
  D gamma n (Some k) = for_each (D_comb gamma) (0, []) (subsets_upto n k).
Proof. unfold D, subsets_upto. apply for_each_flat_map. Qed.

(** With fewer entries in [gamma] than subsets, [D] raises [IndexError]. *)
Lemma D_short_gamma `{TL : TensorLib} (gamma : tensor) (n k : nat) :
  length gamma < walsh_terms n k -> D gamma n (Some k) = Raise IndexError.
Proof.
  intros Hlen. rewrite D_as_single_loop. apply D_inner_loop_short.
  - apply subsets_upto_nonempty.
  - rewrite subsets_upto_length. lia.
Qed.

(** C3.  For [n >= 1] qubits and locality [1 <= k <= n] ([None] standing for
    [n]), with enough entries in [gamma], [D] queues one block per non-empty
    subset of at most [k] qubits, in the order of [combinations] by size: a
    bare [RZ] for a singleton, else the CNOT chain along consecutive pairs,
    one [RZ] on the last qubit and the chain in reverse.  There are
    [sum_{i=1..k} C(n,i)] subsets, each listed once, so as many rotations;
    their angles are the first entries of [gamma] in order, and the counter
    ends at that number. *)
Theorem D_walsh_circuit `{TL : TensorLib} (gamma : tensor) (n k : nat) :
  1 <= n -> 1 <= k <= n -> walsh_terms n k <= length gamma ->
  D gamma n (Some k) = Ok (walsh_terms n k, blocks (subsets_upto n k) gamma)
  /\ D gamma n None = D gamma n (Some n)
  /\ count_rz (blocks (subsets_upto n k) gamma) = walsh_terms n k
  /\ rz_angles (blocks (subsets_upto n k) gamma) = firstn (walsh_terms n k) gamma
  /\ length (subsets_upto n k) = walsh_terms n k
  /\ NoDup (subsets_upto n k)
  /\ (forall c, In c (subsets_upto n k) <->
                1 <= length c <= k /\ StronglySorted lt c /\ Forall (fun q => q < n) c).
Proof.
  intros Hn Hk Hlen.
  pose proof (subsets_upto_length n k) as Hsub.
  pose proof (subsets_upto_nonempty n k) as Hne.
  assert (Hang : rz_angles (blocks (subsets_upto n k) gamma)
                 = firstn (walsh_terms n k) gamma).
  { rewrite <- Hsub. apply rz_angles_blocks; trivial. lia. }
  split; [|split; [|split; [|split; [|split; [|split]]]]].
  - rewrite D_as_single_loop, D_inner_loop by (trivial; simpl; lia).
    simpl. now rewrite Hsub.
  - reflexivity.
  - unfold count_rz. rewrite Hang, length_firstn. lia.
  - exact Hang.
  - exact Hsub.
  - apply subsets_upto_NoDup.
  - intros c. apply subsets_upto_spec.
Qed.

Example D_three_qubits_two_local :
  D (TL := Ideal.ideal) gamma6 3 (Some 2)
  = Ok (6, [ rz 1 0; rz 2 1; rz 3 2;
             cnot 0 1; rz 4 1; cnot 0 1;
             cnot 0 2; rz 5 2; cnot 0 2;
             cnot 1 2; rz 6 2; cnot 1 2 ]).
Proof. reflexivity. Qed.

Example D_four_qubits_three_local_count :
  match D (TL := Ideal.ideal) (repeat (Ideal.Fin 0) 14) 4 (Some 3) with
  | Ok (cnt, tape) => cnt = 14 /\ count_rz tape = 14 /\ length tape = 14 + 2 * (6 + 4 * 2)
  | Raise _ => False
  end.
Proof. repeat split. Qed.

Example D_short_gamma_example :
  D (TL := Ideal.ideal) gamma6 3 None = Raise IndexError.
Proof. reflexivity. Qed.

Lemma D_walsh_circuit_witness :
  D (TL := Ideal.ideal) gamma6 3 (Some 2)
  = Ok (6, blocks (TL := Ideal.ideal) (subsets_upto 3 2) gamma6).
Proof.
  refine (proj1 (@D_walsh_circuit Ideal.ideal gamma6 3 2 _ _ _)).
  - lia.
  - lia.
  - vm_compute. lia.
Defined.

(** ** Loops that fill a buffer *)

Lemma setitem_middle {A : Type} (done rest : list A) (x v : A) :
  setitem (done ++ x :: rest) (length done) v = Ok (done ++ v :: rest).
Proof.
  unfold setitem.
  replace (length done <? length (done ++ x :: rest)) with true
    by (symmetry; apply Nat.ltb_lt; rewrite length_app; simpl; lia).
  rewrite firstn_app, Nat.sub_diag, firstn_all. cbn [firstn].
  rewrite app_nil_r.
  replace (S (length done)) with (length done + 1) by lia.
  rewrite skipn_app, skipn_all2 by lia.
  replace (length done + 1 - length done) with 1 by lia. reflexivity.
Qed.

(** A loop that stores [f] of the [i]-th item at position [i] of a buffer
    computes [map f]; what the buffer held before is overwritten. *)
Lemma fill_loop {A B : Type} (f : A -> B) (l : list A) :
  forall done rest,
    length l <= length rest ->
    for_each (fun buf ig => setitem buf (fst ig) (f (snd ig)))
             (done ++ rest) (combine (seq (length done) (length l)) l)
    = Ok (done ++ map f l ++ skipn (length l) rest).
Proof.
  induction l as [|a l IH]; intros done rest Hlen; [reflexivity|].
  destruct rest as [|x rest]; [simpl in Hlen; lia|].
  cbn [length seq combine for_each fst snd].
  rewrite setitem_middle. cbn [rbind].
  specialize (IH (done ++ [f a]) rest).
  rewrite length_app, Nat.add_1_r, <- app_assoc in IH. cbn [app] in IH.
  rewrite IH by (simpl in Hlen; lia).
  rewrite <- app_assoc. reflexivity.
Qed.

Lemma fill_loop_all {A B : Type} (f : A -> B) (l : list A) (buf : list B) :
  length buf = length l ->
  for_each (fun buf ig => setitem buf (fst ig) (f (snd ig))) buf (enumerate l)
  = Ok (map f l).
Proof.
  intros Hlen. unfold enumerate.
  pose proof (fill_loop f l [] buf) as H. cbn [app length] in H.
  rewrite H by lia.
  rewrite <- Hlen, skipn_all, app_nil_r. reflexivity.
Qed.

Section LoopsInM.

Context `{TL : TensorLib}.

Lemma bind_run {A B : Type} (c : M A) (k : A -> M B) (r : rng) :
  bind c k r = match c r with
               | Ok (a, r') => k a r'
               | Raise e => Raise e
               end.
Proof. reflexivity. Qed.

Lemma mapM_ext {A B : Type} (f g : A -> M B) (l : list A) :
  (forall a r, f a r = g a r) -> forall r, mapM f l r = mapM g l r.
Proof.
  intros Hfg. induction l as [|a l IH]; intros r; [reflexivity|].
  cbn [mapM]. unfold bind. rewrite Hfg.
  destruct (g a r) as [[b r1]|e]; trivial. rewrite IH. reflexivity.
Qed.

Lemma mapM_map {A B C : Type} (h : A -> B) (f : B -> M C) (l : list A) :
  forall r, mapM f (map h l) r = mapM (fun a => f (h a)) l r.
Proof.
  induction l as [|a l IH]; intros r; [reflexivity|].
  cbn [map mapM]. unfold bind.
  destruct (f (h a) r) as [[b r1]|e]; trivial. rewrite IH. reflexivity.
Qed.

Lemma mapM_cons {A B : Type} (f : A -> M B) (a : A) (l : list A) (r : rng) :
  mapM f (a :: l) r
  = match f a r with
    | Ok (b, r1) =>
        match mapM f l r1 with
        | Ok (bs, r2) => Ok (b :: bs, r2)
        | Raise e => Raise e
        end
    | Raise e => Raise e
    end.
Proof. reflexivity. Qed.

Lemma mapM_length {A B : Type} (f : A -> M B) (l : list A) :
  forall r bs r', mapM f l r = Ok (bs, r') -> length bs = length l.
Proof.
  induction l as [|a l IH]; intros r bs r'; cbn [mapM]; unfold bind, ret.
  - intros [= <- _]. reflexivity.
  - destruct (f a r) as [[b r1]|e]; [|discriminate].
    destruct (mapM f l r1) as [[bs1 r2]|e] eqn:E; [|discriminate].
    intros [= <- _]. simpl. f_equal. eapply IH; eassumption.
Qed.

(** The same for a loop in [M]: a body that computes a value for position
    [i] and stores it there fills the buffer with the values of [mapM]. *)
Lemma fillM_loop (body : tensor -> nat -> M tensor) (c : nat -> M scalar) :
  (forall buf i r, body buf i r = bind (c i) (fun v => lift (setitem buf i v)) r) ->
  forall m done rest r,
    m <= length rest ->
    for_eachM body (done ++ rest) (seq (length done) m) r
    = bind (mapM c (seq (length done) m))
           (fun vs => ret (done ++ vs ++ skipn m rest)) r.
Proof.
  intros Hbody. unfold bind, ret in *.
  induction m as [|m IH]; intros done rest r Hlen.
  - reflexivity.
  - destruct rest as [|x rest]; [simpl in Hlen; lia|].
    cbn [seq for_eachM mapM]. unfold bind, ret. rewrite Hbody.
    destruct (c (length done) r) as [[v r1]|e]; trivial.
    unfold lift. rewrite setitem_middle.
    specialize (IH (done ++ [v]) rest r1).
    rewrite length_app, Nat.add_1_r, <- app_assoc in IH. cbn [app] in IH.
    rewrite IH by (simpl in Hlen; lia).
    destruct (mapM c (seq (S (length done)) m) r1) as [[vs r2]|e]; trivial.
    rewrite <- app_assoc. reflexivity.
Qed.

Lemma fillM_loop_all (body : tensor -> nat -> M tensor) (c : nat -> M scalar)
      (n : nat) (buf : tensor) :
  (forall buf i r, body buf i r = bind (c i) (fun v => lift (setitem buf i v)) r) ->
  length buf = n ->
  forall r, for_eachM body buf (range n) r = mapM c (range n) r.
Proof.
  intros Hbody Hlen r. unfold range.
  pose proof (@fillM_loop body c Hbody n [] buf r) as H. cbn [app length] in H.
  rewrite H by lia.
  unfold bind, ret.
  destruct (mapM c (seq 0 n) r) as [[vs r1]|e] eqn:E; trivial.
  rewrite <- Hlen, skipn_all, app_nil_r. reflexivity.
Qed.

(** Reading two tensors by position is reading their pairs in order. *)
Lemma mapM_index_pairs {B : Type} (g : scalar -> scalar -> M B) (T : tensor) :
  forall x : tensor,
    length T <= length x ->
    forall r,
      mapM (fun i => xi <- lift (index x i) ;; ti <- lift (index T i) ;; g xi ti)
           (range (length T)) r
      = mapM (fun p => g (fst p) (snd p)) (combine x T) r.
Proof.
  unfold range. induction T as [|t T IH]; intros x Hlen r; [destruct x; reflexivity|].
  destruct x as [|a x]; [simpl in Hlen; lia|].
  cbn [length combine]. rewrite <- cons_seq, <- seq_shift, !mapM_cons.
  cbn [bind lift index nth_error fst snd].
  destruct (g a t r) as [[b r1]|e]; trivial.
  rewrite mapM_map. cbn [index nth_error].
  rewrite (IH x) by (simpl in Hlen; lia). reflexivity.
Qed.

End LoopsInM.

(** ** The anomaly score and the loss *)

Section LossFacts.

Context `{TL : TensorLib}.

Variable callable_proj : tensor -> tensor -> tensor -> tensor -> scalar.

Lemma draws_length {A : Type} (f : rng -> A * rng) (n : nat) :
  forall r, length (fst (draws f n r)) = n.
Proof.
  induction n as [|n IH]; intros r; cbn [draws]; trivial.
  destruct (f r) as [a r1]. specialize (IH r1).
  destruct (draws f n r1) as [l r2]. simpl in *. now f_equal.
Qed.

(** [F] is the mean of the projector over the sampled [gamma]s. *)
Lemma F_mean (xt t alpha mu sigma : tensor) (gamma_length n_samples : nat) (r : rng) :
  F callable_proj xt t alpha mu sigma gamma_length n_samples r
  = let (noise, r') := draws (draws randn1 gamma_length) n_samples r in
    match sample_gammas sigma mu noise gamma_length with
    | Ok gammas => Ok (t_mean (map (callable_proj xt t alpha) gammas), r')
    | Raise e => Raise e
    end.
Proof.
  unfold F, randn, draw. rewrite bind_run.
  pose proof (draws_length (draws randn1 gamma_length) n_samples r) as Hn.
  destruct (draws (draws randn1 gamma_length) n_samples r) as [noise r'].
  cbn [fst] in Hn. rewrite bind_run. unfold lift at 1.
  destruct (sample_gammas sigma mu noise gamma_length) as [gammas|e] eqn:Eg; trivial.
  assert (Hg : length gammas = n_samples).
  { unfold sample_gammas in Eg.
    destruct (bshape (length sigma) gamma_length) as [w|]; [|discriminate].
    cbn [rbind] in Eg. destruct (bshape w (length mu)); [|discriminate].
    cbn [rbind] in Eg. injection Eg as <-. now rewrite length_map. }
  rewrite bind_run. unfold lift.
  rewrite (fill_loop_all (callable_proj xt t alpha) gammas)
    by (rewrite torch_empty_length; congruence).
  reflexivity.
Qed.

(** The loop shared by [get_anomaly_score] and [get_loss] computes the
    squared deviations of the points in order. *)
Lemma deviation_loop (x T alpha mu sigma : tensor) (gamma_length n_samples : nat)
      (buf : tensor) (r : rng) :
  length buf = length T -> length T <= length x ->
  for_eachM
    (fun buf i =>
       xi <- lift (index x i) ;;
       ti <- lift (index T i) ;;
       f <- F callable_proj (unsqueeze0 xi) (unsqueeze0 ti) alpha mu sigma
              gamma_length n_samples ;;
       lift (setitem buf i (t_square (t_sub (lit 1) f))))
    buf (range (length T)) r
  = mapM (squared_deviation callable_proj alpha mu sigma gamma_length n_samples) (combine x T) r.
Proof.
  intros Hbuf Hlen.
  rewrite fillM_loop_all
    with (c := fun i =>
                 xi <- lift (index x i) ;;
                 ti <- lift (index T i) ;;
                 squared_deviation callable_proj alpha mu sigma gamma_length n_samples (xi, ti));
    trivial.
  - apply (mapM_index_pairs
             (fun xi ti => squared_deviation callable_proj alpha mu sigma gamma_length n_samples (xi, ti))
             T x Hlen r).
  - intros b i r0. unfold squared_deviation, bind, lift, ret. cbn [fst snd].
    destruct (index x i) as [xi|e]; trivial.
    destruct (index T i) as [ti|e]; trivial.
    destruct (F callable_proj (unsqueeze0 xi) (unsqueeze0 ti) alpha mu sigma
                gamma_length n_samples r0) as [[f r1]|e]; trivial.
Qed.

Lemma get_anomaly_score_mean (x T alpha mu sigma : tensor)
      (gamma_length n_samples : nat) (r : rng) :
  length T <= length x ->
  get_anomaly_score callable_proj x T alpha mu sigma gamma_length n_samples false r
  = (sq <- mapM (squared_deviation callable_proj alpha mu sigma gamma_length n_samples) (combine x T) ;;
     ret (Averaged (t_mean sq))) r.
Proof.
  intros Hlen. unfold get_anomaly_score. rewrite !bind_run.
  rewrite deviation_loop by (trivial; apply torch_empty_length). reflexivity.
Qed.

(** When [F] is identically one, every squared deviation is zero. *)
Lemma perfect_rewinding_deviations (alpha mu sigma : tensor)
      (gamma_length n_samples : nat) :
  (forall xt t r0, exists r1,
      F callable_proj xt t alpha mu sigma gamma_length n_samples r0 = Ok (lit 1, r1)) ->
  forall points r, exists r',
    mapM (squared_deviation callable_proj alpha mu sigma gamma_length n_samples) points r
    = Ok (repeat (lit 0) (length points), r').
Proof.
  intros HF. induction points as [|[xt t] points IH]; intros r.
  - exists r. reflexivity.
  - rewrite mapM_cons. unfold squared_deviation at 1. unfold bind, ret. cbn [fst snd].
    destruct (HF (unsqueeze0 xt) (unsqueeze0 t) r) as (r1 & ->).
    destruct (IH r1) as (r2 & ->). exists r2.
    rewrite sub_one_one, square_zero. reflexivity.
Qed.

(** C1, amended.  For a time series [x] on a non-empty time grid [T],
    [get_anomaly_score] with [get_time_resolved=False] returns the mean over
    the time points of [(1 - F(callable_proj, x[i], T[i], ...))^2], and when
    [F] is identically one the score is zero. *)
Theorem get_anomaly_score_spec (x T alpha mu sigma : tensor)
        (gamma_length n_samples : nat) (r : rng) :
  length x = length T -> T <> [] ->
  get_anomaly_score callable_proj x T alpha mu sigma gamma_length n_samples false r
  = (sq <- mapM (squared_deviation callable_proj alpha mu sigma gamma_length n_samples) (combine x T) ;;
     ret (Averaged (t_mean sq))) r
  /\ ((forall xt t r0, exists r1,
          F callable_proj xt t alpha mu sigma gamma_length n_samples r0 = Ok (lit 1, r1)) ->
      exists r',
        get_anomaly_score callable_proj x T alpha mu sigma gamma_length n_samples false r
        = Ok (Averaged (lit 0), r')).
Proof.
  intros Hlen HT.
  assert (Hmean := @get_anomaly_score_mean x T alpha mu sigma gamma_length n_samples r).
  rewrite Hmean by lia. split; [reflexivity|].
  intros HF. unfold bind, ret.
  destruct (perfect_rewinding_deviations alpha mu sigma gamma_length n_samples HF
                                         (combine x T) r) as (r' & ->).
  exists r'. rewrite length_combine, Hlen, Nat.min_id.
  destruct T as [|t T]; [contradiction|]. cbn [length].
  rewrite mean_zeros. reflexivity.
Qed.

Lemma get_loss_mean (X_batch T_batch alpha mu sigma : tensor)
      (gamma_length n_samples : nat) (callable_penalty : tensor -> scalar) (r : rng) :
  length X_batch = length T_batch ->
  get_loss callable_proj (X_batch, T_batch) alpha mu sigma gamma_length n_samples
           callable_penalty r
  = (sq <- mapM (squared_deviation callable_proj alpha mu sigma gamma_length n_samples)
             (combine X_batch T_batch) ;;
     ret (t_add (t_mul (lit (1 # 2)) (t_mean sq)) (callable_penalty sigma))) r.
Proof.
  intros Hlen. unfold get_loss. rewrite Hlen, !bind_run.
  rewrite deviation_loop by (try lia; apply torch_empty_length). reflexivity.
Qed.

(** C2.  For a batch with at least one element, [get_loss] returns one half
    of the mean over the batch of [(1 - F(callable_proj, X_batch[i],
    T_batch[i], ...))^2], plus [callable_penalty(sigma)]. *)
Theorem get_loss_spec (X_batch T_batch alpha mu sigma : tensor)
        (gamma_length n_samples : nat) (callable_penalty : tensor -> scalar) (r : rng) :
  X_batch <> [] -> length X_batch = length T_batch ->
  get_loss callable_proj (X_batch, T_batch) alpha mu sigma gamma_length n_samples
           callable_penalty r
  = (sq <- mapM (squared_deviation callable_proj alpha mu sigma gamma_length n_samples)
             (combine X_batch T_batch) ;;
     ret (t_add (t_mul (lit (1 # 2)) (t_mean sq)) (callable_penalty sigma))) r.
Proof. intros _ Hlen. now apply get_loss_mean. Qed.

(** *** When the computations do not raise *)

Lemma mapM_total {A B : Type} (f : A -> M B) (l : list A) :
  (forall a r, exists b r', f a r = Ok (b, r')) ->
  forall r, exists bs r', mapM f l r = Ok (bs, r').
Proof.
  intros Hf. induction l as [|a l IH]; intros r.
  - exists [], r. reflexivity.
  - rewrite mapM_cons. destruct (Hf a r) as (b & r1 & ->).
    destruct (IH r1) as (bs & r2 & ->). now exists (b :: bs), r2.
Qed.

Lemma F_total (xt t alpha mu sigma : tensor) (gamma_length n_samples : nat) (r : rng) :
  shapes_ok (length sigma) (length mu) gamma_length ->
  exists v r', F callable_proj xt t alpha mu sigma gamma_length n_samples r = Ok (v, r').
Proof.
  intros (w & w' & Hw & Hw'). rewrite F_mean.
  destruct (draws (draws randn1 gamma_length) n_samples r) as [noise r'].
  unfold sample_gammas. rewrite Hw. cbn [rbind]. rewrite Hw'. cbn [rbind].
  eexists _, _. reflexivity.
Qed.

Lemma get_loss_total (X_batch T_batch alpha mu sigma : tensor)
      (gamma_length n_samples : nat) (callable_penalty : tensor -> scalar) (r : rng) :
  length X_batch = length T_batch ->
  shapes_ok (length sigma) (length mu) gamma_length ->
  exists v r',
    get_loss callable_proj (X_batch, T_batch) alpha mu sigma gamma_length n_samples
             callable_penalty r = Ok (v, r').
Proof.
  intros Hlen Hs. rewrite get_loss_mean by assumption. rewrite bind_run.
  destruct (@mapM_total _ _
              (squared_deviation callable_proj alpha mu sigma gamma_length n_samples)
              (combine X_batch T_batch)) with (r := r) as (sq & r' & ->).
  - intros [xt t] r0. unfold squared_deviation. rewrite bind_run. cbn [fst snd].
    destruct (@F_total (unsqueeze0 xt) (unsqueeze0 t) alpha mu sigma gamma_length
                       n_samples r0 Hs) as (v & r1 & ->).
    eexists _, _. reflexivity.
  - eexists _, _. reflexivity.
Qed.

Lemma get_anomaly_score_total (x T alpha mu sigma : tensor)
      (gamma_length n_samples : nat) (r : rng) :
  length T <= length x ->
  shapes_ok (length sigma) (length mu) gamma_length ->
  exists m r',
    get_anomaly_score callable_proj x T alpha mu sigma gamma_length n_samples false r
    = Ok (Averaged m, r').
Proof.
  intros Hlen Hs. rewrite get_anomaly_score_mean by assumption. rewrite bind_run.
  destruct (@mapM_total _ _
              (squared_deviation callable_proj alpha mu sigma gamma_length n_samples)
              (combine x T)) with (r := r) as (sq & r' & ->).
  - intros [xt t] r0. unfold squared_deviation. rewrite bind_run. cbn [fst snd].
    destruct (@F_total (unsqueeze0 xt) (unsqueeze0 t) alpha mu sigma gamma_length
                       n_samples r0 Hs) as (v & r1 & ->).
    eexists _, _. reflexivity.
  - eexists _, _. reflexivity.
Qed.

Lemma mapM_total_in {A B : Type} (f : A -> M B) (l : list A) :
  (forall a, In a l -> forall r, exists b r', f a r = Ok (b, r')) ->
  forall r, exists bs r', mapM f l r = Ok (bs, r').
Proof.
  induction l as [|a l IH]; intros Hf r.
  - exists [], r. reflexivity.
  - rewrite mapM_cons. destruct (Hf a (or_introl eq_refl) r) as (b & r1 & ->).
    destruct (IH (fun a' Ha' => Hf a' (or_intror Ha')) r1) as (bs & r2 & ->).
    now exists (b :: bs), r2.
Qed.

(** The scores are produced whenever every series covers the time grid and
    the shapes of the parameters broadcast. *)
Lemma get_norm_and_anom_scores_total (X_norm X_anom : list tensor) (T : tensor)
      (model_params : dict tensor) (alpha mu sigma : tensor)
      (gamma_length n_samples : nat) (r : rng) :
  getitem model_params "alpha" = Ok alpha ->
  getitem model_params "mu" = Ok mu ->
  getitem model_params "sigma" = Ok sigma ->
  shapes_ok (length sigma) (length mu) gamma_length ->
  Forall (fun x => length T <= length x) (X_norm ++ X_anom) ->
  exists scores r',
    get_norm_and_anom_scores callable_proj X_norm X_anom T model_params
                             gamma_length n_samples r = Ok (scores, r').
Proof.
  intros Ha Hm Hs Hshape Hrows. apply Forall_app in Hrows as (Hn & Hanom).
  unfold get_norm_and_anom_scores.
  rewrite bind_run, Ha. cbn [lift]. rewrite bind_run, Hm. cbn [lift].
  rewrite bind_run, Hs. cbn [lift].
  assert (Hrow : forall X, Forall (fun x => length T <= length x) X ->
            forall r0, exists bs r1,
              mapM (fun xt =>
                      a <- get_anomaly_score callable_proj xt T alpha mu sigma
                             gamma_length n_samples false ;;
                      lift (as_entry a)) X r0 = Ok (bs, r1)).
  { intros X HX. apply mapM_total_in. intros x Hx r0.
    rewrite Forall_forall in HX. specialize (HX x Hx).
    destruct (@get_anomaly_score_total x T alpha mu sigma gamma_length n_samples r0
                                       HX Hshape) as (m & r1 & E).
    rewrite bind_run, E. eexists _, _. reflexivity. }
  rewrite bind_run. destruct (Hrow X_norm Hn r) as (ns & r1 & ->).
  rewrite bind_run. destruct (Hrow X_anom Hanom r1) as (as_ & r2 & ->).
  eexists _, _. reflexivity.
Qed.

End LossFacts.

(** *** The score and the loss over exact reals *)

Section IdealLoss.

Import Ideal.

Lemma perfect_proj_F (xt t : @tensor ideal) (r0 : nat) :
  F (TL := ideal) perfect_proj xt t [] [Fin 0] [Fin 1] 1 1 r0 = Ok (Fin 1, S r0).
Proof.
  rewrite F_mean. cbn -[t_mean]. unfold perfect_proj.
  change (@t_mean ideal [Fin 1]) with (emean (repeat (Fin 1) 1)).
  rewrite emean_const. reflexivity.
Qed.

Lemma perfect_proj_F_one (xt t : @tensor ideal) (r0 : @rng ideal) :
  exists r1, F (TL := ideal) perfect_proj xt t [] [Fin 0] [Fin 1] 1 1 r0
             = Ok (lit (TensorLib := ideal) 1, r1).
Proof.
  exists (S r0). rewrite perfect_proj_F. cbn [lit ideal]. rewrite Q2R_one. reflexivity.
Qed.

End IdealLoss.

(** C1 as stated fails on the empty time grid: with [F] identically one the
    score of the empty series is the undefined mean, not zero. *)
Lemma get_anomaly_score_empty_grid :
  (forall xt t r0, exists r1,
      F (TL := Ideal.ideal) perfect_proj xt t [] [Ideal.Fin 0] [Ideal.Fin 1] 1 1 r0
      = Ok (lit (TensorLib := Ideal.ideal) 1, r1))
  /\ get_anomaly_score (TL := Ideal.ideal) perfect_proj [] []
                       [] [Ideal.Fin 0] [Ideal.Fin 1] 1 1 false 0
     = Ok (Averaged (TL := Ideal.ideal) Ideal.NaN, 0)
  /\ lit (TensorLib := Ideal.ideal) 0 <> Ideal.NaN.
Proof.
  split; [exact perfect_proj_F_one|]. split.
  - cbn -[t_mean]. change (@t_mean Ideal.ideal []) with (Ideal.emean []).
    rewrite Ideal.emean_nil. reflexivity.
  - discriminate.
Qed.

Lemma get_anomaly_score_spec_witness :
  exists r',
    get_anomaly_score (TL := Ideal.ideal) perfect_proj [Ideal.Fin 0] [Ideal.Fin 1]
                      [] [Ideal.Fin 0] [Ideal.Fin 1] 1 1 false 0
    = Ok (Averaged (lit (TensorLib := Ideal.ideal) 0), r').
Proof.
  refine (proj2 (@get_anomaly_score_spec Ideal.ideal perfect_proj
                   [Ideal.Fin 0] [Ideal.Fin 1] [] [Ideal.Fin 0] [Ideal.Fin 1]
                   1 1 0 _ _) perfect_proj_F_one).
  - reflexivity.
  - discriminate.
Defined.

Lemma get_loss_spec_witness :
  get_loss (TL := Ideal.ideal) perfect_proj ([Ideal.Fin 0], [Ideal.Fin 1])
           [] [Ideal.Fin 0] [Ideal.Fin 1] 1 1
           (callable_arctan_penalty (TL := Ideal.ideal) (Ideal.Fin 5)) 0
  = (sq <- mapM (squared_deviation (TL := Ideal.ideal) perfect_proj
                   [] [Ideal.Fin 0] [Ideal.Fin 1] 1 1)
             (combine [Ideal.Fin 0] [Ideal.Fin 1]) ;;
     ret (t_add (TensorLib := Ideal.ideal)
            (t_mul (TensorLib := Ideal.ideal) (lit (TensorLib := Ideal.ideal) (1 # 2))
                   (t_mean (TensorLib := Ideal.ideal) sq))
            (callable_arctan_penalty (TL := Ideal.ideal) (Ideal.Fin 5) [Ideal.Fin 1]))) 0.
Proof.
  apply (@get_loss_spec Ideal.ideal perfect_proj
           [Ideal.Fin 0] [Ideal.Fin 1] [] [Ideal.Fin 0] [Ideal.Fin 1] 1 1
           (callable_arctan_penalty (TL := Ideal.ideal) (Ideal.Fin 5)) 0).
  - discriminate.
  - reflexivity.
Defined.

(** ** Thresholds, accuracy and truth labels *)

Lemma for_each_ext {A S : Type} (f g : S -> A -> result S) (l : list A) :
  (forall s a, f s a = g s a) -> forall s, for_each f s l = for_each g s l.
Proof.
  intros Hfg. induction l as [|a l IH]; intros s; cbn [for_each]; trivial.
  rewrite Hfg. destruct (g s a); cbn [rbind]; trivial.
Qed.

Lemma bshape_same (n : nat) : bshape n n = Ok n.
Proof. unfold bshape. now rewrite Nat.eqb_refl. Qed.

Lemma bmap2_same_length {A B C : Type} (op : A -> B -> C) (a : list A) (b : list B) :
  length a = length b ->
  bmap2 op a b = map (fun p => op (fst p) (snd p)) (combine a b).
Proof.
  destruct a as [|x [|x' a]]; destruct b as [|y [|y' b]]; simpl; intros H;
    trivial; discriminate.
Qed.

Lemma count_true_map {A : Type} (f : A -> bool) (l : list A) :
  length (filter (fun b : bool => b) (map f l)) = length (filter f l).
Proof.
  induction l as [|a l IH]; simpl; trivial. destruct (f a); simpl; now rewrite IH.
Qed.

Lemma nth_error_map_some {A B : Type} (f : A -> B) (l : list A) (i : nat) (a : A) :
  nth_error l i = Some a -> nth_error (map f l) i = Some (f a).
Proof. intros H. rewrite nth_error_map, H. reflexivity. Qed.

Section AccuracyFacts.

Context `{TL : TensorLib}.

Lemma get_preds_length (zeta : scalar) (scores : tensor) :
  length (get_preds_given_threshold zeta scores) = length scores.
Proof. apply length_map. Qed.

Lemma get_accuracy_score_count (pred : list Z) (truth : tensor) :
  length pred = length truth ->
  get_accuracy_score pred truth
  = Ok (t_div (of_int (Z.of_nat (agreeing pred truth)))
              (of_int (Z.of_nat (length truth)))).
Proof.
  intros Hlen. unfold get_accuracy_score, broadcast2, agreeing.
  rewrite Hlen, bshape_same. cbn [rbind].
  rewrite bmap2_same_length by assumption.
  rewrite count_true_map. reflexivity.
Qed.

Lemma threshold_scan_map (scores truth : tensor) (zeta_min zeta_max : scalar)
      (steps : nat) :
  length truth = length scores ->
  threshold_scan_acc_score scores truth zeta_min zeta_max steps
  = Ok (map (fun zeta => accuracy_at zeta scores truth)
            (linspace zeta_min zeta_max steps)).
Proof.
  intros Hlen. unfold threshold_scan_acc_score.
  rewrite for_each_ext
    with (g := fun accs iz =>
                 setitem accs (fst iz) (accuracy_at (snd iz) scores truth)).
  - apply (fill_loop_all (fun zeta => accuracy_at zeta scores truth)).
    now rewrite torch_empty_length, linspace_length.
  - intros accs [i zeta]. cbn [fst snd].
    rewrite get_accuracy_score_count by (rewrite get_preds_length; lia).
    reflexivity.
Qed.

(** C4.  [get_preds_given_threshold] labels entry [j] with [-1] exactly when
    [scores[j] > zeta] and with [1] otherwise; [get_accuracy_score] returns
    the number of agreeing entries divided by the length of the truth
    vector; [threshold_scan_acc_score] returns a vector of length [steps]
    whose [i]-th entry is that accuracy at the [i]-th threshold of
    [linspace(zeta_min, zeta_max, steps)], the first of which is [zeta_min]
    and the last [zeta_max]. *)
Theorem threshold_accuracy_spec (scores truth : tensor)
        (zeta zeta_min zeta_max : scalar) (steps : nat) :
  length truth = length scores ->
  (length (get_preds_given_threshold zeta scores) = length scores
   /\ forall j score,
        nth_error scores j = Some score ->
        nth_error (get_preds_given_threshold zeta scores) j
        = Some (if t_gt score zeta then (-1)%Z else 1%Z))
  /\ (forall pred,
         length pred = length truth ->
         get_accuracy_score pred truth
         = Ok (t_div (of_int (Z.of_nat (agreeing pred truth)))
                     (of_int (Z.of_nat (length truth)))))
  /\ exists accs,
       threshold_scan_acc_score scores truth zeta_min zeta_max steps = Ok accs
       /\ length accs = steps
       /\ (forall i z,
              nth_error (linspace zeta_min zeta_max steps) i = Some z ->
              nth_error accs i = Some (accuracy_at z scores truth))
       /\ (1 <= steps ->
           nth_error accs 0 = Some (accuracy_at zeta_min scores truth))
       /\ (2 <= steps ->
           nth_error accs (steps - 1) = Some (accuracy_at zeta_max scores truth)).
Proof.
  intros Hlen. split; [split|split].
  - apply get_preds_length.
  - intros j score Hj. unfold get_preds_given_threshold.
    now apply nth_error_map_some with (f := fun s => if t_gt s zeta then (-1)%Z else 1%Z).
  - intros pred Hp. now apply get_accuracy_score_count.
  - eexists. split; [now apply threshold_scan_map|].
    split; [|split; [|split]].
    + now rewrite length_map, linspace_length.
    + intros i z Hz.
      now apply nth_error_map_some with (f := fun zeta => accuracy_at zeta scores truth).
    + intros Hs. destruct steps as [|n]; [lia|].
      apply nth_error_map_some with (f := fun zeta => accuracy_at zeta scores truth).
      apply linspace_first.
    + intros Hs. destruct steps as [|[|n]]; try lia.
      replace (S (S n) - 1) with (S n) by lia.
      apply nth_error_map_some with (f := fun zeta => accuracy_at zeta scores truth).
      apply linspace_last.
Qed.

(** The number of scores is the number of series of the two sets. *)
Lemma get_norm_and_anom_scores_length
      (callable_proj : tensor -> tensor -> tensor -> tensor -> scalar)
      (X_norm X_anom : list tensor) (T : tensor) (model_params : dict tensor)
      (gamma_length n_samples : nat) (r r' : rng) (scores : tensor) :
  get_norm_and_anom_scores callable_proj X_norm X_anom T model_params
                           gamma_length n_samples r = Ok (scores, r') ->
  length scores = length X_norm + length X_anom.
Proof.
  unfold get_norm_and_anom_scores. rewrite !bind_run. unfold lift at 1.
  destruct (getitem model_params "alpha") as [alpha|]; [|discriminate].
  rewrite !bind_run. unfold lift at 1.
  destruct (getitem model_params "mu") as [mu|]; [|discriminate].
  rewrite !bind_run. unfold lift at 1.
  destruct (getitem model_params "sigma") as [sigma|]; [|discriminate].
  rewrite !bind_run.
  match goal with
  | |- context [mapM ?f X_norm r] =>
      destruct (mapM f X_norm r) as [[ns r1]|] eqn:En; [|discriminate];
      rewrite !bind_run;
      destruct (mapM f X_anom r1) as [[as_ r2]|] eqn:Ea; [|discriminate]
  end.
  unfold ret. intros [= <- _].
  apply mapM_length in En. apply mapM_length in Ea.
  rewrite length_app. congruence.
Qed.

(** C8.  [get_truth_labels] returns twice as many labels as there are normal
    series, [+1] in the first half and [-1] in the second; the anomalous set
    is not read; so when the two sets differ in size the labels and the
    scores of [get_norm_and_anom_scores] differ in length.  The scores are
    produced whenever every series covers the time grid and the shapes of
    the parameters broadcast. *)
Theorem get_truth_labels_spec (normal_series_set anomalous_series_set : list tensor) :
  let labels := get_truth_labels normal_series_set anomalous_series_set in
  let n := length normal_series_set in
  length labels = 2 * n
  /\ firstn n labels = repeat (lit 1) n
  /\ skipn n labels = repeat (lit (-1)) n
  /\ (forall other, get_truth_labels normal_series_set other = labels)
  /\ (forall callable_proj T model_params gamma_length n_samples r scores r',
         get_norm_and_anom_scores callable_proj normal_series_set anomalous_series_set
                                  T model_params gamma_length n_samples r
         = Ok (scores, r') ->
         length scores = n + length anomalous_series_set
         /\ (length anomalous_series_set <> n -> length labels <> length scores))
  /\ (forall callable_proj T model_params alpha mu sigma gamma_length n_samples r,
         getitem model_params "alpha" = Ok alpha ->
         getitem model_params "mu" = Ok mu ->
         getitem model_params "sigma" = Ok sigma ->
         shapes_ok (length sigma) (length mu) gamma_length ->
         Forall (fun x => length T <= length x)
                (normal_series_set ++ anomalous_series_set) ->
         exists scores r',
           get_norm_and_anom_scores callable_proj normal_series_set
                                    anomalous_series_set T model_params
                                    gamma_length n_samples r
           = Ok (scores, r')).
Proof.
  cbv zeta. unfold get_truth_labels.
  assert (Hneg : forall n, map t_neg (repeat (lit 1) n) = repeat (lit (-1)) n).
  { induction n as [|n IH]; simpl; [reflexivity|]. now rewrite IH, neg_one. }
  rewrite Hneg.
  set (n := length normal_series_set).
  assert (Hn : length (repeat (lit 1) n) = n) by apply repeat_length.
  split; [|split; [|split; [|split; [|split]]]].
  - rewrite length_app, !repeat_length. lia.
  - rewrite firstn_app, Hn, Nat.sub_diag, firstn_all2 by lia.
    cbn [firstn]. apply app_nil_r.
  - rewrite skipn_app, Hn, Nat.sub_diag, skipn_all2 by lia. reflexivity.
  - reflexivity.
  - intros cp T params gl ns r scores r' Hs.
    apply get_norm_and_anom_scores_length in Hs. fold n in Hs.
    split; [exact Hs|]. rewrite length_app, !repeat_length. lia.
  - intros cp T params alpha mu sigma gl ns r Ha Hm Hs Hshape Hrows.
    now apply get_norm_and_anom_scores_total
      with (alpha := alpha) (mu := mu) (sigma := sigma).
Qed.

End AccuracyFacts.

(** ** The testing workflow *)

Lemma map_snd_combine {A B : Type} (a : list A) :
  forall b : list B, map snd (combine a b) = firstn (length a) b.
Proof.
  induction a as [|x a IH]; intros [|y b]; simpl; trivial. now rewrite IH.
Qed.

Section TestingFacts.

Context `{TL : TensorLib}.

Variable callable_proj : tensor -> tensor -> tensor -> tensor -> scalar.

(** A loop that appends one computed value per item to a list. *)
Lemma accumulate_loop {A B : Type} (body : list B -> A -> M (list B)) (h : A -> M B) :
  (forall acc a r, body acc a r = bind (h a) (fun b => ret (acc ++ [b])) r) ->
  forall l acc r,
    for_eachM body acc l r = bind (mapM h l) (fun bs => ret (acc ++ bs)) r.
Proof.
  intros Hbody. induction l as [|a l IH]; intros acc r.
  - cbn [for_eachM mapM]. unfold bind, ret. now rewrite app_nil_r.
  - cbn [for_eachM]. rewrite bind_run, Hbody, !bind_run, mapM_cons.
    destruct (h a r) as [[b r1]|e]; trivial.
    unfold ret at 1. rewrite IH, bind_run.
    destruct (mapM h l r1) as [[bs r2]|e]; trivial.
    unfold ret. now rewrite <- app_assoc.
Qed.

Lemma testing_workflow_unfold (opt_params : dict tensor) (gamma_length n_samples : nat)
      (zeta0 : scalar) (zetas : list scalar) (p num_series : nat)
      (noise_amp spike_amp : scalar) (max_duration : nat) (t_init t_end : scalar)
      (W : nat -> nat -> nat) (n_qubits : nat) (random_model_seeds : list Z)
      (W_layers : nat) (r : rng) :
  testing_workflow callable_proj opt_params gamma_length n_samples (zeta0 :: zetas)
                   p num_series noise_amp spike_amp max_duration t_init t_end
                   W n_qubits random_model_seeds W_layers r
  = testing_at_first_threshold callable_proj opt_params gamma_length n_samples zeta0 (length zetas)
                               p num_series noise_amp spike_amp max_duration
                               t_init t_end W n_qubits random_model_seeds W_layers r.
Proof.
  unfold testing_workflow, testing_at_first_threshold. rewrite !bind_run.
  destruct (generate_normal_time_series_set p num_series noise_amp t_init t_end
                                            GLOBAL_SEED r) as [[XT r1]|e]; trivial.
  rewrite !bind_run.
  destruct (generate_anomalous_time_series_set p num_series noise_amp spike_amp
              max_duration t_init t_end GLOBAL_SEED r1) as [[YT r2]|e]; trivial.
  cbv zeta. unfold model_accuracy at 1. rewrite !bind_run.
  destruct (get_norm_and_anom_scores callable_proj (fst XT) (fst YT) (snd YT)
              opt_params gamma_length n_samples r2) as [[scores r3]|e]; trivial.
  cbn [index nth_error lift]. rewrite !bind_run. cbn [lift].
  destruct (get_accuracy_score (get_preds_given_threshold zeta0 scores)
              (get_truth_labels (fst XT) (fst YT))) as [acc|e]; trivial.
  cbn [skipn]. rewrite !bind_run. cbn [lift].
  rewrite accumulate_loop
    with (h := fun zs : scalar * Z =>
                 rand_params <- get_initial_parameters W W_layers n_qubits (snd zs) ;;
                 model_accuracy callable_proj (fst XT) (fst YT) (snd YT)
                                (get_truth_labels (fst XT) (fst YT))
                                gamma_length n_samples rand_params zeta0).
  - rewrite !bind_run, <- map_snd_combine, mapM_map. reflexivity.
  - intros accs zs r0. unfold model_accuracy. rewrite !bind_run.
    destruct (get_initial_parameters W W_layers n_qubits (snd zs) r0)
      as [[rand_params r4]|e]; trivial.
    rewrite !bind_run.
    destruct (get_norm_and_anom_scores callable_proj (fst XT) (fst YT) (snd YT)
                rand_params gamma_length n_samples r4) as [[scores' r5]|e]; trivial.
Qed.

(** C9.  In [testing_workflow] the predictions of the trained model and of
    every random model are taken at [best_zetas[0]]: the workflow is the one
    that evaluates every accuracy at that threshold, and replacing the
    further thresholds by any others leaves the result unchanged. *)
Theorem testing_workflow_first_threshold (opt_params : dict tensor)
        (gamma_length n_samples : nat) (zeta0 : scalar) (zetas : list scalar)
        (p num_series : nat) (noise_amp spike_amp : scalar) (max_duration : nat)
        (t_init t_end : scalar) (W : nat -> nat -> nat) (n_qubits : nat)
        (random_model_seeds : list Z) (W_layers : nat) (r : rng) :
  testing_workflow callable_proj opt_params gamma_length n_samples (zeta0 :: zetas)
                   p num_series noise_amp spike_amp max_duration t_init t_end
                   W n_qubits random_model_seeds W_layers r
  = testing_at_first_threshold callable_proj opt_params gamma_length n_samples zeta0 (length zetas)
                               p num_series noise_amp spike_amp max_duration
                               t_init t_end W n_qubits random_model_seeds W_layers r
  /\ forall zetas',
       length zetas' = length zetas ->
       testing_workflow callable_proj opt_params gamma_length n_samples
                        (zeta0 :: zetas') p num_series noise_amp spike_amp
                        max_duration t_init t_end W n_qubits random_model_seeds
                        W_layers r
       = testing_workflow callable_proj opt_params gamma_length n_samples
                          (zeta0 :: zetas) p num_series noise_amp spike_amp
                          max_duration t_init t_end W n_qubits random_model_seeds
                          W_layers r.
Proof.
  split.
  - apply testing_workflow_unfold.
  - intros zetas' Hlen. rewrite !testing_workflow_unfold, Hlen. reflexivity.
Qed.

End TestingFacts.

(** ** The batch cycler *)

Lemma chunks_fuel_concat {A : Type} (b : nat) :
  1 <= b ->
  forall fuel (l : list A), length l <= fuel -> concat (chunks_fuel fuel b l) = l.
Proof.
  intros Hb. induction fuel as [|fuel IH]; intros l Hl.
  - destruct l; [reflexivity|simpl in Hl; lia].
  - destruct l as [|a l]; [reflexivity|].
    cbn [chunks_fuel concat]. rewrite IH.
    + apply firstn_skipn.
    + rewrite length_skipn. cbn [length] in *. lia.
Qed.

Lemma chunks_concat {A : Type} (b : nat) (l : list A) :
  1 <= b -> concat (chunks b l) = l.
Proof. intros Hb. apply chunks_fuel_concat; trivial. Qed.

Lemma chunks_nonempty {A : Type} (b : nat) (l : list A) :
  l <> [] -> chunks b l <> [].
Proof. destruct l as [|a l]; [contradiction|]. discriminate. Qed.

Lemma chunks_fuel_sizes {A : Type} (b : nat) :
  1 <= b ->
  forall fuel (l : list A),
    Forall (fun c => 1 <= length c <= b) (chunks_fuel fuel b l).
Proof.
  intros Hb. induction fuel as [|fuel IH]; intros l; [constructor|].
  destruct l as [|a l]; [constructor|].
  cbn [chunks_fuel]. constructor; [|apply IH].
  rewrite length_firstn. cbn [length]. lia.
Qed.

Lemma pop_last {A : Type} (l : list A) (a : A) : pop (l ++ [a]) = Ok (a, l).
Proof. unfold pop. rewrite rev_app_distr. simpl. now rewrite rev_involutive. Qed.

Lemma pop_nil {A : Type} : pop (@nil A) = Raise IndexError.
Proof. reflexivity. Qed.

Lemma pop_nonempty {A : Type} (l : list A) :
  l <> [] -> exists a l', l = l' ++ [a] /\ pop l = Ok (a, l').
Proof.
  intros Hl. destruct (exists_last Hl) as (l' & a & ->).
  exists a, l'. split; [reflexivity|apply pop_last].
Qed.

Lemma gather_in_range {A : Type} (l : list A) (d : A) (positions : list nat) :
  Forall (fun i => i < length l) positions ->
  gather l positions = Ok (map (fun i => nth i l d) positions).
Proof.
  induction 1 as [|i positions Hi _ IH]; [reflexivity|].
  cbn [gather map]. unfold index.
  rewrite (nth_error_nth' l d Hi). cbn [rbind]. rewrite IH. reflexivity.
Qed.

Lemma map_nth_seq {A : Type} (d : A) (l : list A) :
  map (fun i => nth i l d) (seq 0 (length l)) = l.
Proof.
  induction l as [|a l IH]; [reflexivity|].
  cbn [length seq map nth]. rewrite <- seq_shift, map_map. cbn [nth]. now rewrite IH.
Qed.

Section CyclerFacts.

Context `{TL : TensorLib}.

Variables A B : Type.
Variable collate : list A -> B.

(** A shuffled pass over a non-empty data set yields every item once. *)
Lemma gather_randperm (X : list A) (r : rng) :
  exists items,
    gather X (fst (randperm (length X) r)) = Ok items /\ Permutation items X.
Proof.
  pose proof (randperm_perm (length X) r) as Hp.
  destruct X as [|d X].
  - apply Permutation_sym, Permutation_nil in Hp. cbn [length] in *. rewrite Hp.
    exists []. split; [reflexivity|constructor].
  - exists (map (fun i => nth i (d :: X) d) (fst (randperm (length (d :: X)) r))). split.
    + apply gather_in_range. apply Forall_forall. intros i Hi.
      apply (Permutation_in _ Hp) in Hi. apply in_seq in Hi. lia.
    + apply Permutation_trans
        with (map (fun i => nth i (d :: X) d) (seq 0 (length (d :: X)))).
      * now apply Permutation_map.
      * rewrite map_nth_seq. apply Permutation_refl.
Qed.

Lemma loader_pass_ok (X : list A) (batch_size : nat) (r : rng) :
  X <> [] -> 1 <= batch_size ->
  exists items,
    Permutation items X
    /\ loader_pass collate X batch_size r
       = Ok (map collate (chunks batch_size items), snd (randperm (length X) r)).
Proof.
  intros HX Hb. destruct (gather_randperm X r) as (items & Hg & Hp).
  exists items. split; [exact Hp|].
  unfold loader_pass. replace (batch_size =? 0) with false
    by (symmetry; apply Nat.eqb_neq; lia).
  replace (length X =? 0) with false
    by (symmetry; apply Nat.eqb_neq; destruct X; [contradiction|discriminate]).
  cbn [orb].
  rewrite bind_run. unfold draw.
  destruct (randperm (length X) r) as [order r1]. cbn [fst snd] in *.
  rewrite bind_run. unfold lift. rewrite Hg. reflexivity.
Qed.

(** With batches left, [__next__] pops the last one and draws nothing. *)
Lemma next_pops (X : list A) (batch_size : nat) (data : list B) (b : B) (r : rng) :
  __next__ collate (mkDataGetter X batch_size (data ++ [b])) r
  = Ok ((b, mkDataGetter X batch_size data), r).
Proof. unfold __next__. cbn [dg_data]. rewrite pop_last. reflexivity. Qed.

(** With no batch left, [__next__] catches the [IndexError], takes a fresh
    pass over the data and pops its last batch. *)
Lemma next_refills (X : list A) (batch_size : nat) (r : rng) :
  X <> [] -> 1 <= batch_size ->
  exists items b rest,
    Permutation items X
    /\ map collate (chunks batch_size items) = rest ++ [b]
    /\ __next__ collate (mkDataGetter X batch_size []) r
       = Ok ((b, mkDataGetter X batch_size rest), snd (randperm (length X) r)).
Proof.
  intros HX Hb. destruct (loader_pass_ok r HX Hb) as (items & Hp & Hpass).
  assert (Hne : map collate (chunks batch_size items) <> []).
  { intros E. apply map_eq_nil in E. revert E. apply chunks_nonempty.
    intros ->. apply Permutation_nil in Hp. contradiction. }
  destruct (pop_nonempty Hne) as (b & rest & Hsplit & Hpop).
  exists items, b, rest. split; [exact Hp|]. split; [exact Hsplit|].
  unfold __next__. cbn [dg_data dg_X dg_batch_size]. rewrite pop_nil.
  rewrite bind_run, Hpass. unfold _init_data. cbn [dg_data dg_X dg_batch_size app].
  rewrite bind_run. unfold lift. rewrite Hpop. reflexivity.
Qed.

Lemma next_total (X : list A) (batch_size : nat) (data : list B) (r : rng) :
  X <> [] -> 1 <= batch_size ->
  exists b data' r',
    __next__ collate (mkDataGetter X batch_size data) r
    = Ok ((b, mkDataGetter X batch_size data'), r').
Proof.
  intros HX Hb. destruct data as [|b0 data0].
  - destruct (next_refills r HX Hb) as (items & b & rest & _ & _ & Hn).
    exists b, rest, (snd (randperm (length X) r)). exact Hn.
  - destruct (@exists_last _ (b0 :: data0)) as (data' & b & ->); [discriminate|].
    exists b, data', r. apply next_pops.
Qed.

Lemma next_n_total (X : list A) (batch_size : nat) :
  X <> [] -> 1 <= batch_size ->
  forall n data r,
  exists batches data' r',
    next_n collate n (mkDataGetter X batch_size data) r
    = Ok ((batches, mkDataGetter X batch_size data'), r')
    /\ length batches = n.
Proof.
  intros HX Hb. induction n as [|n IH]; intros data r.
  - exists [], data, r. split; reflexivity.
  - destruct (next_total data r HX Hb) as (b & data1 & r1 & Hn).
    destruct (IH data1 r1) as (batches & data2 & r2 & Hrest & Hlen).
    exists (b :: batches), data2, r2. split.
    + cbn [next_n]. rewrite bind_run, Hn. cbn [snd fst].
      rewrite bind_run, Hrest. reflexivity.
    + simpl. now f_equal.
Qed.

(** C10.  For a non-empty data set and a batch size of at least one,
    [__next__] always returns a batch: with batches left it pops the last
    one; with none left the [IndexError] is caught, the list is refilled with
    the batches of a fresh shuffled pass over all of [X], and one of them
    is popped.  So the cycler of [get_training_cycler] is built without
    error and any number of [next] calls succeeds. *)
Theorem DataGetter_next_never_raises (X : list A) (batch_size : nat) :
  X <> [] -> 1 <= batch_size ->
  (forall data b r,
      __next__ collate (mkDataGetter X batch_size (data ++ [b])) r
      = Ok ((b, mkDataGetter X batch_size data), r))
  /\ (forall r, exists items b rest r',
         Permutation items X
         /\ map collate (chunks batch_size items) = rest ++ [b]
         /\ concat (chunks batch_size items) = items
         /\ __next__ collate (mkDataGetter X batch_size []) r
            = Ok ((b, mkDataGetter X batch_size rest), r'))
  /\ (forall seed r, exists data r0,
         get_training_cycler collate X batch_size seed r
         = Ok (mkDataGetter X batch_size data, r0)
         /\ forall n, exists batches data' r',
              next_n collate n (mkDataGetter X batch_size data) r0
              = Ok ((batches, mkDataGetter X batch_size data'), r')
              /\ length batches = n).
Proof.
  intros HX Hb. split; [|split].
  - intros data b r. apply next_pops.
  - intros r. destruct (next_refills r HX Hb) as (items & b & rest & Hp & Hs & Hn).
    exists items, b, rest, (snd (randperm (length X) r)).
    repeat split; trivial. now apply chunks_concat.
  - intros seed r.
    destruct (loader_pass_ok (manual_seed seed) HX Hb) as (items & _ & Hpass).
    exists (map collate (chunks batch_size items)),
           (snd (randperm (length X) (manual_seed seed))).
    split.
    + unfold get_training_cycler, __init__. rewrite bind_run.
      unfold seed_generator. cbn [dg_X dg_batch_size].
      rewrite bind_run, Hpass. reflexivity.
    + intros n. now apply next_n_total.
Qed.

End CyclerFacts.

(** ** The training loop *)

Lemma key_index_bound {V : Type} (d : dict V) (key : string) :
  forall i, key_index d key = Ok i -> i < length d.
Proof.
  induction d as [|[k v] d IH]; intros i; cbn [key_index]; [discriminate|].
  destruct (String.eqb k key).
  - intros [= <-]. simpl. lia.
  - destruct (key_index d key) as [j|]; [|discriminate].
    cbn [rbind]. intros [= <-]. specialize (IH j eq_refl). simpl. lia.
Qed.

Lemma key_index_inj {V : Type} (d : dict V) (k1 k2 : string) :
  forall i, key_index d k1 = Ok i -> key_index d k2 = Ok i -> k1 = k2.
Proof.
  induction d as [|[k v] d IH]; intros i; cbn [key_index]; [discriminate|].
  destruct (String.eqb k k1) eqn:E1, (String.eqb k k2) eqn:E2.
  - intros _ _. apply String.eqb_eq in E1, E2. congruence.
  - intros [= <-]. destruct (key_index d k2); [|discriminate]. discriminate.
  - destruct (key_index d k1); [|discriminate]. intros [= <-]. discriminate.
  - destruct (key_index d k1) as [j1|]; [|discriminate].
    destruct (key_index d k2) as [j2|]; [|discriminate].
    cbn [rbind]. intros [= <-] [= ->]. now apply (IH j1).
Qed.

Section TrainingFacts.

Context `{TL : TensorLib}.

Variable callable_proj : tensor -> tensor -> tensor -> tensor -> scalar.
Variable optimizer : Type.
Variable pytorch_optimizer : list tensor -> scalar -> optimizer.
Variable opt_update : optimizer -> list tensor -> list tensor -> optimizer * list tensor.
Variable backward : (list tensor -> result scalar) -> list tensor -> list tensor.

Variables alpha_at mu_at sigma_at : nat.
Variables gamma_length n_samples : nat.
Variable callable_penalty : tensor -> scalar.

Local Abbreviation step := (opt_step callable_proj opt_update backward alpha_at mu_at sigma_at
                           gamma_length n_samples callable_penalty).
Local Abbreviation steps_of := (steps callable_proj opt_update backward alpha_at mu_at sigma_at
                            gamma_length n_samples callable_penalty).
Local Abbreviation state := (train_state optimizer).

(** One optimizer step draws the next batch from the cycler, computes the
    loss of that batch at the current parameters, and updates the
    parameters from the gradients of that loss. *)
Lemma opt_step_inv (st st' : state) (r r' : rng) (loss : scalar) :
  step st r = Ok ((loss, st'), r') <->
  exists batch r1,
    __next__ collate_pairs (ts_cycler st) r = Ok ((batch, ts_cycler st'), r1)
    /\ loss_at callable_proj alpha_at mu_at sigma_at gamma_length n_samples
               callable_penalty batch (ts_params st) r1 = Ok (loss, r')
    /\ (ts_opt st', ts_params st')
       = opt_update (ts_opt st) (ts_params st)
           (backward
              (fun params =>
                 value_of (loss_at callable_proj alpha_at mu_at sigma_at gamma_length
                                   n_samples callable_penalty batch params r1))
              (ts_params st)).
Proof.
  unfold opt_step, closure. rewrite !bind_run.
  destruct (__next__ collate_pairs (ts_cycler st) r) as [[[batch cyc] r1]|e].
  - cbn [fst snd].
    destruct (loss_at callable_proj alpha_at mu_at sigma_at gamma_length n_samples
                      callable_penalty batch (ts_params st) r1) as [[l r2]|e] eqn:El.
    + destruct (opt_update (ts_opt st) (ts_params st) _) as [opt' params'] eqn:Eu.
      unfold ret. split.
      * intros [= <- <- <-]. exists batch, r1. cbn [ts_cycler ts_opt ts_params].
        split; [reflexivity|]. split; [exact El|]. now rewrite Eu.
      * intros (batch' & r1' & H1 & H2 & H3).
        injection H1 as <- Hc <-. rewrite El in H2. injection H2 as <- <-.
        rewrite Eu in H3. injection H3 as Ho Hp.
        destruct st' as [p o c]. cbn in *. subst. reflexivity.
    + split; [discriminate|]. intros (batch' & r1' & [= <- _ <-] & Hl & _).
      rewrite El in Hl. discriminate.
  - split; [discriminate|]. intros (batch' & r1' & Hn & _). discriminate.
Qed.

Lemma steps_length (n : nat) (st st' : state) (r r' : rng) (losses : list scalar) :
  steps_of n st r losses st' r' -> length losses = n.
Proof. induction 1; simpl; congruence. Qed.

(** The loop of [train_model_gradients] performs [n] steps and appends
    their losses, in order, to the history. *)
Lemma train_loop_steps (n : nat) :
  forall (k : nat) (st : state) (hist : list scalar) (r : rng)
         (final : state * list scalar) (r' : rng),
    for_eachM
      (fun (acc : state * list scalar) (i : nat) =>
         ls <- step (fst acc) ;;
         ret (snd ls, snd acc ++ [fst ls]))
      (st, hist) (seq k n) r = Ok (final, r')
    <-> exists losses,
          steps_of n st r losses (fst final) r' /\ snd final = hist ++ losses.
Proof.
  induction n as [|n IH]; intros k st hist r final r'.
  - cbn [seq for_eachM]. unfold ret. split.
    + intros [= <- <-]. exists []. split; [constructor|]. cbn. now rewrite app_nil_r.
    + intros (losses & Hs & Hf). inversion Hs; subst.
      destruct final as [st1 h1]. cbn in *. subst. now rewrite app_nil_r.
  - cbn [seq for_eachM]. rewrite !bind_run. cbn [fst snd].
    destruct (step st r) as [[[loss st1] r1]|e] eqn:Es.
    + cbn [fst snd]. unfold ret at 1. rewrite IH. split.
      * intros (losses & Hs & Hf). exists (loss :: losses). split.
        -- econstructor; eassumption.
        -- rewrite Hf, <- app_assoc. reflexivity.
      * intros (losses & Hs & Hf). inversion Hs; subst.
        match goal with
        | H : opt_step _ _ _ _ _ _ _ _ _ st r = _ |- _ => rewrite Es in H; injection H as <- <- <-
        end.
        eexists. split; [eassumption|]. rewrite Hf, <- app_assoc. reflexivity.
    + split; [discriminate|]. intros (losses & Hs & _). inversion Hs; subst.
      match goal with
      | H : opt_step _ _ _ _ _ _ _ _ _ st r = _ |- _ => rewrite Es in H; discriminate
      end.
Qed.

End TrainingFacts.

(** *** Training does not raise on well-shaped inputs *)

Lemma index_in_range {A : Type} (l : list A) (i : nat) :
  i < length l -> exists a, index l i = Ok a.
Proof.
  intros Hi. unfold index. destruct (nth_error l i) as [a|] eqn:E.
  - now exists a.
  - apply nth_error_None in E. lia.
Qed.

Lemma index_same_shape {A : Type} (l l' : list (list A)) (i : nat) (a : list A) :
  map (@length A) l' = map (@length A) l ->
  index l i = Ok a ->
  exists a', index l' i = Ok a' /\ length a' = length a.
Proof.
  unfold index. intros Hm Ha.
  destruct (nth_error l i) as [x|] eqn:E; [|discriminate]. injection Ha as ->.
  pose proof (nth_error_map_some (@length A) _ _ E) as E'.
  rewrite <- Hm, nth_error_map in E'.
  destruct (nth_error l' i) as [a'|]; [|discriminate].
  cbn in E'. injection E' as E'. now exists a'.
Qed.

Section TrainingTotal.

Context `{TL : TensorLib}.

Variable callable_proj : tensor -> tensor -> tensor -> tensor -> scalar.
Variable optimizer : Type.
Variable opt_update : optimizer -> list tensor -> list tensor -> optimizer * list tensor.
Variable backward : (list tensor -> result scalar) -> list tensor -> list tensor.

(** An optimizer updates the parameter tensors in place: their number and
    shapes do not change. *)
Hypothesis opt_update_in_place :
  forall o ps gs, map (@length scalar) (snd (opt_update o ps gs)) = map (@length scalar) ps.

Variable X : list (scalar * scalar).
Variable batch_size : nat.
Hypothesis X_nonempty : X <> [].
Hypothesis batch_size_positive : 1 <= batch_size.

Variables alpha_at mu_at sigma_at : nat.
Variables gamma_length n_samples : nat.
Variable callable_penalty : tensor -> scalar.
Variables mu_len sigma_len : nat.
Hypothesis shapes_broadcast : shapes_ok sigma_len mu_len gamma_length.

Local Abbreviation step := (opt_step callable_proj opt_update backward alpha_at mu_at
                                     sigma_at gamma_length n_samples callable_penalty).
Local Abbreviation steps_of := (steps callable_proj opt_update backward alpha_at mu_at
                                      sigma_at gamma_length n_samples callable_penalty).

Lemma collate_pairs_well_formed (items : list (scalar * scalar)) :
  well_formed (collate_pairs items).
Proof.
  unfold well_formed, collate_pairs.
  transitivity (length items); [apply length_fst_split|symmetry; apply length_snd_split].
Qed.

Lemma next_well_formed (c : cycler_t) (r : rng) :
  cycler_ok X batch_size c ->
  exists b c' r',
    __next__ collate_pairs c r = Ok ((b, c'), r') /\ well_formed b /\ cycler_ok X batch_size c'.
Proof.
  destruct c as [X0 bs0 data]. unfold cycler_ok. cbn [dg_X dg_batch_size dg_data].
  intros (-> & -> & Hwf).
  destruct data as [|b0 data0].
  - destruct (@next_refills _ _ _ collate_pairs X batch_size r X_nonempty
                           batch_size_positive)
      as (items & b & rest & _ & Hs & Hn).
    assert (Hall : Forall well_formed (rest ++ [b])).
    { rewrite <- Hs. apply Forall_forall. intros x Hx.
      apply in_map_iff in Hx as (c & <- & _). apply collate_pairs_well_formed. }
    apply Forall_app in Hall as (Hrest & Hb). inversion Hb; subst.
    eexists _, _, _. split; [exact Hn|]. cbn. auto.
  - destruct (@exists_last _ (b0 :: data0)) as (data' & b & E); [discriminate|].
    rewrite E in *. apply Forall_app in Hwf as (Hrest & Hb). inversion Hb; subst.
    eexists _, _, _. split; [apply next_pops|]. cbn. auto.
Qed.

Lemma params_ok_same_shape (ps ps' : list tensor) :
  map (@length scalar) ps' = map (@length scalar) ps -> params_ok alpha_at mu_at sigma_at mu_len sigma_len ps -> params_ok alpha_at mu_at sigma_at mu_len sigma_len ps'.
Proof.
  intros Hm (H3 & Ha & (mu & Hmu & Lmu) & (sigma & Hsg & Lsg)).
  assert (Hl : length ps' = length ps).
  { apply (f_equal (@length nat)) in Hm. now rewrite !length_map in Hm. }
  unfold params_ok. rewrite Hl. repeat split; trivial.
  - destruct (@index_same_shape _ ps ps' mu_at mu Hm Hmu) as (mu' & ? & ?).
    exists mu'. split; [assumption|congruence].
  - destruct (@index_same_shape _ ps ps' sigma_at sigma Hm Hsg) as (sigma' & ? & ?).
    exists sigma'. split; [assumption|congruence].
Qed.

Lemma step_total (st : train_state optimizer) (r : rng) :
  train_inv X batch_size alpha_at mu_at sigma_at mu_len sigma_len st ->
  exists loss st' r', step st r = Ok ((loss, st'), r') /\ train_inv X batch_size alpha_at mu_at sigma_at mu_len sigma_len st'.
Proof.
  intros (Hc & Hp).
  destruct (@next_well_formed (ts_cycler st) r Hc) as (b & c' & r1 & Hn & Hb & Hc').
  destruct Hp as (H3 & Ha & (mu & Hmu & Lmu) & (sigma & Hsg & Lsg)).
  destruct (@index_in_range _ (ts_params st) alpha_at Ha) as (alpha & Hal).
  destruct b as [Xb Tb]. unfold well_formed in Hb. cbn [fst snd] in Hb.
  assert (Hs : shapes_ok (length sigma) (length mu) gamma_length) by now rewrite Lmu, Lsg.
  destruct (@get_loss_total _ callable_proj Xb Tb alpha mu sigma gamma_length n_samples
                            callable_penalty r1 Hb Hs) as (loss & r2 & Hl).
  assert (Hla : loss_at callable_proj alpha_at mu_at sigma_at gamma_length n_samples
                        callable_penalty (Xb, Tb) (ts_params st) r1 = Ok (loss, r2)).
  { unfold loss_at. rewrite bind_run, Hal. cbn [lift]. rewrite bind_run, Hmu. cbn [lift].
    rewrite bind_run, Hsg. cbn [lift]. exact Hl. }
  destruct (opt_update (ts_opt st) (ts_params st)
              (backward
                 (fun params =>
                    value_of (loss_at callable_proj alpha_at mu_at sigma_at gamma_length
                                      n_samples callable_penalty (Xb, Tb) params r1))
                 (ts_params st))) as [opt' ps'] eqn:Eu.
  exists loss, (mkTrainState ps' opt' c'), r2. split.
  - apply opt_step_inv. exists (Xb, Tb), r1. cbn [ts_cycler ts_opt ts_params].
    split; [exact Hn|]. split; [exact Hla|]. now rewrite Eu.
  - split; [exact Hc'|]. cbn [ts_params].
    apply params_ok_same_shape with (ps := ts_params st).
    + pose proof (opt_update_in_place (ts_opt st) (ts_params st)
                    (backward
                       (fun params =>
                          value_of (loss_at callable_proj alpha_at mu_at sigma_at
                                            gamma_length n_samples callable_penalty
                                            (Xb, Tb) params r1))
                       (ts_params st))) as Hi.
      now rewrite Eu in Hi.
    + repeat split; eauto.
Qed.

Lemma steps_total (n : nat) :
  forall (st : train_state optimizer) (r : rng),
    train_inv X batch_size alpha_at mu_at sigma_at mu_len sigma_len st ->
    exists losses st' r', steps_of n st r losses st' r' /\ train_inv X batch_size alpha_at mu_at sigma_at mu_len sigma_len st'.
Proof.
  induction n as [|n IH]; intros st r Hinv.
  - exists [], st, r. split; [constructor|exact Hinv].
  - destruct (@step_total st r Hinv) as (loss & st1 & r1 & Hs & Hinv1).
    destruct (IH st1 r1 Hinv1) as (losses & st2 & r2 & Hss & Hinv2).
    exists (loss :: losses), st2, r2. split; [|exact Hinv2].
    econstructor; eassumption.
Qed.

End TrainingTotal.

Lemma getitem_key_index {V : Type} (d : dict V) (key : string) (v : V) :
  getitem d key = Ok v ->
  exists i, key_index d key = Ok i /\ index (map snd d) i = Ok v.
Proof.
  induction d as [|[k x] d IH]; cbn [getitem key_index]; [discriminate|].
  destruct (String.eqb k key).
  - intros [= <-]. exists 0. split; reflexivity.
  - intros Hv. destruct (IH Hv) as (i & Hi & Hx). exists (S i).
    rewrite Hi. split; [reflexivity|exact Hx].
Qed.

Section TrainingSpec.

Context `{TL : TensorLib}.

Variable callable_proj : tensor -> tensor -> tensor -> tensor -> scalar.
Variable optimizer : Type.
Variable pytorch_optimizer : list tensor -> scalar -> optimizer.
Variable opt_update : optimizer -> list tensor -> list tensor -> optimizer * list tensor.
Variable backward : (list tensor -> result scalar) -> list tensor -> list tensor.

Local Abbreviation train :=
  (train_model_gradients callable_proj pytorch_optimizer opt_update backward).
Local Abbreviation steps_of :=
  (steps callable_proj opt_update backward).

Lemma train_model_gradients_inv (lr : scalar) (init_params : dict tensor)
      (cycler : cycler_t) (n_samples : nat) (callable_penalty : tensor -> scalar)
      (batch_iterations gamma_length : nat) (seed : Z) (print_intermediate : bool)
      (r : rng) (res : results_dict) (cycler' : cycler_t) (r' : rng) :
  train lr init_params cycler n_samples callable_penalty batch_iterations
        gamma_length seed print_intermediate r = Ok ((res, cycler'), r')
  <-> trained callable_proj pytorch_optimizer opt_update backward init_params lr cycler n_samples callable_penalty batch_iterations
              gamma_length seed res cycler' r'.
Proof.
  unfold train_model_gradients, trained. cbv zeta.
  rewrite bind_run. unfold seed_generator. rewrite bind_run.
  assert (Hne : forall i key, key_index init_params key = Ok i ->
                              lift (match map snd init_params with
                                    | [] => Raise ValueError
                                    | _ :: _ => Ok tt
                                    end) (manual_seed seed)
                              = Ok (tt, manual_seed seed)).
  { intros i key Hk. destruct init_params as [|[k v] d]; [discriminate|reflexivity]. }
  destruct (key_index init_params "alpha") as [ia|e] eqn:Ea.
  2:{ split.
      - destruct (lift _ (manual_seed seed)) as [[[] r0]|]; [|discriminate].
        rewrite bind_run. discriminate.
      - intros (ia & im & isg & st & p0 & p1 & p2 & H & _). discriminate. }
  rewrite (Hne _ _ Ea). rewrite !bind_run. cbn [lift]. rewrite !bind_run.
  destruct (key_index init_params "mu") as [im|e] eqn:Em.
  2:{ split; [discriminate|].
      intros (ia' & im & isg & st & p0 & p1 & p2 & _ & H & _). discriminate. }
  cbn [lift]. rewrite !bind_run.
  destruct (key_index init_params "sigma") as [isg|e] eqn:Es.
  2:{ split; [discriminate|].
      intros (ia' & im' & isg & st & p0 & p1 & p2 & _ & _ & H & _). discriminate. }
  cbn [lift]. rewrite !bind_run. unfold range.
  match goal with
  | |- context [for_eachM ?body ?init (seq 0 batch_iterations) (manual_seed seed)] =>
      destruct (for_eachM body init (seq 0 batch_iterations) (manual_seed seed))
        as [[final r1]|e] eqn:Eloop
  end.
  - pose proof (proj1 (train_loop_steps _ _ _ _ _ _ _ _ _ _ _ _ _ _ _ _) Eloop)
      as (losses & Hsteps & Hhist).
    cbn [app snd] in Hhist. split.
    + rewrite !bind_run. unfold lift.
      destruct (index (ts_params (fst final)) 0) as [p0|] eqn:E0; [|discriminate].
      rewrite !bind_run.
      destruct (index (ts_params (fst final)) 1) as [p1|] eqn:E1; [|discriminate].
      rewrite !bind_run.
      destruct (index (ts_params (fst final)) 2) as [p2|] eqn:E2; [|discriminate].
      unfold ret. intros [= <- <- <-].
      exists ia, im, isg, (fst final), p0, p1, p2. cbn [loss_history opt_params].
      rewrite Hhist. repeat split; trivial.
    + intros (ia' & im' & isg' & st & p0 & p1 & p2 & [= <-] & [= <-] & [= <-]
              & Hst & E0 & E1 & E2 & Hopt & ->).
      assert (Hfinal : for_eachM
                (fun (acc : train_state optimizer * list scalar) (_ : nat) =>
                   ls <- opt_step callable_proj opt_update backward ia im isg
                           gamma_length n_samples callable_penalty (fst acc) ;;
                   ret (snd ls, snd acc ++ [fst ls]))
                (mkTrainState (map snd init_params)
                              (pytorch_optimizer (map snd init_params) lr) cycler, [])
                (seq 0 batch_iterations) (manual_seed seed)
              = Ok ((st, loss_history res), r')).
      { apply train_loop_steps. exists (loss_history res). split; [exact Hst|reflexivity]. }
      rewrite Eloop in Hfinal. injection Hfinal as -> ->. cbn [fst snd].
      rewrite !bind_run. unfold lift. rewrite E0. rewrite !bind_run. rewrite E1.
      rewrite !bind_run. rewrite E2. unfold ret.
      destruct res as [op lh]. cbn in *. subst. reflexivity.
  - split; [discriminate|].
    intros (ia' & im' & isg' & st & p0 & p1 & p2 & [= <-] & [= <-] & [= <-]
            & Hst & _).
    assert (Hfinal : for_eachM
              (fun (acc : train_state optimizer * list scalar) (_ : nat) =>
                 ls <- opt_step callable_proj opt_update backward ia im isg
                         gamma_length n_samples callable_penalty (fst acc) ;;
                 ret (snd ls, snd acc ++ [fst ls]))
              (mkTrainState (map snd init_params)
                            (pytorch_optimizer (map snd init_params) lr) cycler, [])
              (seq 0 batch_iterations) (manual_seed seed)
            = Ok ((st, loss_history res), r')).
    { apply train_loop_steps. exists (loss_history res). split; [exact Hst|reflexivity]. }
    rewrite Hfinal in Eloop. discriminate.
Qed.

Lemma train_model_gradients_total (lr : scalar) (init_params : dict tensor)
      (cycler : cycler_t) (n_samples : nat) (callable_penalty : tensor -> scalar)
      (batch_iterations gamma_length : nat) (seed : Z) (print_intermediate : bool)
      (r : rng) (alpha0 mu0 sigma0 : tensor) :
  (forall o ps gs,
      map (@length scalar) (snd (opt_update o ps gs)) = map (@length scalar) ps) ->
  dg_X cycler <> [] -> 1 <= dg_batch_size cycler ->
  Forall well_formed (dg_data cycler) ->
  getitem init_params "alpha" = Ok alpha0 ->
  getitem init_params "mu" = Ok mu0 ->
  getitem init_params "sigma" = Ok sigma0 ->
  shapes_ok (length sigma0) (length mu0) gamma_length ->
  exists res cycler' r',
    train lr init_params cycler n_samples callable_penalty batch_iterations
          gamma_length seed print_intermediate r = Ok ((res, cycler'), r').
Proof.
  intros Hplace HX Hbs Hdata Ha Hm Hs Hshape.
  destruct (getitem_key_index _ _ Ha) as (ia & Kia & Iia).
  destruct (getitem_key_index _ _ Hm) as (im & Kim & Iim).
  destruct (getitem_key_index _ _ Hs) as (isg & Kis & Iis).
  pose proof (key_index_bound _ _ Kia) as Bia.
  pose proof (key_index_bound _ _ Kim) as Bim.
  pose proof (key_index_bound _ _ Kis) as Bis.
  assert (Dam : ia <> im).
  { intros ->. pose proof (key_index_inj _ _ _ Kia Kim). discriminate. }
  assert (Das : ia <> isg).
  { intros ->. pose proof (key_index_inj _ _ _ Kia Kis). discriminate. }
  assert (Dms : im <> isg).
  { intros ->. pose proof (key_index_inj _ _ _ Kim Kis). discriminate. }
  set (params := map snd init_params).
  set (st0 := mkTrainState params (pytorch_optimizer params lr) cycler).
  assert (Hinv : train_inv (dg_X cycler) (dg_batch_size cycler) ia im isg
                           (length mu0) (length sigma0) st0).
  { split; [repeat split; assumption|]. cbn [st0 ts_params]. unfold params.
    rewrite <- (length_map snd init_params) in Bia, Bim, Bis.
    repeat split; try lia; eauto. }
  destruct (steps_total callable_proj opt_update backward Hplace HX Hbs n_samples
                        callable_penalty Hshape batch_iterations (manual_seed seed) Hinv)
    as (losses & st & r' & Hsteps & (_ & H3 & _)).
  destruct (@index_in_range _ (ts_params st) 0) as (p0 & E0); [lia|].
  destruct (@index_in_range _ (ts_params st) 1) as (p1 & E1); [lia|].
  destruct (@index_in_range _ (ts_params st) 2) as (p2 & E2); [lia|].
  exists (mkResults [("alpha"%string, p0); ("mu"%string, p1); ("sigma"%string, p2)] losses),
         (ts_cycler st), r'.
  apply train_model_gradients_inv.
  exists ia, im, isg, st, p0, p1, p2. cbn [loss_history opt_params].
  repeat split; assumption.
Qed.


End TrainingSpec.

(** ** The theorems at concrete inputs, over exact reals *)

Section Concrete.

Import Ideal.

(** Thresholds and accuracy. *)

Lemma egt_true (x y : R) : (y < x)%R -> egt (Fin x) (Fin y) = true.
Proof. intros H. unfold egt. destruct (Rlt_dec y x); [reflexivity|contradiction]. Qed.

Lemma egt_false (x y : R) : (x <= y)%R -> egt (Fin x) (Fin y) = false.
Proof. intros H. unfold egt. destruct (Rlt_dec y x); [lra|reflexivity]. Qed.

Lemma eeq_true (x : R) : eeq (Fin x) (Fin x) = true.
Proof. unfold eeq. destruct (Req_dec_T x x); [reflexivity|congruence]. Qed.

Lemma eeq_false (x y : R) : x <> y -> eeq (Fin x) (Fin y) = false.
Proof. intros H. unfold eeq. destruct (Req_dec_T x y); [contradiction|reflexivity]. Qed.

Example get_preds_given_threshold_example :
  get_preds_given_threshold (TL := ideal) (Fin (1 / 2)) [Fin 0; Fin 1; Fin (1 / 2)]
  = [1; -1; 1]%Z.
Proof.
  unfold get_preds_given_threshold. cbn [map t_gt ideal].
  rewrite egt_false by lra. rewrite egt_true by lra. rewrite egt_false by lra.
  reflexivity.
Qed.

Example get_accuracy_score_example :
  get_accuracy_score (TL := ideal) [1; -1; 1; 1]%Z [Fin 1; Fin 1; Fin (-1); Fin 1]
  = Ok (Fin (2 / 4)).
Proof.
  unfold get_accuracy_score, broadcast2. cbn [length bshape Nat.eqb rbind bmap2 combine map
                                               fst snd t_eq of_int ideal].
  rewrite eeq_true.
  rewrite (eeq_false (x := -1) (y := 1)) by lra.
  rewrite (eeq_false (x := 1) (y := -1)) by lra.
  cbn [filter length]. unfold t_div, ideal, ediv. cbn [Z.of_nat Pos.of_succ_nat Pos.succ].
  destruct (Req_dec_T 4 0) as [E|_]; [lra|reflexivity].
Qed.

Lemma threshold_accuracy_spec_witness :
  length (get_preds_given_threshold (TL := ideal) (Fin 0) [Fin 1; Fin 0]) = 2.
Proof.
  exact (proj1 (proj1 (@threshold_accuracy_spec ideal [Fin 1; Fin 0] [Fin 1; Fin 1]
                         (Fin 0) (Fin 0) (Fin 1) 3 eq_refl))).
Defined.

(** Truth labels: one normal series and no anomalous one give two labels
    for one score. *)

Lemma unit_shapes_ok : shapes_ok 1 1 1.
Proof. exists 1, 1. split; reflexivity. Qed.

Lemma get_truth_labels_spec_witness :
  length (get_truth_labels (TL := ideal) [[Fin 0]] []) = 2
  /\ exists scores r',
       get_norm_and_anom_scores (TL := ideal) perfect_proj [[Fin 0]] [] [Fin 1]
                                unit_params 1 1 0 = Ok (scores, r')
       /\ length scores = 1.
Proof.
  pose proof (@get_truth_labels_spec ideal [[Fin 0]] []) as H. cbv zeta in H.
  destruct H as (Hlen & _ & _ & _ & Hscores & Htotal).
  split; [exact Hlen|].
  destruct (Htotal perfect_proj [Fin 1] unit_params [] [Fin 0] [Fin 1] 1 1 0
                   eq_refl eq_refl eq_refl unit_shapes_ok) as (scores & r' & E).
  - repeat constructor.
  - exists scores, r'. split; [exact E|]. exact (proj1 (Hscores _ _ _ _ _ _ _ _ E)).
Defined.

(** The cycler over three items in batches of two. *)

Lemma DataGetter_next_never_raises_witness :
  exists data r0,
    get_training_cycler (TL := ideal) (fun items : list nat => items) [1; 2; 3] 2 0 0
    = Ok (mkDataGetter [1; 2; 3] 2 data, r0)
    /\ exists batches data' r',
         next_n (TL := ideal) (fun items : list nat => items) 5
                (mkDataGetter [1; 2; 3] 2 data) r0
         = Ok ((batches, mkDataGetter [1; 2; 3] 2 data'), r')
         /\ length batches = 5.
Proof.
  destruct (@DataGetter_next_never_raises ideal nat (list nat) (fun items => items)
              [1; 2; 3] 2) as (_ & _ & H).
  - discriminate.
  - lia.
  - destruct (H 0%Z 0) as (data & r0 & E & Hn).
    exists data, r0. split; [exact E|apply Hn].
Defined.

Example get_training_cycler_example :
  get_training_cycler (TL := ideal) (fun items : list nat => items) [1; 2; 3] 2 0 7
  = Ok (mkDataGetter [1; 2; 3] 2 [[1; 2]; [3]], 1).
Proof. reflexivity. Qed.

Example next_n_example :
  next_n (TL := ideal) (fun items : list nat => items) 3
         (mkDataGetter [1; 2; 3] 2 [[1; 2]; [3]]) 1
  = Ok (([[3]; [1; 2]; [3]], mkDataGetter [1; 2; 3] 2 [[1; 2]]), 2).
Proof. reflexivity. Qed.

(** Training with an optimizer that leaves the parameters as they are. *)


End Concrete.

(** ** The range of the loss over exact reals

    With entries in the reals every quantity of [get_loss] can be bounded.
    The bounds below are facts about this arithmetic only: they say nothing
    about rounding. *)

Section IdealBounds.

Import Ideal.

Local Open Scope R_scope.

(** An entry that is a real number in the given range. *)
Definition within (a b : R) (v : ext) : Prop := exists x, v = Fin x /\ a <= x <= b.

Lemma div_within (s n a b : R) :
  0 < n -> n * a <= s <= n * b -> a <= s / n <= b.
Proof.
  intros Hn [Ha Hb]. assert (Hi : 0 < / n) by now apply Rinv_0_lt_compat.
  unfold Rdiv. split.
  - replace a with (n * a * / n) by (field; lra).
    apply Rmult_le_compat_r; lra.
  - replace b with (n * b * / n) by (field; lra).
    apply Rmult_le_compat_r; lra.
Qed.

Lemma div_strictly_within (s n c : R) :
  0 < n -> 0 < s < n * c -> 0 < s / n < c.
Proof.
  intros Hn [Ha Hb]. assert (Hi : 0 < / n) by now apply Rinv_0_lt_compat.
  unfold Rdiv. split.
  - now apply Rmult_lt_0_compat.
  - replace c with (n * c * / n) by (field; lra).
    apply Rmult_lt_compat_r; lra.
Qed.

Lemma esum_within (a b : R) (l : list ext) :
  Forall (within a b) l ->
  exists s, esum l = Fin s /\ INR (length l) * a <= s <= INR (length l) * b.
Proof.
  induction 1 as [|v l (x & -> & Hx) _ (s & Hs & Hb)].
  - exists 0. split; [reflexivity|]. simpl. lra.
  - exists (x + s). cbn [esum]. rewrite Hs. split; [reflexivity|].
    cbn [length]. rewrite S_INR. lra.
Qed.

Lemma emean_within (a b : R) (l : list ext) :
  l <> [] -> Forall (within a b) l -> within a b (emean l).
Proof.
  intros Hne Hl. destruct (esum_within Hl) as (s & Hs & Hb).
  assert (Hn : 0 < INR (length l)).
  { destruct l; [contradiction|]. cbn [length]. rewrite S_INR.
    pose proof (pos_INR (length l)). lra. }
  exists (s / INR (length l)). unfold emean, ediv. rewrite Hs.
  destruct (Req_dec_T (INR (length l)) 0) as [E|_]; [lra|].
  split; [reflexivity|]. now apply div_within.
Qed.

(** The sum of non-negative entries below [c], one of them positive. *)
Lemma esum_strict (c : R) (l : list ext) :
  Forall (fun v => exists x, v = Fin x /\ 0 <= x < c) l ->
  exists s,
    esum l = Fin s /\ 0 <= s
    /\ (l <> [] -> s < INR (length l) * c)
    /\ (Exists (fun v => exists x, v = Fin x /\ 0 < x) l -> 0 < s).
Proof.
  induction 1 as [|v l (x & -> & Hx) Hl (s & Hs & H0 & Hup & Hlow)].
  - exists 0. repeat split; try reflexivity; try lra.
    + intros H; now elim H.
    + intros H; inversion H.
  - exists (x + s). cbn [esum]. rewrite Hs. repeat split; try lra.
    + intros _. cbn [length]. rewrite S_INR. destruct l as [|v' l'].
      * cbn in Hs. injection Hs as <-. simpl. lra.
      * specialize (Hup ltac:(discriminate)). lra.
    + intros He. inversion He as [? ? (y & Ey & Hy)|? ? Hrest]; subst.
      * injection Ey as <-. lra.
      * specialize (Hlow Hrest). lra.
Qed.

Lemma atan_nonneg (x : R) : 0 <= x -> 0 <= atan x.
Proof.
  intros [Hx|<-].
  - left. rewrite <- atan_0. now apply atan_increasing.
  - rewrite atan_0. lra.
Qed.

Lemma atan_positive (x : R) : 0 < x -> 0 < atan x.
Proof. intros Hx. rewrite <- atan_0. now apply atan_increasing. Qed.

(** The penalty lies strictly between [0] and [1/2]. *)
Lemma arctan_penalty_range (tau : R) (sigma : list R) :
  0 < tau -> Exists (fun s => s <> 0) sigma ->
  exists pen,
    callable_arctan_penalty (TL := ideal) (Fin tau) (map Fin sigma) = Fin pen
    /\ 0 < pen < 1 / 2.
Proof.
  intros Htau Hsig. unfold callable_arctan_penalty. cbn [t_mul t_div t_mean t_arctan
                                                          t_abs t_pi lit ideal].
  rewrite map_map. cbn [lift1 lift2].
  pose proof PI_RGT_0 as Hpi.
  pose (entries := map (fun s => Fin (atan (Q2R 2 * PI * tau * Rabs s))) sigma).
  change (exists pen,
             lift2 Rmult (ediv (Fin (Q2R 1)) (Fin PI)) (emean entries) = Fin pen
             /\ 0 < pen < 1 / 2).
  assert (Q2 : Q2R 2 = 2) by (unfold Q2R; simpl; lra).
  assert (Hall : Forall (fun v => exists x, v = Fin x /\ 0 <= x < PI / 2) entries).
  { apply Forall_forall. intros v Hv. apply in_map_iff in Hv as (s & <- & _).
    eexists. split; [reflexivity|]. split.
    - apply atan_nonneg. rewrite Q2.
      apply Rmult_le_pos; [apply Rmult_le_pos; lra|apply Rabs_pos].
    - apply atan_bound. }
  assert (Hex : Exists (fun v => exists x, v = Fin x /\ 0 < x) entries).
  { apply Exists_exists in Hsig as (s & Hin & Hs). apply Exists_exists.
    exists (Fin (atan (Q2R 2 * PI * tau * Rabs s))). split.
    - apply in_map_iff. now exists s.
    - eexists. split; [reflexivity|]. apply atan_positive. rewrite Q2.
      apply Rmult_lt_0_compat; [apply Rmult_lt_0_compat; lra|now apply Rabs_pos_lt]. }
  assert (Hne : entries <> []).
  { intros E. rewrite E in Hex. inversion Hex. }
  destruct (esum_strict Hall) as (s & Hs & _ & Hup & Hlow).
  specialize (Hup Hne). specialize (Hlow Hex).
  assert (Hn : 0 < INR (length entries)).
  { destruct entries; [contradiction|]. cbn [length]. rewrite S_INR.
    pose proof (pos_INR (length entries)). lra. }
  unfold emean, ediv. rewrite Hs, Q2R_one.
  destruct (Req_dec_T PI 0) as [E|_]; [lra|].
  destruct (Req_dec_T (INR (length entries)) 0) as [E|_]; [lra|].
  cbn [lift2]. eexists. split; [reflexivity|].
  assert (Hm : 0 < s / INR (length entries) < PI / 2)
    by (apply div_strictly_within; lra).
  set (m := s / INR (length entries)) in *.
  assert (Hi : 0 < / PI) by now apply Rinv_0_lt_compat.
  assert (Hpi1 : PI * / PI = 1) by (field; lra).
  unfold Rdiv in *. nra.
Qed.

Variable callable_proj : @tensor ideal -> @tensor ideal -> @tensor ideal
                         -> @tensor ideal -> @scalar ideal.

(** The projector measures a probability. *)
Hypothesis callable_proj_probability :
  forall xt t alpha gamma, within 0 1 (callable_proj xt t alpha gamma).

Lemma F_within (xt t alpha mu sigma : @tensor ideal) (gamma_length n_samples : nat)
      (r : @rng ideal) :
  (1 <= n_samples)%nat ->
  shapes_ok (length sigma) (length mu) gamma_length ->
  exists f r',
    F (TL := ideal) callable_proj xt t alpha mu sigma gamma_length n_samples r
    = Ok (f, r') /\ within 0 1 f.
Proof.
  intros Hn (w & w' & Hw & Hw'). rewrite F_mean.
  pose proof (draws_length (TL := ideal)
                (draws (TL := ideal) (randn1 (TensorLib := ideal)) gamma_length)
                n_samples r) as Hlen.
  destruct (draws (draws randn1 gamma_length) n_samples r) as [noise r'].
  cbn [fst] in Hlen.
  unfold sample_gammas. rewrite Hw. cbn [rbind]. rewrite Hw'. cbn [rbind].
  eexists _, _. split; [reflexivity|].
  apply emean_within.
  - destruct noise; [cbn in Hlen; lia|discriminate].
  - rewrite map_map. apply Forall_forall. intros v Hv.
    apply in_map_iff in Hv as (row & <- & _). apply callable_proj_probability.
Qed.

Lemma squared_deviations_within (alpha mu sigma : @tensor ideal)
      (gamma_length n_samples : nat) :
  (1 <= n_samples)%nat ->
  shapes_ok (length sigma) (length mu) gamma_length ->
  forall points r,
  exists sq r',
    mapM (squared_deviation (TL := ideal) callable_proj alpha mu sigma gamma_length
                            n_samples) points r = Ok (sq, r')
    /\ Forall (within 0 1) sq /\ length sq = length points.
Proof.
  intros Hn Hs. induction points as [|[xt t] points IH]; intros r.
  - exists [], r. repeat split. constructor.
  - rewrite mapM_cons. unfold squared_deviation at 1. rewrite bind_run. cbn [fst snd].
    destruct (@F_within (unsqueeze0 xt) (unsqueeze0 t) alpha mu sigma gamma_length
                        n_samples r Hn Hs) as (f & r1 & -> & (x & -> & Hx)).
    unfold ret. cbv beta iota.
    destruct (IH r1) as (sq & r2 & -> & Hsq & Hlen).
    eexists _, _. split; [reflexivity|]. split; [|simpl; now f_equal].
    constructor; [|exact Hsq].
    cbn [t_square t_sub lit ideal lift1 lift2]. eexists. split; [reflexivity|].
    rewrite Q2R_one. unfold Rsqr. nra.
Qed.

(** Over exact reals, for a projector that measures probabilities, a
    non-empty batch, at least one sample, [tau > 0] and a [sigma] that is
    not zero, the loss lies strictly between [0] and [1]: one half of the
    mean squared error is in [[0, 1/2]] and the penalty in [(0, 1/2)]. *)
Lemma ideal_get_loss_range (X_batch T_batch alpha mu : @tensor ideal) (sigma : list R)
      (gamma_length n_samples : nat) (tau : R) (r : @rng ideal) :
  X_batch <> [] -> length X_batch = length T_batch ->
  (1 <= n_samples)%nat ->
  shapes_ok (length sigma) (length mu) gamma_length ->
  0 < tau -> Exists (fun s => s <> 0) sigma ->
  exists mse pen r',
    get_loss (TL := ideal) callable_proj (X_batch, T_batch) alpha mu (map Fin sigma)
             gamma_length n_samples
             (callable_arctan_penalty (TL := ideal) (Fin tau)) r
    = Ok (Fin (mse + pen), r')
    /\ 0 <= mse <= 1 / 2 /\ 0 < pen < 1 / 2 /\ 0 < mse + pen < 1.
Proof.
  intros Hne Hlen Hn Hs Htau Hsig.
  rewrite get_loss_mean by assumption. rewrite bind_run.
  assert (Hs' : shapes_ok (length (map Fin sigma)) (length mu) gamma_length)
    by now rewrite length_map.
  destruct (@squared_deviations_within alpha mu (map Fin sigma) gamma_length n_samples
              Hn Hs' (combine X_batch T_batch) r)
    as (sq & r' & -> & Hsq & Hl).
  assert (Hsqne : sq <> []).
  { intros ->. destruct X_batch as [|x X_batch], T_batch as [|t T_batch];
      try contradiction; discriminate. }
  destruct (emean_within Hsqne Hsq) as (m & Hm & Hmb).
  destruct (arctan_penalty_range Htau Hsig) as (pen & Hpen & Hpb).
  exists (1 / 2 * m), pen, r'. unfold ret. rewrite Hpen.
  change (@t_mean ideal sq) with (emean sq). rewrite Hm.
  cbn [t_add t_mul lit ideal lift2].
  assert (Q12 : Q2R (1 # 2) = 1 / 2) by (unfold Q2R; simpl; lra).
  rewrite Q12. split; [reflexivity|]. lra.
Qed.

End IdealBounds.

(** Without samples [F] is the undefined mean, and so is the loss. *)
Example get_loss_no_samples :
  get_loss (TL := Ideal.ideal) perfect_proj ([Ideal.Fin 0], [Ideal.Fin 1])
           [] [Ideal.Fin 0] [Ideal.Fin 1] 1 0
           (callable_arctan_penalty (TL := Ideal.ideal) (Ideal.Fin 5)) 0
  = Ok (Ideal.NaN, 0).
Proof.
  etransitivity; [apply get_loss_mean; reflexivity|].
  rewrite bind_run. cbn [combine]. rewrite mapM_cons.
  unfold squared_deviation. rewrite bind_run, F_mean.
  cbn -[t_mean callable_arctan_penalty].
  change (@t_mean Ideal.ideal []) with (Ideal.emean []).
  rewrite Ideal.emean_nil. reflexivity.
Qed.

(** * Further properties of the code *)

(** ** The synthetic series *)

Lemma skipn_app_past {A : Type} (l1 l2 : list A) (m : nat) :
  length l1 <= m -> skipn m (l1 ++ l2) = skipn (m - length l1) l2.
Proof.
  intros H. rewrite skipn_app, skipn_all2 by exact H. reflexivity.
Qed.

Lemma Forall2_eq_same {A : Type} (l l' : list A) : Forall2 eq l l' -> l' = l.
Proof. induction 1; subst; trivial. Qed.

Lemma Forall2_length_eq {A B : Type} (R : A -> B -> Prop) (l : list A) (l' : list B) :
  Forall2 R l l' -> length l' = length l.
Proof. induction 1; simpl; auto. Qed.

Lemma Forall_combine {A B : Type} (P : A -> Prop) (Q : B -> Prop) (a : list A) :
  forall b : list B,
    Forall P a -> Forall Q b -> Forall (fun ab => P (fst ab) /\ Q (snd ab)) (combine a b).
Proof.
  induction a as [|x a IH]; intros [|y b] Ha Hb; simpl; try constructor.
  - split; [now inversion Ha | now inversion Hb].
  - apply IH; [now inversion Ha | now inversion Hb].
Qed.

Lemma Forall_firstn {A : Type} (P : A -> Prop) (n : nat) (l : list A) :
  Forall P l -> Forall P (firstn n l).
Proof.
  intros H. revert n. induction H; intros [|n]; simpl; constructor; auto.
Qed.

Section DataFacts.

Context `{TL : TensorLib}.

Lemma draws_Forall {A : Type} (P : A -> Prop) (f : rng -> A * rng) :
  (forall r, P (fst (f r))) -> forall n r, Forall P (fst (draws f n r)).
Proof.
  intros Hf. induction n as [|n IH]; intros r; simpl.
  - constructor.
  - specialize (Hf r). destruct (f r) as [x r1]. specialize (IH r1).
    destruct (draws f n r1) as [xs r2]. simpl in *. constructor; assumption.
Qed.

(** Every row of a two-dimensional draw has the number of columns asked for. *)
Lemma normal_shape (mean std : scalar) (rows cols : nat) (r : rng) :
  exists X r',
    normal mean std rows cols r = Ok (X, r')
    /\ (X, r') = draws (draws (normal1 mean std) cols) rows r
    /\ length X = rows /\ Forall (fun x => length x = cols) X.
Proof.
  unfold normal, draw.
  pose proof (draws_length (draws (normal1 mean std) cols) rows r) as Hl.
  pose proof (@draws_Forall (list scalar) (fun x : list scalar => length x = cols)
                (draws (normal1 mean std) cols)
                (fun r0 => draws_length (normal1 mean std) cols r0) rows r) as Hf.
  destruct (draws (draws (normal1 mean std) cols) rows r) as [X r'].
  cbn [fst] in Hl, Hf. exists X, r'. repeat split; assumption.
Qed.

(** A run of [mapM] whose every item succeeds, with a relation between the
    items and the results. *)
Lemma mapM_total_rel {A B : Type} (f : A -> M B) (Q : A -> B -> Prop) (l : list A) :
  (forall a, In a l -> forall r, exists b r', f a r = Ok (b, r') /\ Q a b) ->
  forall r, exists bs r', mapM f l r = Ok (bs, r') /\ Forall2 Q l bs.
Proof.
  induction l as [|a l IH]; intros Hf r.
  - exists [], r. split; [reflexivity|constructor].
  - rewrite mapM_cons.
    destruct (Hf a (or_introl eq_refl) r) as (b & r1 & -> & Hq).
    destruct (IH (fun a' Ha' => Hf a' (or_intror Ha')) r1) as (bs & r2 & -> & Hqs).
    exists (b :: bs), r2. split; [reflexivity|now constructor].
Qed.

(** One spike that fits in the series changes the entries of its window
    only. *)
Lemma add_spike_fits (spike_amp : scalar) (y : tensor) (start_idx : nat) (d : Z)
      (m : nat) (r : rng) :
  start_idx + Z.to_nat d <= m -> m <= length y ->
  exists y' r',
    add_spike spike_amp y (start_idx, d) r = Ok (y', r')
    /\ length y' = length y
    /\ firstn start_idx y' = firstn start_idx y
    /\ skipn m y' = skipn m y.
Proof.
  intros Hm Hy. unfold add_spike. cbn [fst snd]. rewrite bind_run. unfold draw.
  pose proof (draws_length (normal1 (lit 0) spike_amp) (Z.to_nat d) r) as Hn.
  destruct (draws (normal1 (lit 0) spike_amp) (Z.to_nat d) r) as [noise r'].
  cbn [fst] in Hn.
  set (view := slice y start_idx (start_idx + Z.to_nat d)).
  assert (Hv : length view = Z.to_nat d).
  { unfold view, slice. rewrite length_firstn, length_skipn. lia. }
  replace (length noise =? length view) with true
    by (symmetry; apply Nat.eqb_eq; lia).
  cbn [orb]. unfold ret. eexists _, _. split; [reflexivity|].
  assert (Hb : length (bmap2 t_add view noise) = Z.to_nat d).
  { rewrite bmap2_same_length by lia. rewrite length_map, length_combine. lia. }
  assert (Hf : length (firstn start_idx y) = start_idx)
    by (rewrite length_firstn; lia).
  split; [|split].
  - rewrite !length_app, Hb, Hf, length_skipn. lia.
  - rewrite firstn_app, Hf, Nat.sub_diag. cbn [firstn]. rewrite app_nil_r.
    rewrite firstn_firstn. f_equal. lia.
  - rewrite app_assoc, skipn_app_past by (rewrite length_app, Hb, Hf; lia).
    rewrite length_app, Hb, Hf, skipn_skipn. f_equal. lia.
Qed.

Lemma spikes_fit (spike_amp : scalar) (m : nat) (sds : list (nat * Z)) :
  Forall (fun sd => fst sd + Z.to_nat (snd sd) <= m) sds ->
  forall (y : tensor) (r : rng),
    m <= length y ->
    exists y' r',
      for_eachM (add_spike spike_amp) y sds r = Ok (y', r')
      /\ length y' = length y /\ skipn m y' = skipn m y.
Proof.
  induction 1 as [|[s d] sds Hsd _ IH]; intros y r Hy.
  - exists y, r. repeat split.
  - cbn [for_eachM]. rewrite bind_run.
    destruct (@add_spike_fits spike_amp y s d m r Hsd Hy) as (y1 & r1 & -> & Hl & _ & Hs).
    destruct (IH y1 r1) as (y2 & r2 & -> & Hl2 & Hs2); [lia|].
    exists y2, r2. split; [reflexivity|]. split; congruence.
Qed.

Lemma generate_anomalous_unfold (p num_series : nat) (noise_amp spike_amp : scalar)
      (max_duration : nat) (t_init t_end : scalar) (seed : Z) (r : rng) :
  generate_anomalous_time_series_set p num_series noise_amp spike_amp max_duration
                                     t_init t_end seed r
  = match generate_normal_time_series_set p num_series noise_amp t_init t_end seed r with
    | Ok ((Y, T), r1) =>
        match mapM (spike_series p spike_amp max_duration) Y r1 with
        | Ok (Y', r2) => Ok ((Y', T), r2)
        | Raise e => Raise e
        end
    | Raise e => Raise e
    end.
Proof.
  unfold generate_anomalous_time_series_set, generate_normal_time_series_set.
  rewrite !bind_run. unfold seed_generator. rewrite !bind_run.
  destruct (normal_shape (lit 0) noise_amp num_series p (manual_seed seed))
    as (Y & r1 & -> & _). unfold ret at 2.
  rewrite bind_run. fold (spike_series p spike_amp max_duration).
  destruct (mapM (spike_series p spike_amp max_duration) Y r1) as [[Y' r2]|e];
    reflexivity.
Qed.

Lemma generate_normal_shape (p num_series : nat) (noise_amp t_init t_end : scalar)
      (seed : Z) (r : rng) :
  exists X r',
    generate_normal_time_series_set p num_series noise_amp t_init t_end seed r
    = Ok ((X, linspace t_init t_end p), r')
    /\ length X = num_series /\ Forall (fun x => length x = p) X.
Proof.
  unfold generate_normal_time_series_set. rewrite !bind_run.
  unfold seed_generator. rewrite bind_run.
  destruct (normal_shape (lit 0) noise_amp num_series p (manual_seed seed))
    as (X & r1 & -> & _ & Hl & Hf).
  exists X, r1. auto.
Qed.

(** The spikes of one series of length [p] stay below position [p - 2]. *)
Lemma spike_series_fits (p : nat) (spike_amp : scalar) (max_duration : nat)
      (y : tensor) (r : rng) :
  randint_in_range -> 2 <= max_duration <= p -> length y = p ->
  exists y' r',
    spike_series p spike_amp max_duration y r = Ok (y', r')
    /\ length y' = p /\ skipn (p - 2) y' = skipn (p - 2) y.
Proof.
  intros Hrange Hmd Hy. unfold spike_series. rewrite bind_run.
  unfold randint at 1. cbn [Z.leb Z.compare Pos.compare Pos.compare_cont].
  destruct (draws (randint1 5 10) 1 r) as [sn r1].
  set (spike_num := Z.to_nat (hd 0%Z sn)).
  rewrite bind_run. unfold randint.
  replace (Z.of_nat max_duration <=? 1)%Z with false by (symmetry; apply Z.leb_gt; lia).
  pose proof (@draws_Forall _ (fun d => (1 <= d < Z.of_nat max_duration)%Z)
                (randint1 1 (Z.of_nat max_duration))
                (fun r0 => Hrange 1%Z (Z.of_nat max_duration) r0 ltac:(lia))
                spike_num r1) as Hd.
  destruct (draws (randint1 1 (Z.of_nat max_duration)) spike_num r1)
    as [durations r2] eqn:Ed.
  cbn [fst] in Hd. rewrite bind_run.
  replace (p <? max_duration) with false by (symmetry; apply Nat.ltb_ge; lia).
  unfold draw.
  pose proof (randperm_perm (p - max_duration) r2) as Hperm.
  destruct (randperm (p - max_duration) r2) as [perm r3]. cbn [fst] in Hperm.
  assert (Hs : Forall (fun s => s < p - max_duration) perm).
  { apply Forall_forall. intros s Hin.
    apply (Permutation_in _ Hperm), in_seq in Hin. lia. }
  destruct (@spikes_fit spike_amp (p - 2)
              (combine (firstn spike_num perm) durations)) with (y := y) (r := r3)
    as (y' & r' & -> & Hl & Hk).
  - eapply Forall_impl; [|apply Forall_combine; [apply Forall_firstn, Hs|exact Hd]].
    intros [s d] [H1 H2]. cbn [fst snd] in *. lia.
  - lia.
  - exists y', r'. split; [reflexivity|]. split; [congruence|exact Hk].
Qed.

(** What [generate_anomalous_time_series_set] returns when the spikes fit. *)
Lemma generate_anomalous_fits (p num_series : nat) (noise_amp spike_amp : scalar)
      (max_duration : nat) (t_init t_end : scalar) (seed : Z) (r : rng) :
  randint_in_range -> 2 <= max_duration <= p ->
  exists X r1 Y r2,
    generate_normal_time_series_set p num_series noise_amp t_init t_end seed r
    = Ok ((X, linspace t_init t_end p), r1)
    /\ length X = num_series /\ Forall (fun x => length x = p) X
    /\ generate_anomalous_time_series_set p num_series noise_amp spike_amp
         max_duration t_init t_end seed r
       = Ok ((Y, linspace t_init t_end p), r2)
    /\ Forall2 (fun x y => length y = p /\ skipn (p - 2) y = skipn (p - 2) x) X Y.
Proof.
  intros Hrange Hmd.
  destruct (generate_normal_shape p num_series noise_amp t_init t_end seed r)
    as (X & r1 & HX & Hl & Hf).
  rewrite generate_anomalous_unfold, HX.
  destruct (@mapM_total_rel _ _ (spike_series p spike_amp max_duration)
              (fun x y => length y = p /\ skipn (p - 2) y = skipn (p - 2) x) X)
    with (r := r1) as (Y & r2 & -> & HY).
  - intros x Hx r0. apply spike_series_fits; trivial.
    exact (proj1 (Forall_forall _ X) Hf x Hx).
  - exists X, r1, Y, r2. auto.
Qed.

End DataFacts.

Lemma combine_app_same {A B : Type} (a1 a2 : list A) :
  forall b1 b2 : list B,
    length a1 = length b1 ->
    combine (a1 ++ a2) (b1 ++ b2) = combine a1 b1 ++ combine a2 b2.
Proof.
  induction a1 as [|x a1 IH]; intros [|y b1] b2 H; simpl in *; try lia; trivial.
  f_equal. apply IH. lia.
Qed.

Lemma ideal_randint_in_range : randint_in_range (H := Ideal.ideal).
Proof. intros low high r H. simpl. lia. Qed.

Lemma ideal_valid_std (x : R) : (0 < x)%R -> valid_std (H := Ideal.ideal) (Ideal.Fin x).
Proof.
  intros Hx. left. simpl. unfold Ideal.egt. rewrite Ideal.Q2R_zero.
  destruct (Rlt_dec 0 x); [reflexivity|contradiction].
Qed.

Section DataProperties.

Context `{TL : TensorLib}.

Lemma spike_series_raises (p : nat) (spike_amp : scalar) (max_duration : nat)
      (y : tensor) (r : rng) :
  max_duration <= 1 \/ p < max_duration ->
  spike_series p spike_amp max_duration y r = Raise RuntimeError.
Proof.
  intros H. unfold spike_series. rewrite bind_run.
  unfold randint at 1. cbn [Z.leb Z.compare Pos.compare Pos.compare_cont].
  destruct (draws (randint1 5 10) 1 r) as [sn r1].
  rewrite bind_run. unfold randint.
  destruct (Z.of_nat max_duration <=? 1)%Z eqn:E; [reflexivity|].
  apply Z.leb_gt in E.
  destruct (draws (randint1 1 (Z.of_nat max_duration)) (Z.to_nat (hd 0%Z sn)) r1)
    as [durations r2].
  rewrite bind_run.
  replace (p <? max_duration) with true by (symmetry; apply Nat.ltb_lt; lia).
  reflexivity.
Qed.

Lemma spike_series_no_room (p : nat) (spike_amp : scalar) (y : tensor) (r : rng) :
  2 <= p -> exists r', spike_series p spike_amp p y r = Ok (y, r').
Proof.
  intros Hp. unfold spike_series. rewrite bind_run.
  unfold randint at 1. cbn [Z.leb Z.compare Pos.compare Pos.compare_cont].
  destruct (draws (randint1 5 10) 1 r) as [sn r1].
  rewrite bind_run. unfold randint.
  replace (Z.of_nat p <=? 1)%Z with false by (symmetry; apply Z.leb_gt; lia).
  destruct (draws (randint1 1 (Z.of_nat p)) (Z.to_nat (hd 0%Z sn)) r1)
    as [durations r2].
  rewrite bind_run, Nat.ltb_irrefl, Nat.sub_diag. unfold draw.
  pose proof (randperm_perm 0 r2) as Hperm.
  destruct (randperm 0 r2) as [perm r3]. cbn [fst seq] in Hperm.
  apply Permutation_sym, Permutation_nil in Hperm. subst perm.
  rewrite firstn_nil. cbn [combine for_eachM]. now exists r3.
Qed.

(** X1.  With a standard deviation [noise_amp] that [torch.normal] accepts,
    [generate_normal_time_series_set] returns [num_series] series of [p]
    entries each and the [p] times of [linspace(t_init, t_end, p)]; the
    generator is seeded first, so the result does not depend on the state
    the generator was in. *)
Theorem generate_normal_time_series_set_shape (p num_series : nat)
        (noise_amp t_init t_end : scalar) (seed : Z) (r : rng) :
  valid_std noise_amp ->
  exists X T r',
    generate_normal_time_series_set p num_series noise_amp t_init t_end seed r
    = Ok ((X, T), r')
    /\ length X = num_series
    /\ Forall (fun x => length x = p) X
    /\ T = linspace t_init t_end p /\ length T = p
    /\ forall r0,
         generate_normal_time_series_set p num_series noise_amp t_init t_end seed r0
         = Ok ((X, T), r').
Proof.
  intros _.
  destruct (generate_normal_shape p num_series noise_amp t_init t_end seed r)
    as (X & r' & HX & Hl & Hf).
  exists X, (linspace t_init t_end p), r'.
  split; [exact HX|]. split; [exact Hl|]. split; [exact Hf|].
  split; [reflexivity|]. split; [apply linspace_length|].
  intros r0. exact HX.
Qed.

(** X2.  When [randint] draws within its bounds, the standard deviations
    are ones [torch.normal] accepts and [2 <= max_duration <= p],
    [generate_anomalous_time_series_set] returns:
    no spike runs past the end of its series, so no addition fails, and the
    result has [num_series] series of [p] entries and [p] times. *)
Theorem generate_anomalous_time_series_set_shape (p num_series : nat)
        (noise_amp spike_amp : scalar) (max_duration : nat)
        (t_init t_end : scalar) (seed : Z) (r : rng) :
  randint_in_range -> valid_std noise_amp -> valid_std spike_amp ->
  2 <= max_duration <= p ->
  exists Y T r',
    generate_anomalous_time_series_set p num_series noise_amp spike_amp
                                       max_duration t_init t_end seed r
    = Ok ((Y, T), r')
    /\ length Y = num_series
    /\ Forall (fun y => length y = p) Y
    /\ T = linspace t_init t_end p /\ length T = p.
Proof.
  intros Hrange _ _ Hmd.
  destruct (@generate_anomalous_fits _ p num_series noise_amp spike_amp max_duration
              t_init t_end seed r Hrange Hmd)
    as (X & r1 & Y & r2 & _ & Hl & _ & HY & HXY).
  exists Y, (linspace t_init t_end p), r2.
  split; [exact HY|]. split; [|split; [|split; [reflexivity|apply linspace_length]]].
  - rewrite <- Hl. eapply Forall2_length_eq; eassumption.
  - clear -HXY. induction HXY as [|x y X Y [H _] _ IH]; constructor; trivial.
Qed.

(** X3.  Under the same conditions the spikes never reach the last two time
    steps: from position [p - 2] on, every anomalous series equals the
    normal series generated with the same arguments and seed. *)
Theorem spikes_spare_the_last_two_steps (p num_series : nat)
        (noise_amp spike_amp : scalar) (max_duration : nat)
        (t_init t_end : scalar) (seed : Z) (r : rng) :
  randint_in_range -> valid_std noise_amp -> valid_std spike_amp ->
  2 <= max_duration <= p ->
  exists X Y T r1 r2,
    generate_normal_time_series_set p num_series noise_amp t_init t_end seed r
    = Ok ((X, T), r1)
    /\ generate_anomalous_time_series_set p num_series noise_amp spike_amp
         max_duration t_init t_end seed r
       = Ok ((Y, T), r2)
    /\ Forall2 (fun x y => skipn (p - 2) y = skipn (p - 2) x) X Y.
Proof.
  intros Hrange _ _ Hmd.
  destruct (@generate_anomalous_fits _ p num_series noise_amp spike_amp max_duration
              t_init t_end seed r Hrange Hmd)
    as (X & r1 & Y & r2 & HX & _ & _ & HY & HXY).
  exists X, Y, (linspace t_init t_end p), r1, r2.
  repeat split; trivial.
  clear -HXY. induction HXY as [|x y X Y [_ H] _ IH]; constructor; trivial.
Qed.

(** X4.  With [max_duration = p >= 2] there is no position a spike may start
    at ([randperm(0)] is empty): the anomalous set is the normal set of the
    same seed, unchanged ([noise_amp] being a standard deviation that
    [torch.normal] accepts). *)
Theorem generate_anomalous_without_room (p num_series : nat)
        (noise_amp spike_amp : scalar) (t_init t_end : scalar) (seed : Z) (r : rng) :
  valid_std noise_amp -> 2 <= p ->
  exists X T r1 r2,
    generate_normal_time_series_set p num_series noise_amp t_init t_end seed r
    = Ok ((X, T), r1)
    /\ generate_anomalous_time_series_set p num_series noise_amp spike_amp
         p t_init t_end seed r
       = Ok ((X, T), r2).
Proof.
  intros _ Hp.
  destruct (generate_normal_shape p num_series noise_amp t_init t_end seed r)
    as (X & r1 & HX & _).
  rewrite generate_anomalous_unfold, HX.
  destruct (@mapM_total_rel _ _ _ (spike_series p spike_amp p) eq X)
    with (r := r1) as (Y & r2 & -> & HY).
  - intros x _ r0. destruct (@spike_series_no_room p spike_amp x r0 Hp) as (r' & ->).
    now exists x, r'.
  - apply Forall2_eq_same in HY. subst Y.
    now exists X, (linspace t_init t_end p), r1, r2.
Qed.

(** X5.  With at least one series, [generate_anomalous_time_series_set]
    raises [RuntimeError] when [max_duration <= 1] (the durations are drawn
    from the empty range [1, max_duration)) and when [p < max_duration]
    ([randperm] of a negative number). *)
Theorem generate_anomalous_time_series_set_raises (p num_series : nat)
        (noise_amp spike_amp : scalar) (max_duration : nat)
        (t_init t_end : scalar) (seed : Z) (r : rng) :
  1 <= num_series -> max_duration <= 1 \/ p < max_duration ->
  generate_anomalous_time_series_set p num_series noise_amp spike_amp
                                     max_duration t_init t_end seed r
  = Raise RuntimeError.
Proof.
  intros Hn Hmd.
  destruct (generate_normal_shape p num_series noise_amp t_init t_end seed r)
    as (X & r1 & HX & Hl & _).
  rewrite generate_anomalous_unfold, HX.
  destruct X as [|x X]; [simpl in Hl; lia|].
  rewrite mapM_cons, spike_series_raises by exact Hmd. reflexivity.
Qed.

Lemma make_atomized_training_set_length (X : list tensor) (T : tensor) :
  Forall (fun x => length x = length T) X ->
  length (make_atomized_training_set X T) = length X * length T.
Proof.
  intros HX. unfold make_atomized_training_set.
  induction HX as [|x X Hx _ IH]; [reflexivity|].
  cbn [concat length repeat]. rewrite combine_app_same by exact Hx.
  rewrite length_app, IH, length_combine. lia.
Qed.

(** X6.  When every series has as many entries as there are times,
    [make_atomized_training_set] pairs every entry with its own time: the
    result lists, series after series, the pairs [(x[j], T[j])], and has
    [len(X) * len(T)] items. *)
Theorem make_atomized_training_set_pairs (X : list tensor) (T : tensor) :
  Forall (fun x => length x = length T) X ->
  make_atomized_training_set X T = flat_map (fun x => combine x T) X
  /\ length (make_atomized_training_set X T) = length X * length T.
Proof.
  intros HX. unfold make_atomized_training_set.
  induction HX as [|x X Hx _ [IH IHl]]; [split; reflexivity|].
  cbn [concat length repeat flat_map].
  rewrite combine_app_same by exact Hx. split.
  - now rewrite IH.
  - rewrite length_app, IHl, length_combine. lia.
Qed.

End DataProperties.

Lemma generate_anomalous_time_series_set_shape_witness :
  exists Y T r',
    generate_anomalous_time_series_set (TL := Ideal.ideal) 3 2
      (Ideal.Fin 1) (Ideal.Fin 1) 2 (Ideal.Fin 0) (Ideal.Fin 1) GLOBAL_SEED 0%nat
    = Ok ((Y, T), r')
    /\ length Y = 2 /\ Forall (fun y => length y = 3) Y.
Proof.
  destruct (@generate_anomalous_time_series_set_shape Ideal.ideal 3 2
              (Ideal.Fin 1) (Ideal.Fin 1) 2 (Ideal.Fin 0) (Ideal.Fin 1) GLOBAL_SEED 0%nat
              ideal_randint_in_range (ideal_valid_std Rlt_0_1) (ideal_valid_std Rlt_0_1)
              ltac:(lia))
    as (Y & T & r' & H1 & H2 & H3 & _).
  exists Y, T, r'. auto.
Defined.

Lemma spikes_spare_the_last_two_steps_witness :
  exists X Y T r1 r2,
    generate_normal_time_series_set (TL := Ideal.ideal) 3 2
      (Ideal.Fin 1) (Ideal.Fin 0) (Ideal.Fin 1) GLOBAL_SEED 0%nat
    = Ok ((X, T), r1)
    /\ generate_anomalous_time_series_set (TL := Ideal.ideal) 3 2
         (Ideal.Fin 1) (Ideal.Fin 1) 2 (Ideal.Fin 0) (Ideal.Fin 1) GLOBAL_SEED 0%nat
       = Ok ((Y, T), r2)
    /\ Forall2 (fun x y => skipn 1 y = skipn 1 x) X Y.
Proof.
  exact (@spikes_spare_the_last_two_steps Ideal.ideal 3 2
           (Ideal.Fin 1) (Ideal.Fin 1) 2 (Ideal.Fin 0) (Ideal.Fin 1) GLOBAL_SEED 0%nat
           ideal_randint_in_range (ideal_valid_std Rlt_0_1) (ideal_valid_std Rlt_0_1)
           ltac:(lia)).
Defined.

Lemma generate_anomalous_without_room_witness :
  exists X T r1 r2,
    generate_normal_time_series_set (TL := Ideal.ideal) 2 3
      (Ideal.Fin 1) (Ideal.Fin 0) (Ideal.Fin 1) GLOBAL_SEED 0%nat
    = Ok ((X, T), r1)
    /\ generate_anomalous_time_series_set (TL := Ideal.ideal) 2 3
         (Ideal.Fin 1) (Ideal.Fin 1) 2 (Ideal.Fin 0) (Ideal.Fin 1) GLOBAL_SEED 0%nat
       = Ok ((X, T), r2).
Proof.
  exact (@generate_anomalous_without_room Ideal.ideal 2 3
           (Ideal.Fin 1) (Ideal.Fin 1) (Ideal.Fin 0) (Ideal.Fin 1) GLOBAL_SEED 0%nat
           (ideal_valid_std Rlt_0_1) ltac:(lia)).
Defined.

Lemma generate_anomalous_time_series_set_raises_witness :
  generate_anomalous_time_series_set (TL := Ideal.ideal) 3 1
    (Ideal.Fin 1) (Ideal.Fin 1) 1 (Ideal.Fin 0) (Ideal.Fin 1) GLOBAL_SEED 0%nat
  = Raise RuntimeError.
Proof.
  apply (@generate_anomalous_time_series_set_raises Ideal.ideal); [lia|left; lia].
Defined.

Lemma make_atomized_training_set_pairs_witness :
  make_atomized_training_set (TL := Ideal.ideal)
    [[Ideal.Fin 1; Ideal.Fin 2]; [Ideal.Fin 3; Ideal.Fin 4]] [Ideal.Fin 0; Ideal.Fin 5]
  = [(Ideal.Fin 1, Ideal.Fin 0); (Ideal.Fin 2, Ideal.Fin 5);
     (Ideal.Fin 3, Ideal.Fin 0); (Ideal.Fin 4, Ideal.Fin 5)].
Proof.
  refine (proj1 (@make_atomized_training_set_pairs Ideal.ideal
                   [[Ideal.Fin 1; Ideal.Fin 2]; [Ideal.Fin 3; Ideal.Fin 4]]
                   [Ideal.Fin 0; Ideal.Fin 5] _)).
  repeat constructor.
Defined.

Lemma generate_normal_time_series_set_shape_witness :
  exists X T r',
    generate_normal_time_series_set (TL := Ideal.ideal) 3 2
      (Ideal.Fin 1) (Ideal.Fin 0) (Ideal.Fin 1) GLOBAL_SEED 0%nat
    = Ok ((X, T), r')
    /\ length X = 2 /\ Forall (fun x => length x = 3) X.
Proof.
  destruct (@generate_normal_time_series_set_shape Ideal.ideal 3 2
              (Ideal.Fin 1) (Ideal.Fin 0) (Ideal.Fin 1) GLOBAL_SEED 0%nat
              (ideal_valid_std Rlt_0_1))
    as (X & T & r' & H1 & H2 & H3 & _).
  exists X, T, r'. auto.
Defined.

(** ** An epoch of the batch cycler *)

Lemma batches_per_pass_step (n b : nat) :
  1 <= b -> 1 <= n -> batches_per_pass n b = S (batches_per_pass (n - b) b).
Proof.
  intros Hb Hn. unfold batches_per_pass.
  destruct (Nat.le_gt_cases n b) as [Hle|Hgt].
  - replace (n - b) with 0 by lia. cbn [Nat.add].
    rewrite (Nat.div_small (b - 1) b) by lia.
    symmetry. apply Nat.div_unique with (r := n - 1); lia.
  - replace (n + b - 1) with ((n - b + b - 1) + 1 * b) by lia.
    rewrite Nat.div_add by lia. lia.
Qed.

Lemma chunks_fuel_length {A : Type} (b : nat) :
  1 <= b ->
  forall fuel (l : list A),
    length l <= fuel -> length (chunks_fuel fuel b l) = batches_per_pass (length l) b.
Proof.
  intros Hb. induction fuel as [|fuel IH]; intros l Hl.
  - destruct l; [|simpl in Hl; lia]. unfold batches_per_pass. cbn [length Nat.add].
    now rewrite Nat.div_small by lia.
  - destruct l as [|a l].
    + unfold batches_per_pass. cbn [chunks_fuel length Nat.add].
      now rewrite Nat.div_small by lia.
    + cbn [chunks_fuel length]. rewrite IH by (rewrite length_skipn; cbn [length] in *; lia).
      rewrite length_skipn. cbn [length].
      now rewrite (@batches_per_pass_step (S (length l)) b) by lia.
Qed.

(** All the batches of a pass but the last are full; the last one holds
    what is left. *)
Lemma chunks_fuel_last {A : Type} (b : nat) :
  1 <= b ->
  forall fuel (l : list A),
    length l <= fuel -> l <> [] ->
    exists front last_chunk,
      chunks_fuel fuel b l = front ++ [last_chunk]
      /\ Forall (fun c => length c = b) front
      /\ length last_chunk = (length l - 1) mod b + 1.
Proof.
  intros Hb. induction fuel as [|fuel IH]; intros l Hl Hne.
  - destruct l; [contradiction|simpl in Hl; lia].
  - destruct l as [|a l]; [contradiction|]. cbn [chunks_fuel].
    destruct (Nat.le_gt_cases (length (a :: l)) b) as [Hle|Hgt].
    + rewrite skipn_all2 by exact Hle. rewrite firstn_all2 by exact Hle.
      exists [], (a :: l). split; [destruct fuel; reflexivity|]. split; [constructor|].
      rewrite Nat.mod_small by (cbn [length] in *; lia). cbn [length]. lia.
    + destruct (IH (skipn b (a :: l))) as (front & last_chunk & E & Hf & Hlast).
      * rewrite length_skipn. cbn [length] in *. lia.
      * intros E. apply (f_equal (@length A)) in E. rewrite length_skipn in E.
        cbn [length] in *. lia.
      * exists (firstn b (a :: l) :: front), last_chunk. rewrite E.
        split; [reflexivity|]. split.
        -- constructor; [|exact Hf]. rewrite length_firstn. lia.
        -- rewrite Hlast, length_skipn.
           replace (length (a :: l) - 1) with ((length (a :: l) - b - 1) + 1 * b) by lia.
           now rewrite Nat.Div0.mod_add.
Qed.

Section EpochFacts.

Context `{TL : TensorLib}.

Variables A B : Type.
Variable collate : list A -> B.

(** As many calls of [next] as there are batches left return them from the
    last to the first and draw nothing. *)
Lemma next_n_drains (X : list A) (batch_size : nat) (r : rng) :
  forall data : list B,
    next_n collate (length data) (mkDataGetter X batch_size data) r
    = Ok ((rev data, mkDataGetter X batch_size []), r).
Proof.
  intros data. induction data as [|b data IH] using rev_ind; [reflexivity|].
  rewrite length_app, Nat.add_comm. cbn [length Nat.add next_n].
  rewrite bind_run, next_pops. cbn [snd fst]. rewrite bind_run, IH.
  rewrite rev_app_distr. reflexivity.
Qed.

Lemma get_training_cycler_data (X : list A) (batch_size : nat) (seed : Z) (r : rng) :
  X <> [] -> 1 <= batch_size ->
  exists items r0,
    Permutation items X
    /\ get_training_cycler collate X batch_size seed r
       = Ok (mkDataGetter X batch_size (map collate (chunks batch_size items)), r0).
Proof.
  intros HX Hb.
  destruct (@loader_pass_ok _ _ _ collate X batch_size (manual_seed seed) HX Hb)
    as (items & Hp & Hpass).
  exists items, (snd (randperm (length X) (manual_seed seed))). split; [exact Hp|].
  unfold get_training_cycler, __init__. rewrite bind_run.
  unfold seed_generator. cbn [dg_X dg_batch_size].
  rewrite bind_run, Hpass. reflexivity.
Qed.

(** X8.  One epoch of the cycler.  Over a non-empty data set with a positive
    batch size, [get_training_cycler] holds [ceil(len(X) / batch_size)]
    batches of at most [batch_size] items that together contain every item
    of [X] exactly once; that many calls of [next] return all of them, from
    the last batch of the pass to the first, without drawing from the
    generator, and leave the cycler empty. *)
Theorem DataGetter_epoch (X : list A) (batch_size : nat) (seed : Z) (r : rng) :
  X <> [] -> 1 <= batch_size ->
  exists batches r0,
    get_training_cycler collate X batch_size seed r
    = Ok (mkDataGetter X batch_size (map collate batches), r0)
    /\ Permutation (concat batches) X
    /\ length batches = batches_per_pass (length X) batch_size
    /\ Forall (fun c => 1 <= length c <= batch_size) batches
    /\ next_n collate (batches_per_pass (length X) batch_size)
              (mkDataGetter X batch_size (map collate batches)) r0
       = Ok ((map collate (rev batches), mkDataGetter X batch_size []), r0).
Proof.
  intros HX Hb.
  destruct (@get_training_cycler_data X batch_size seed r HX Hb) as (items & r0 & Hp & Hc).
  assert (Hlen : length (chunks batch_size items) = batches_per_pass (length X) batch_size).
  { unfold chunks. rewrite chunks_fuel_length by trivial.
    now rewrite (Permutation_length Hp). }
  exists (chunks batch_size items), r0.
  split; [exact Hc|]. split; [now rewrite chunks_concat|]. split; [exact Hlen|].
  split; [now apply chunks_fuel_sizes|].
  rewrite <- Hlen, <- (length_map collate), next_n_drains, map_rev. reflexivity.
Qed.

(** X9.  The first batch the cycler returns is the last batch of the shuffled
    pass: all the other batches hold [batch_size] items, this one holds the
    remainder, [(len(X) - 1) mod batch_size + 1] items. *)
Theorem DataGetter_first_batch_is_the_remainder (X : list A) (batch_size : nat)
        (seed : Z) (r : rng) :
  X <> [] -> 1 <= batch_size ->
  exists full last_batch r0,
    get_training_cycler collate X batch_size seed r
    = Ok (mkDataGetter X batch_size (map collate (full ++ [last_batch])), r0)
    /\ Permutation (concat full ++ last_batch) X
    /\ Forall (fun c => length c = batch_size) full
    /\ length last_batch = (length X - 1) mod batch_size + 1
    /\ __next__ collate (mkDataGetter X batch_size (map collate (full ++ [last_batch]))) r0
       = Ok ((collate last_batch, mkDataGetter X batch_size (map collate full)), r0).
Proof.
  intros HX Hb.
  destruct (@get_training_cycler_data X batch_size seed r HX Hb) as (items & r0 & Hp & Hc).
  assert (Hne : items <> []).
  { intros ->. apply Permutation_nil in Hp. contradiction. }
  destruct (@chunks_fuel_last A batch_size Hb (length items) items (le_n _) Hne)
    as (full & last_batch & E & Hfull & Hlast).
  fold (chunks batch_size items) in E.
  exists full, last_batch, r0. rewrite <- E.
  split; [exact Hc|]. split; [|split; [exact Hfull|split]].
  - replace (concat full ++ last_batch) with (concat (chunks batch_size items)).
    + now rewrite chunks_concat.
    + rewrite E, concat_app. cbn [concat]. now rewrite app_nil_r.
  - now rewrite Hlast, (Permutation_length Hp).
  - rewrite E, map_app. cbn [map]. apply next_pops.
Qed.

End EpochFacts.

Lemma DataGetter_epoch_witness :
  exists batches r0,
    get_training_cycler (TL := Ideal.ideal) (fun items : list nat => items)
                        [1; 2; 3] 2 0%Z 0%nat
    = Ok (mkDataGetter [1; 2; 3] 2 (map (fun items : list nat => items) batches), r0)
    /\ Permutation (concat batches) [1; 2; 3]
    /\ length batches = 2.
Proof.
  destruct (@DataGetter_epoch Ideal.ideal nat (list nat) (fun items => items)
              [1; 2; 3] 2 0%Z 0%nat ltac:(discriminate) ltac:(lia))
    as (batches & r0 & H1 & H2 & H3 & _).
  exists batches, r0. auto.
Defined.

Lemma DataGetter_first_batch_is_the_remainder_witness :
  exists full last_batch r0,
    get_training_cycler (TL := Ideal.ideal) (fun items : list nat => items)
                        [1; 2; 3] 2 0%Z 0%nat
    = Ok (mkDataGetter [1; 2; 3] 2
            (map (fun items : list nat => items) (full ++ [last_batch])), r0)
    /\ length last_batch = 1.
Proof.
  destruct (@DataGetter_first_batch_is_the_remainder Ideal.ideal nat (list nat)
              (fun items => items) [1; 2; 3] 2 0%Z 0%nat ltac:(discriminate) ltac:(lia))
    as (full & last_batch & r0 & H1 & _ & _ & H4 & _).
  exists full, last_batch, r0. auto.
Defined.

(** ** The circuit of [D] *)

Lemma combinations_too_many {A : Type} (l : list A) (k : nat) :
  length l < k -> combinations l k = [].
Proof.
  intros H. apply length_zero_iff_nil. rewrite combinations_length.
  now apply binom_gt.
Qed.

Lemma flat_map_all_nil {A B : Type} (f : A -> list B) (l : list A) :
  (forall a, In a l -> f a = []) -> flat_map f l = [].
Proof.
  induction l as [|a l IH]; intros H; simpl; trivial.
  rewrite (H a (or_introl eq_refl)), IH; trivial.
  intros a' Ha'. apply H. now right.
Qed.

Lemma subsets_upto_beyond (n k : nat) : n <= k -> subsets_upto n k = subsets_upto n n.
Proof.
  intros H. unfold subsets_upto, range2.
  replace (k + 1 - 1) with (n + (k - n)) by lia.
  replace (n + 1 - 1) with n by lia.
  rewrite seq_app, flat_map_app, (@flat_map_all_nil _ _ _ (seq (1 + n) (k - n))).
  - apply app_nil_r.
  - intros i Hi. apply in_seq in Hi. apply combinations_too_many.
    unfold range. rewrite length_seq. lia.
Qed.

Lemma list_sum_seq_S (f : nat -> nat) (m : nat) :
  list_sum (map f (seq 0 (S m))) = list_sum (map f (seq 0 m)) + f m.
Proof. rewrite seq_S, map_app, list_sum_app. simpl. lia. Qed.

(** Pascal's rule, summed over a row. *)
Lemma binom_row_step (n m : nat) :
  list_sum (map (binom (S n)) (seq 0 (S m)))
  = list_sum (map (binom n) (seq 0 (S m))) + list_sum (map (binom n) (seq 0 m)).
Proof.
  induction m as [|m IH]; [destruct n; reflexivity|].
  pose proof (list_sum_seq_S (binom (S n)) (S m)) as H1.
  pose proof (list_sum_seq_S (binom n) (S m)) as H2.
  pose proof (list_sum_seq_S (binom n) m) as H3.
  change (binom (S n) (S m)) with (binom n m + binom n (S m)) in H1.
  lia.
Qed.

Lemma binom_row_sum (n : nat) : list_sum (map (binom n) (seq 0 (S n))) = 2 ^ n.
Proof.
  induction n as [|n IH]; [reflexivity|].
  pose proof (binom_row_step n (S n)) as H1.
  pose proof (list_sum_seq_S (binom n) (S n)) as H2.
  rewrite (@binom_gt n (S n)) in H2 by lia.
  cbn [Nat.pow]. lia.
Qed.

Lemma walsh_terms_full (n : nat) : walsh_terms n n = 2 ^ n - 1.
Proof.
  pose proof (binom_row_sum n) as H.
  rewrite <- cons_seq in H. cbn [map list_sum] in H.
  unfold walsh_terms, range2. replace (n + 1 - 1) with n by lia.
  replace (binom n 0) with 1 in H by (destruct n; reflexivity).
  change (list_sum (1 :: map (binom n) (seq 1 n)))
    with (1 + list_sum (map (binom n) (seq 1 n))) in H.
  lia.
Qed.

Section CircuitProperties.

Context `{TL : TensorLib}.

Lemma blocks_firstn (combs : list (list nat)) :
  forall (gamma : tensor) (m : nat),
    length combs <= m -> blocks combs (firstn m gamma) = blocks combs gamma.
Proof.
  induction combs as [|c combs IH]; intros gamma m Hm; [reflexivity|].
  destruct m as [|m]; [simpl in Hm; lia|].
  destruct gamma as [|g gamma]; [reflexivity|].
  cbn [firstn blocks]. rewrite IH by (simpl in Hm; lia). reflexivity.
Qed.

(** What [D] returns, when it returns. *)
Lemma D_returns (gamma : tensor) (n : nat) (k : option nat) (cnt : nat)
      (tape : list gate) :
  D gamma n k = Ok (cnt, tape) ->
  let k' := match k with None => n | Some k => k end in
  walsh_terms n k' <= length gamma
  /\ cnt = walsh_terms n k'
  /\ tape = blocks (subsets_upto n k') gamma.
Proof.
  intros H k'.
  assert (E : D gamma n k = D gamma n (Some k')) by (destruct k; reflexivity).
  rewrite E in H. clear E.
  destruct (Nat.le_gt_cases (walsh_terms n k') (length gamma)) as [Hle|Hgt].
  - rewrite D_as_single_loop, D_inner_loop in H.
    + cbn [Nat.add skipn app] in H. injection H as <- <-.
      split; [exact Hle|]. split; [apply subsets_upto_length|reflexivity].
    + apply subsets_upto_nonempty.
    + rewrite subsets_upto_length. simpl. exact Hle.
  - rewrite D_short_gamma in H by exact Hgt. discriminate.
Qed.

Lemma consecutive_pairs_sorted (n : nat) (c : list nat) :
  StronglySorted lt c -> Forall (fun q => q < n) c ->
  Forall (fun w => well_placed n (CNOT w)) (consecutive_pairs c).
Proof.
  induction c as [|a [|b t] IH]; intros Hs Hn; try constructor.
  - inversion Hs as [|? ? _ Hall]; subst. inversion Hall; subst.
    inversion Hn as [|? ? _ Hn']; subst. inversion Hn'; subst.
    simpl. lia.
  - apply IH; [now inversion Hs|now inversion Hn].
Qed.

Lemma last_in_range (n : nat) (c : list nat) :
  c <> [] -> Forall (fun q => q < n) c -> last c 0 < n.
Proof.
  intros Hne Hn. apply (proj1 (Forall_forall _ c) Hn).
  destruct (exists_last Hne) as (c' & q & ->). rewrite last_last.
  apply in_or_app. right. now left.
Qed.

Lemma walsh_block_well_placed (n : nat) (c : list nat) (phi : scalar) :
  StronglySorted lt c -> Forall (fun q => q < n) c ->
  Forall (well_placed n) (walsh_block c phi).
Proof.
  intros Hs Hn. pose proof (consecutive_pairs_sorted Hs Hn) as Hp.
  destruct c as [|a [|b t]]; [constructor| |].
  - repeat constructor. now inversion Hn.
  - unfold walsh_block. apply Forall_app. split; [|apply Forall_app; split].
    + apply Forall_map. exact Hp.
    + repeat constructor.
      change (well_placed n (RZ phi [last (a :: b :: t) 0])) with (last (a :: b :: t) 0 < n).
      apply last_in_range; [discriminate|exact Hn].
    + apply Forall_map, Forall_rev. exact Hp.
Qed.

Lemma blocks_well_placed (n : nat) (combs : list (list nat)) :
  Forall (fun c => StronglySorted lt c /\ Forall (fun q => q < n) c) combs ->
  forall gamma : tensor, Forall (well_placed n) (blocks combs gamma).
Proof.
  induction 1 as [|c combs [Hs Hn] _ IH]; intros [|g gamma]; try constructor.
  cbn [blocks]. apply Forall_app. split; [now apply walsh_block_well_placed|apply IH].
Qed.

Lemma subsets_upto_sorted (n k : nat) :
  Forall (fun c => StronglySorted lt c /\ Forall (fun q => q < n) c) (subsets_upto n k).
Proof.
  apply Forall_forall. intros c Hc. apply subsets_upto_spec in Hc. tauto.
Qed.

(** *** The action on basis states *)

Lemma apply_gate_ext (g : gate) (b1 b2 : nat -> bool) :
  (forall q, b1 q = b2 q) -> forall q, apply_gate g b1 q = apply_gate g b2 q.
Proof.
  intros H q. destruct g as [phi ws|[|c [|t [|x ws]]]]; simpl; trivial.
  rewrite !H. reflexivity.
Qed.

Lemma run_tape_ext (tape : list gate) :
  forall b1 b2 : nat -> bool,
    (forall q, b1 q = b2 q) -> forall q, run_tape tape b1 q = run_tape tape b2 q.
Proof.
  unfold run_tape. induction tape as [|g tape IH]; intros b1 b2 H q; simpl; trivial.
  apply IH. now apply apply_gate_ext.
Qed.

Lemma run_tape_app (t1 t2 : list gate) (bits : nat -> bool) :
  run_tape (t1 ++ t2) bits = run_tape t2 (run_tape t1 bits).
Proof. unfold run_tape. apply fold_left_app. Qed.

Lemma cnot_twice (n : nat) (w : list nat) (bits : nat -> bool) :
  well_placed n (CNOT w) ->
  forall q, apply_gate (CNOT w) (apply_gate (CNOT w) bits) q = bits q.
Proof.
  destruct w as [|c [|t [|x w]]]; simpl; try contradiction.
  intros Hct q. rewrite Nat.eqb_refl.
  replace (c =? t) with false by (symmetry; apply Nat.eqb_neq; lia).
  destruct (q =? t) eqn:E; trivial.
  apply Nat.eqb_eq in E. subst q. now destruct (bits t), (bits c).
Qed.

(** A chain of CNOTs, a diagonal part, and the chain undone. *)
Lemma conjugated_diagonal (n : nat) (ws : list (list nat)) (mid : list gate) :
  Forall (fun w => well_placed n (CNOT w)) ws ->
  (forall bits q, run_tape mid bits q = bits q) ->
  forall bits q,
    run_tape (map CNOT ws ++ mid ++ map CNOT (rev ws)) bits q = bits q.
Proof.
  intros Hws. revert mid. induction Hws as [|w ws Hw _ IH]; intros mid Hmid bits q.
  - cbn [map rev app]. rewrite app_nil_r. apply Hmid.
  - cbn [map rev app]. rewrite map_app. cbn [map].
    replace (map CNOT ws ++ mid ++ map CNOT (rev ws) ++ [CNOT w])
      with ((map CNOT ws ++ mid ++ map CNOT (rev ws)) ++ [CNOT w])
      by (now rewrite <- !app_assoc).
    change (run_tape (CNOT w :: ?t) bits)
      with (run_tape t (apply_gate (CNOT w) bits)).
    rewrite run_tape_app.
    change (run_tape [CNOT w] ?b) with (apply_gate (CNOT w) b).
    transitivity (apply_gate (CNOT w) (apply_gate (CNOT w) bits) q).
    + apply apply_gate_ext. intros q'. apply (IH mid Hmid).
    + apply (@cnot_twice n w bits Hw q).
Qed.

Lemma walsh_block_diagonal (n : nat) (c : list nat) (phi : scalar) :
  StronglySorted lt c -> Forall (fun q => q < n) c ->
  forall bits q, run_tape (walsh_block c phi) bits q = bits q.
Proof.
  intros Hs Hn bits q. pose proof (consecutive_pairs_sorted Hs Hn) as Hp.
  destruct c as [|a [|b t]]; try reflexivity.
  unfold walsh_block. apply conjugated_diagonal with (n := n); [exact Hp|reflexivity].
Qed.

Lemma blocks_diagonal (n : nat) (combs : list (list nat)) :
  Forall (fun c => StronglySorted lt c /\ Forall (fun q => q < n) c) combs ->
  forall (gamma : tensor) bits q, run_tape (blocks combs gamma) bits q = bits q.
Proof.
  induction 1 as [|c combs [Hs Hn] _ IH]; intros [|g gamma] bits q; try reflexivity.
  cbn [blocks]. rewrite run_tape_app.
  rewrite IH. now apply walsh_block_diagonal with (n := n).
Qed.

(** X10.  A locality larger than the number of qubits adds nothing: there is
    no subset of more than [n] qubits, so [D] with [k >= n] is [D] with
    [k = n], the default. *)
Theorem D_locality_beyond_qubits (gamma : tensor) (n k : nat) :
  n <= k -> D gamma n (Some k) = D gamma n None.
Proof.
  intros H. change (D gamma n None) with (D gamma n (Some n)).
  rewrite !D_as_single_loop, subsets_upto_beyond by exact H. reflexivity.
Qed.

(** X11.  With the default locality [D] has one rotation for every non-empty
    subset of the qubits: it returns exactly when [gamma] has at least
    [2^n - 1] entries, the counter then ends at [2^n - 1] and the rotation
    angles are the first [2^n - 1] entries of [gamma]; with fewer entries
    it raises [IndexError]. *)
Theorem D_full_expansion (gamma : tensor) (n : nat) :
  (2 ^ n - 1 <= length gamma ->
   exists tape,
     D gamma n None = Ok (2 ^ n - 1, tape)
     /\ rz_angles tape = firstn (2 ^ n - 1) gamma
     /\ count_rz tape = 2 ^ n - 1)
  /\ (length gamma < 2 ^ n - 1 -> D gamma n None = Raise IndexError).
Proof.
  change (D gamma n None) with (D gamma n (Some n)).
  rewrite <- walsh_terms_full. split; intros H.
  - exists (blocks (subsets_upto n n) gamma).
    assert (Hang : rz_angles (blocks (subsets_upto n n) gamma)
                   = firstn (walsh_terms n n) gamma).
    { rewrite <- subsets_upto_length. apply rz_angles_blocks.
      - apply subsets_upto_nonempty.
      - now rewrite subsets_upto_length. }
    split; [|split; [exact Hang|]].
    + rewrite D_as_single_loop, D_inner_loop.
      * cbn [Nat.add skipn app]. now rewrite subsets_upto_length.
      * apply subsets_upto_nonempty.
      * rewrite subsets_upto_length. simpl. exact H.
    + unfold count_rz. rewrite Hang, length_firstn. lia.
  - now apply D_short_gamma.
Qed.

(** X12.  [D] reads the first [sum_{i=1..k} C(n,i)] entries of [gamma] and no
    others: entries beyond them do not change the circuit. *)
Theorem D_ignores_further_gamma (gamma : tensor) (n k : nat) :
  walsh_terms n k <= length gamma ->
  D (firstn (walsh_terms n k) gamma) n (Some k) = D gamma n (Some k).
Proof.
  intros H. rewrite !D_as_single_loop, !D_inner_loop.
  - cbn [skipn]. rewrite <- subsets_upto_length, blocks_firstn; trivial.
  - apply subsets_upto_nonempty.
  - rewrite subsets_upto_length. simpl. exact H.
  - apply subsets_upto_nonempty.
  - rewrite subsets_upto_length, length_firstn. simpl. lia.
Qed.

(** X13.  Every operation [D] queues is on valid wires: each rotation acts on
    one qubit below [n], each CNOT on a pair [control < target < n]. *)
Theorem D_wires_in_range (gamma : tensor) (n : nat) (k : option nat) (cnt : nat)
        (tape : list gate) :
  D gamma n k = Ok (cnt, tape) -> Forall (well_placed n) tape.
Proof.
  intros H. apply D_returns in H as (_ & _ & ->).
  apply blocks_well_placed, subsets_upto_sorted.
Qed.

(** X14.  The circuit of [D] is diagonal in the computational basis: on every
    basis state the CNOTs of each block undo each other and the rotations
    change phases only, so the tape maps every bit string to itself. *)
Theorem D_is_diagonal (gamma : tensor) (n : nat) (k : option nat) (cnt : nat)
        (tape : list gate) :
  D gamma n k = Ok (cnt, tape) ->
  forall bits q, run_tape tape bits q = bits q.
Proof.
  intros H. apply D_returns in H as (_ & _ & ->).
  apply blocks_diagonal with (n := n), subsets_upto_sorted.
Qed.

End CircuitProperties.

Lemma D_locality_beyond_qubits_witness :
  D (TL := Ideal.ideal) gamma6 2 (Some 5) = D (TL := Ideal.ideal) gamma6 2 None.
Proof. apply (@D_locality_beyond_qubits Ideal.ideal). lia. Defined.

Lemma D_ignores_further_gamma_witness :
  D (TL := Ideal.ideal) (firstn (walsh_terms 2 2) gamma6) 2 (Some 2)
  = D (TL := Ideal.ideal) gamma6 2 (Some 2).
Proof. apply (@D_ignores_further_gamma Ideal.ideal). vm_compute. lia. Defined.

Lemma D_wires_in_range_witness :
  Forall (well_placed (H := Ideal.ideal) 3)
         [ rz 1 0; rz 2 1; rz 3 2;
           cnot 0 1; rz 4 1; cnot 0 1;
           cnot 0 2; rz 5 2; cnot 0 2;
           cnot 1 2; rz 6 2; cnot 1 2 ].
Proof.
  apply (@D_wires_in_range Ideal.ideal gamma6 3 (Some 2) 6). reflexivity.
Defined.

Lemma D_is_diagonal_witness :
  run_tape (H := Ideal.ideal)
           [ rz 1 0; rz 2 1; rz 3 2;
             cnot 0 1; rz 4 1; cnot 0 1;
             cnot 0 2; rz 5 2; cnot 0 2;
             cnot 1 2; rz 6 2; cnot 1 2 ] Nat.odd 1
  = Nat.odd 1.
Proof.
  apply (@D_is_diagonal Ideal.ideal gamma6 3 (Some 2) 6). reflexivity.
Defined.

(** ** The fidelity, the loss and the scores *)

Lemma combine_firstn_left {A B : Type} (a : list A) :
  forall b : list B, combine (firstn (length b) a) b = combine a b.
Proof.
  induction a as [|x a IH]; intros [|y b]; simpl; trivial. now rewrite IH.
Qed.

Lemma setitem_length {A : Type} (l l' : list A) (i : nat) (v : A) :
  setitem l i v = Ok l' -> length l' = length l.
Proof.
  unfold setitem. destruct (i <? length l) eqn:E; [|discriminate].
  apply Nat.ltb_lt in E. intros H.
  assert (E' : l' = firstn i l ++ v :: skipn (S i) l) by congruence.
  rewrite E', length_app, length_firstn.
  change (length (v :: skipn (S i) l)) with (S (length (skipn (S i) l))).
  rewrite length_skipn. lia.
Qed.




Lemma key_index_present {V : Type} (d : dict V) (key : string) :
  In key (map fst d) -> exists i, key_index d key = Ok i.
Proof.
  induction d as [|[k v] d IH]; intros H; [contradiction|]. cbn [key_index].
  destruct (String.eqb k key) eqn:E; [now exists 0|].
  destruct IH as (i & ->).
  - destruct H as [H|H]; trivial. cbn [fst] in H. subst k.
    rewrite String.eqb_refl in E. discriminate.
  - now exists (S i).
Qed.

Section LossProperties.

Context `{TL : TensorLib}.

Variable callable_proj : tensor -> tensor -> tensor -> tensor -> scalar.

Lemma for_eachM_ext {A S : Type} (f g : S -> A -> M S) (l : list A) :
  (forall s a r, f s a r = g s a r) ->
  forall s r, for_eachM f s l r = for_eachM g s l r.
Proof.
  intros H. induction l as [|a l IH]; intros s r; [reflexivity|].
  cbn [for_eachM]. rewrite !bind_run, H.
  destruct (g s a r) as [[s' r']|e]; trivial.
Qed.

Lemma for_eachM_app {A S : Type} (f : S -> A -> M S) (l1 l2 : list A) :
  forall s r,
    for_eachM f s (l1 ++ l2) r
    = bind (for_eachM f s l1) (fun s' => for_eachM f s' l2) r.
Proof.
  induction l1 as [|a l1 IH]; intros s r; [reflexivity|].
  cbn [for_eachM app]. rewrite !bind_run.
  destruct (f s a r) as [[s' r']|e]; [apply IH|reflexivity].
Qed.

Lemma for_eachM_keeps {A S : Type} (f : S -> A -> M S) (P : S -> Prop) (l : list A) :
  (forall s a r s' r', P s -> f s a r = Ok (s', r') -> P s') ->
  forall s r s' r', P s -> for_eachM f s l r = Ok (s', r') -> P s'.
Proof.
  intros H. induction l as [|a l IH]; intros s r s' r' Hs; cbn [for_eachM].
  - unfold ret. intros [= <- _]. exact Hs.
  - rewrite bind_run. destruct (f s a r) as [[s1 r1]|e] eqn:E; [|discriminate].
    apply IH. eapply H; eassumption.
Qed.

Lemma bshape_raises (a b : nat) (e : exn) : bshape a b = Raise e -> e = RuntimeError.
Proof.
  unfold bshape. destruct (a =? b); [discriminate|].
  destruct (a =? 1); [discriminate|]. destruct (b =? 1); [discriminate|].
  now intros [= <-].
Qed.

Lemma sample_gammas_abs (sigma sigma' mu : tensor) (noise : list tensor) (cols : nat) :
  map t_abs sigma = map t_abs sigma' ->
  sample_gammas sigma mu noise cols = sample_gammas sigma' mu noise cols.
Proof.
  intros H. unfold sample_gammas. rewrite H.
  replace (length sigma) with (length sigma'); trivial.
  rewrite <- (length_map t_abs sigma'), <- H. apply length_map.
Qed.

Lemma F_abs (xt t alpha mu sigma sigma' : tensor) (gamma_length n_samples : nat)
      (r : rng) :
  map t_abs sigma = map t_abs sigma' ->
  F callable_proj xt t alpha mu sigma gamma_length n_samples r
  = F callable_proj xt t alpha mu sigma' gamma_length n_samples r.
Proof.
  intros H. rewrite !F_mean.
  destruct (draws (draws randn1 gamma_length) n_samples r) as [noise r'].
  now rewrite (@sample_gammas_abs sigma sigma' mu noise gamma_length H).
Qed.

Lemma callable_arctan_penalty_abs (tau : scalar) (sigma sigma' : tensor) :
  map t_abs sigma = map t_abs sigma' ->
  callable_arctan_penalty tau sigma = callable_arctan_penalty tau sigma'.
Proof.
  intros H. unfold callable_arctan_penalty.
  rewrite <- (map_map t_abs
                (fun a => t_arctan (t_mul (t_mul (t_mul (lit 2) t_pi) tau) a)) sigma).
  rewrite <- (map_map t_abs
                (fun a => t_arctan (t_mul (t_mul (t_mul (lit 2) t_pi) tau) a)) sigma').
  now rewrite H.
Qed.

(** The loop of [get_anomaly_score], whatever [get_time_resolved]. *)
Lemma get_anomaly_score_loop (x T alpha mu sigma : tensor)
      (gamma_length n_samples : nat) (get_time_resolved : bool) (r : rng) :
  length T <= length x ->
  get_anomaly_score callable_proj x T alpha mu sigma gamma_length n_samples
                    get_time_resolved r
  = (sq <- mapM (squared_deviation callable_proj alpha mu sigma gamma_length n_samples)
             (combine x T) ;;
     ret (if get_time_resolved then TimeResolved sq (t_mean sq)
          else Averaged (t_mean sq))) r.
Proof.
  intros Hlen. unfold get_anomaly_score. rewrite !bind_run.
  rewrite deviation_loop by (trivial; apply torch_empty_length). reflexivity.
Qed.

Lemma squared_deviation_total (alpha mu sigma : tensor) (gamma_length n_samples : nat) :
  shapes_ok (length sigma) (length mu) gamma_length ->
  forall point r, exists v r',
    squared_deviation callable_proj alpha mu sigma gamma_length n_samples point r
    = Ok (v, r').
Proof.
  intros Hs [xt t] r. unfold squared_deviation. rewrite bind_run. cbn [fst snd].
  destruct (@F_total _ callable_proj (unsqueeze0 xt) (unsqueeze0 t) alpha mu sigma
              gamma_length n_samples r Hs) as (v & r1 & ->).
  eexists _, _. reflexivity.
Qed.

(** X15.  For a projector that returns a value on every input, [F] either
    returns or raises [RuntimeError], and which one depends on the shapes
    only: it returns exactly when the lengths of [sigma] and
    [mu] broadcast against a row of [gamma_length] samples. *)
Theorem F_returns_iff_shapes_broadcast (xt t alpha mu sigma : tensor)
        (gamma_length n_samples : nat) (r : rng) :
  (shapes_ok (length sigma) (length mu) gamma_length
   /\ exists v r',
        F callable_proj xt t alpha mu sigma gamma_length n_samples r = Ok (v, r'))
  \/ (~ shapes_ok (length sigma) (length mu) gamma_length
      /\ F callable_proj xt t alpha mu sigma gamma_length n_samples r
         = Raise RuntimeError).
Proof.
  destruct (bshape (length sigma) gamma_length) as [w|e] eqn:Ew.
  - destruct (bshape w (length mu)) as [w'|e] eqn:Ew'.
    + left. assert (Hs : shapes_ok (length sigma) (length mu) gamma_length)
        by (now exists w, w').
      split; [exact Hs|]. now apply F_total.
    + right. split.
      * intros (w0 & w0' & H0 & H0'). congruence.
      * rewrite F_mean.
        destruct (draws (draws randn1 gamma_length) n_samples r) as [noise r'].
        unfold sample_gammas. rewrite Ew. cbn [rbind]. rewrite Ew'. cbn [rbind].
        now rewrite (bshape_raises _ _ Ew').
  - right. split.
    + intros (w0 & w0' & H0 & H0'). congruence.
    + rewrite F_mean.
      destruct (draws (draws randn1 gamma_length) n_samples r) as [noise r'].
      unfold sample_gammas. rewrite Ew. cbn [rbind].
      now rewrite (bshape_raises _ _ Ew).
Qed.

(** X16.  The loss and the anomaly score depend on [sigma] through its
    absolute values only: two [sigma] with the same [abs()] give the same
    loss under the arctan penalty and the same anomaly score, draw for
    draw. *)
Theorem loss_depends_on_abs_sigma (batch : tensor * tensor)
        (x T alpha mu sigma sigma' : tensor) (gamma_length n_samples : nat)
        (tau : scalar) (get_time_resolved : bool) (r : rng) :
  map t_abs sigma = map t_abs sigma' ->
  get_loss callable_proj batch alpha mu sigma gamma_length n_samples
           (callable_arctan_penalty tau) r
  = get_loss callable_proj batch alpha mu sigma' gamma_length n_samples
             (callable_arctan_penalty tau) r
  /\ get_anomaly_score callable_proj x T alpha mu sigma gamma_length n_samples
                       get_time_resolved r
     = get_anomaly_score callable_proj x T alpha mu sigma' gamma_length n_samples
                         get_time_resolved r.
Proof.
  intros H. split.
  - destruct batch as [X_batch T_batch]. unfold get_loss. rewrite !bind_run.
    rewrite (@callable_arctan_penalty_abs tau sigma sigma' H).
    erewrite for_eachM_ext; [reflexivity|].
    intros buf i r0. rewrite !bind_run.
    destruct (lift (index X_batch i) r0) as [[xi r1]|e]; trivial. rewrite !bind_run.
    destruct (lift (index T_batch i) r1) as [[ti r2]|e]; trivial. rewrite !bind_run.
    now rewrite (@F_abs (unsqueeze0 xi) (unsqueeze0 ti) alpha mu sigma sigma' gamma_length n_samples r2 H).
  - unfold get_anomaly_score. rewrite !bind_run.
    erewrite for_eachM_ext; [reflexivity|].
    intros buf i r0. rewrite !bind_run.
    destruct (lift (index x i) r0) as [[xi r1]|e]; trivial. rewrite !bind_run.
    destruct (lift (index T i) r1) as [[ti r2]|e]; trivial. rewrite !bind_run.
    now rewrite (@F_abs (unsqueeze0 xi) (unsqueeze0 ti) alpha mu sigma sigma' gamma_length n_samples r2 H).
Qed.

(** X17.  With [n_samples = 0], [F] draws nothing and returns the mean of an
    empty tensor, so the loss does not depend on the projector or on the
    values of the batch: every squared deviation is
    [(1 - mean([]))^2]. *)
Theorem get_loss_without_samples (X_batch T_batch alpha mu sigma : tensor)
        (gamma_length : nat) (callable_penalty : tensor -> scalar) (r : rng) :
  length X_batch = length T_batch ->
  shapes_ok (length sigma) (length mu) gamma_length ->
  (forall xt t r0,
      F callable_proj xt t alpha mu sigma gamma_length 0 r0 = Ok (t_mean [], r0))
  /\ get_loss callable_proj (X_batch, T_batch) alpha mu sigma gamma_length 0
              callable_penalty r
     = Ok (t_add (t_mul (lit (1 # 2))
                        (t_mean (repeat (t_square (t_sub (lit 1) (t_mean [])))
                                        (length X_batch))))
                 (callable_penalty sigma), r).
Proof.
  intros Hlen (w & w' & Hw & Hw').
  assert (HF : forall xt t r0,
             F callable_proj xt t alpha mu sigma gamma_length 0 r0 = Ok (t_mean [], r0)).
  { intros xt t r0. rewrite F_mean. cbn [draws].
    unfold sample_gammas. rewrite Hw. cbn [rbind]. rewrite Hw'. reflexivity. }
  split; [exact HF|].
  rewrite get_loss_mean by exact Hlen. rewrite bind_run.
  assert (Hm : forall points r0,
             mapM (squared_deviation callable_proj alpha mu sigma gamma_length 0) points r0
             = Ok (repeat (t_square (t_sub (lit 1) (t_mean []))) (length points), r0)).
  { induction points as [|pt points IH]; intros r0; [reflexivity|].
    rewrite mapM_cons. unfold squared_deviation at 1. rewrite bind_run, HF.
    unfold ret. rewrite IH. reflexivity. }
  rewrite Hm, length_combine, <- Hlen, Nat.min_id. reflexivity.
Qed.

(** X18.  [get_time_resolved] only adds the tensor of squared deviations to
    the result: with it set, [get_anomaly_score] returns a tensor of [len(T)]
    scores and their mean, and that mean, the state of the generator and any
    exception are those of the call without it. *)
Theorem get_anomaly_score_time_resolved (x T alpha mu sigma : tensor)
        (gamma_length n_samples : nat) (r : rng) :
  match get_anomaly_score callable_proj x T alpha mu sigma gamma_length n_samples
                          true r with
  | Ok (TimeResolved score m, r') =>
      length score = length T /\ m = t_mean score
      /\ get_anomaly_score callable_proj x T alpha mu sigma gamma_length n_samples
                           false r = Ok (Averaged m, r')
  | Ok (Averaged _, _) => False
  | Raise e =>
      get_anomaly_score callable_proj x T alpha mu sigma gamma_length n_samples
                        false r = Raise e
  end.
Proof.
  unfold get_anomaly_score. rewrite !bind_run.
  match goal with |- context [for_eachM ?b _ _ r] => set (body := b) end.
  destruct (for_eachM body (torch_empty (length T)) (range (length T)) r)
    as [[score r']|e] eqn:E; unfold ret; cbv beta iota; [|reflexivity].
  split; [|split; reflexivity].
  apply (@for_eachM_keeps _ _ body (fun buf => length buf = length T)) in E; trivial.
  - clear. intros buf i r buf' r' Hbuf. unfold body. rewrite !bind_run.
    destruct (lift (index x i) r) as [[xi r1]|e]; [|discriminate]. rewrite !bind_run.
    destruct (lift (index T i) r1) as [[ti r2]|e]; [|discriminate]. rewrite !bind_run.
    destruct (F callable_proj (unsqueeze0 xi) (unsqueeze0 ti) alpha mu sigma
                gamma_length n_samples r2) as [[f r3]|e]; [|discriminate].
    unfold lift.
    destruct (setitem buf i (t_square (t_sub (lit 1) f))) as [buf1|e] eqn:Es;
      [|discriminate].
    intros [= <- _]. apply setitem_length in Es. congruence.
  - apply torch_empty_length.
Qed.

(** X19.  The series and the time grid of [get_anomaly_score]: a series
    shorter than the grid raises [IndexError] (when the shapes of the
    parameters broadcast, so that [F] returns), and entries of the series
    beyond the grid are never read. *)
Theorem get_anomaly_score_series_length (x T alpha mu sigma : tensor)
        (gamma_length n_samples : nat) (get_time_resolved : bool) (r : rng) :
  shapes_ok (length sigma) (length mu) gamma_length ->
  (length x < length T ->
   get_anomaly_score callable_proj x T alpha mu sigma gamma_length n_samples
                     get_time_resolved r = Raise IndexError)
  /\ (length T <= length x ->
      get_anomaly_score callable_proj x T alpha mu sigma gamma_length n_samples
                        get_time_resolved r
      = get_anomaly_score callable_proj (firstn (length T) x) T alpha mu sigma
                          gamma_length n_samples get_time_resolved r).
Proof.
  intros Hs. split; intros Hlen.
  - unfold get_anomaly_score. rewrite bind_run.
    match goal with |- context [for_eachM ?b _ _ r] => set (body := b) end.
    set (c := fun i =>
                xi <- lift (index x i) ;;
                ti <- lift (index T i) ;;
                squared_deviation callable_proj alpha mu sigma gamma_length n_samples
                                  (xi, ti)).
    assert (Hbody : forall buf i r0,
               body buf i r0 = bind (c i) (fun v => lift (setitem buf i v)) r0).
    { intros buf i r0. unfold body, c, squared_deviation, bind, lift, ret. cbn [fst snd].
      destruct (index x i) as [xi|e]; trivial.
      destruct (index T i) as [ti|e]; trivial.
      destruct (F callable_proj (unsqueeze0 xi) (unsqueeze0 ti) alpha mu sigma
                  gamma_length n_samples r0) as [[f r1]|e]; trivial. }
    unfold range.
    replace (seq 0 (length T))
      with (seq 0 (length x) ++ seq (length x) (S (length T - length x - 1)))
      by (rewrite <- seq_app; f_equal; lia).
    rewrite for_eachM_app, bind_run.
    pose proof (@fillM_loop _ body c Hbody (length x) [] (torch_empty (length T)) r) as Hfill.
    cbn [app length] in Hfill.
    match goal with
    | |- context [for_eachM body ?s (seq 0 (length x)) r] =>
        replace (for_eachM body s (seq 0 (length x)) r)
          with ((vs <- mapM c (seq 0 (length x)) ;;
                 ret (vs ++ skipn (length x) (torch_empty (length T)))) r)
          by (symmetry; apply Hfill; rewrite torch_empty_length; lia)
    end.
    clear Hfill. rewrite bind_run.
    destruct (@mapM_total_in _ _ _ c (seq 0 (length x))) with (r := r) as (vs & r1 & ->).
    { intros i Hi r0. apply in_seq in Hi. unfold c. rewrite bind_run.
      destruct (@index_in_range _ x i) as (xi & Hxi); [lia|].
      destruct (@index_in_range _ T i) as (ti & Hti); [lia|].
      unfold lift at 1. rewrite Hxi. rewrite bind_run. unfold lift at 1. rewrite Hti.
      apply squared_deviation_total. exact Hs. }
    unfold ret at 1. cbn [seq for_eachM Nat.add]. rewrite bind_run, Hbody, bind_run.
    unfold c. rewrite bind_run. unfold lift at 1. unfold index.
    replace (nth_error x (length x)) with (@None scalar)
      by (symmetry; apply nth_error_None; lia).
    reflexivity.
  - rewrite !get_anomaly_score_loop by (rewrite ?length_firstn; lia).
    now rewrite combine_firstn_left.
Qed.


End LossProperties.

Lemma abs_of_minus_one :
  map (t_abs (TensorLib := Ideal.ideal)) [Ideal.Fin 1]
  = map (t_abs (TensorLib := Ideal.ideal)) [Ideal.Fin (-1)].
Proof.
  simpl. do 2 f_equal. unfold Rabs.
  destruct (Rcase_abs 1), (Rcase_abs (-1)); lra.
Qed.

Lemma loss_depends_on_abs_sigma_witness :
  get_loss (TL := Ideal.ideal) perfect_proj ([Ideal.Fin 0], [Ideal.Fin 1])
           [] [Ideal.Fin 0] [Ideal.Fin 1] 1 1
           (callable_arctan_penalty (TL := Ideal.ideal) (Ideal.Fin 5)) 0%nat
  = get_loss (TL := Ideal.ideal) perfect_proj ([Ideal.Fin 0], [Ideal.Fin 1])
             [] [Ideal.Fin 0] [Ideal.Fin (-1)] 1 1
             (callable_arctan_penalty (TL := Ideal.ideal) (Ideal.Fin 5)) 0%nat.
Proof.
  exact (proj1 (@loss_depends_on_abs_sigma Ideal.ideal perfect_proj
                  ([Ideal.Fin 0], [Ideal.Fin 1]) [] [] [] [Ideal.Fin 0]
                  [Ideal.Fin 1] [Ideal.Fin (-1)] 1 1 (Ideal.Fin 5) false 0%nat
                  abs_of_minus_one)).
Defined.

Lemma get_loss_without_samples_witness :
  get_loss (TL := Ideal.ideal) perfect_proj ([Ideal.Fin 0], [Ideal.Fin 1])
           [] [Ideal.Fin 0] [Ideal.Fin 1] 1 0
           (callable_arctan_penalty (TL := Ideal.ideal) (Ideal.Fin 5)) 0%nat
  = Ok (t_add (TensorLib := Ideal.ideal)
          (t_mul (TensorLib := Ideal.ideal) (lit (TensorLib := Ideal.ideal) (1 # 2))
             (t_mean (TensorLib := Ideal.ideal)
                [t_square (TensorLib := Ideal.ideal)
                   (t_sub (TensorLib := Ideal.ideal) (lit (TensorLib := Ideal.ideal) 1)
                      (t_mean (TensorLib := Ideal.ideal) []))]))
          (callable_arctan_penalty (TL := Ideal.ideal) (Ideal.Fin 5) [Ideal.Fin 1]),
        0%nat).
Proof.
  exact (proj2 (@get_loss_without_samples Ideal.ideal perfect_proj
                  [Ideal.Fin 0] [Ideal.Fin 1] [] [Ideal.Fin 0] [Ideal.Fin 1] 1
                  (callable_arctan_penalty (TL := Ideal.ideal) (Ideal.Fin 5)) 0%nat
                  eq_refl unit_shapes_ok)).
Defined.

Lemma get_anomaly_score_series_length_witness :
  get_anomaly_score (TL := Ideal.ideal) perfect_proj [] [Ideal.Fin 1]
                    [] [Ideal.Fin 0] [Ideal.Fin 1] 1 1 false 0%nat
  = Raise IndexError.
Proof.
  apply (proj1 (@get_anomaly_score_series_length Ideal.ideal perfect_proj
                  [] [Ideal.Fin 1] [] [Ideal.Fin 0] [Ideal.Fin 1] 1 1 false 0%nat
                  unit_shapes_ok)).
  simpl. lia.
Defined.


(** ** Accuracy and shapes *)

Lemma bshape_mismatch (a b : nat) :
  a <> b -> a <> 1 -> b <> 1 -> bshape a b = Raise RuntimeError.
Proof.
  intros Hab Ha Hb. unfold bshape.
  replace (a =? b) with false by (symmetry; now apply Nat.eqb_neq).
  replace (a =? 1) with false by (symmetry; now apply Nat.eqb_neq).
  replace (b =? 1) with false by (symmetry; now apply Nat.eqb_neq).
  reflexivity.
Qed.

Lemma bshape_one_right (a : nat) : bshape a 1 = Ok a \/ bshape a 1 = Ok 1.
Proof.
  unfold bshape. destruct (a =? 1) eqn:E.
  - apply Nat.eqb_eq in E. subst a. now left.
  - now left.
Qed.

Lemma bmap2_single_right {A B C : Type} (op : A -> B -> C) (a : list A) (y : B) :
  bmap2 op a [y] = map (fun x => op x y) a.
Proof. destruct a as [|x [|x' a]]; reflexivity. Qed.

Section AccuracyProperties.

Context `{TL : TensorLib}.

Lemma get_accuracy_score_mismatch (pred : list Z) (truth : tensor) :
  length pred <> length truth -> length pred <> 1 -> length truth <> 1 ->
  get_accuracy_score pred truth = Raise RuntimeError.
Proof.
  intros H1 H2 H3. unfold get_accuracy_score, broadcast2.
  now rewrite bshape_mismatch.
Qed.

(** X21.  The shapes [get_accuracy_score] accepts.  Predictions and truth of
    different lengths raise [RuntimeError] unless one of them has a single
    entry; a single truth label is compared with every prediction, and the
    number of agreeing predictions is then divided by one. *)
Theorem get_accuracy_score_broadcast (pred : list Z) (truth : tensor) (t : scalar) :
  (length pred <> length truth -> length pred <> 1 -> length truth <> 1 ->
   get_accuracy_score pred truth = Raise RuntimeError)
  /\ get_accuracy_score pred [t]
     = Ok (t_div (of_int (Z.of_nat (length (filter (fun p => t_eq (of_int p) t) pred))))
                 (of_int 1)).
Proof.
  split; [apply get_accuracy_score_mismatch|].
  unfold get_accuracy_score, broadcast2. cbn [length].
  destruct (bshape_one_right (length pred)) as [-> | ->]; cbn [rbind];
    now rewrite bmap2_single_right, count_true_map.
Qed.

(** X22.  The labels of [get_truth_labels] against the scores of two
    validation sets of different sizes: the accuracy cannot be computed,
    [get_accuracy_score] raises [RuntimeError] (two series or more in all;
    a single score would be broadcast). *)
Theorem accuracy_of_unequal_sets_raises (X_norm X_anom : list tensor)
        (zeta : scalar) (scores : tensor) :
  length scores = length X_norm + length X_anom ->
  length X_anom <> length X_norm -> 2 <= length X_norm + length X_anom ->
  get_accuracy_score (get_preds_given_threshold zeta scores)
                     (get_truth_labels X_norm X_anom)
  = Raise RuntimeError.
Proof.
  intros Hs Hne Htwo.
  assert (Hl : length (get_truth_labels X_norm X_anom) = 2 * length X_norm).
  { unfold get_truth_labels. rewrite length_app, length_map, !repeat_length. lia. }
  apply get_accuracy_score_mismatch; rewrite ?get_preds_length; lia.
Qed.

(** X23.  [threshold_scan_acc_score] with [steps = 0] returns an empty tensor
    without looking at the scores; with at least one step and lengths of
    scores and labels that do not broadcast it raises [RuntimeError]. *)
Theorem threshold_scan_acc_score_edges (scores truth : tensor)
        (zeta_min zeta_max : scalar) (steps : nat) :
  threshold_scan_acc_score scores truth zeta_min zeta_max 0 = Ok []
  /\ (1 <= steps ->
      length scores <> length truth -> length scores <> 1 -> length truth <> 1 ->
      threshold_scan_acc_score scores truth zeta_min zeta_max steps
      = Raise RuntimeError).
Proof.
  unfold threshold_scan_acc_score. split.
  - pose proof (linspace_length zeta_min zeta_max 0) as Hl.
    pose proof (torch_empty_length 0) as He.
    apply length_zero_iff_nil in Hl, He. rewrite Hl, He. reflexivity.
  - intros Hsteps H1 H2 H3.
    pose proof (linspace_length zeta_min zeta_max steps) as Hl.
    destruct (linspace zeta_min zeta_max steps) as [|z zs]; [simpl in Hl; lia|].
    unfold enumerate. cbn [length seq combine for_each fst snd].
    rewrite get_accuracy_score_mismatch by (rewrite ?get_preds_length; assumption).
    reflexivity.
Qed.

End AccuracyProperties.

Lemma accuracy_of_unequal_sets_raises_witness :
  get_accuracy_score (TL := Ideal.ideal)
    (get_preds_given_threshold (TL := Ideal.ideal) (Ideal.Fin 0)
       [Ideal.Fin 0; Ideal.Fin 0; Ideal.Fin 0])
    (get_truth_labels (TL := Ideal.ideal) [[]; []] [[]])
  = Raise RuntimeError.
Proof.
  apply (@accuracy_of_unequal_sets_raises Ideal.ideal [[]; []] [[]] (Ideal.Fin 0)
           [Ideal.Fin 0; Ideal.Fin 0; Ideal.Fin 0]); simpl; lia.
Defined.

Section ProbsProperties.

Context `{TL : TensorLib}.

Variable U : tensor -> list nat -> result unit.
Variable W : tensor -> list nat -> result unit.

(** X30.  The time enters the circuit of [get_probs] as a factor of the
    rotation angles only.  For a single time [t] and enough entries in
    [gamma], the node queues the embedding, the template, the operations of
    [D], the adjoint template and the measurement; the angles of the
    rotations are the first [sum_{i=1..k} C(n,i)] entries of [gamma], each
    multiplied by [t], and every operation of [D] is on valid wires.  With
    fewer entries in [gamma] the node raises [IndexError].  The embedding
    and the template are taken to accept their arguments. *)
Theorem get_probs_rotations (xt alpha gamma : tensor) (t : scalar) (k : option nat)
        (n_qubits : nat) :
  U xt (range n_qubits) = Ok tt -> W alpha (range n_qubits) = Ok tt ->
  let k' := match k with None => n_qubits | Some k => k end in
  (walsh_terms n_qubits k' <= length gamma ->
   exists tape,
     get_probs U W xt [t] alpha gamma k n_qubits
     = Ok ([Embedding xt (range n_qubits); Template alpha (range n_qubits)]
             ++ map Diagonal tape
             ++ [AdjointTemplate alpha (range n_qubits); Probs (range n_qubits)])
     /\ rz_angles tape
        = map (fun g => t_mul g t) (firstn (walsh_terms n_qubits k') gamma)
     /\ Forall (well_placed n_qubits) tape)
  /\ (length gamma < walsh_terms n_qubits k' ->
      get_probs U W xt [t] alpha gamma k n_qubits = Raise IndexError).
Proof.
  intros HU HW k'. unfold get_probs, broadcast2. rewrite HU, HW. cbn [rbind length].
  assert (E : D (bmap2 t_mul gamma [t]) n_qubits k
              = D (map (fun g => t_mul g t) gamma) n_qubits (Some k'))
    by (rewrite bmap2_single_right; destruct k; reflexivity).
  assert (Hb : exists w, bshape (length gamma) 1 = Ok w)
    by (destruct (bshape_one_right (length gamma)) as [-> | ->]; eauto).
  destruct Hb as (w & ->). cbn [rbind]. rewrite E. clear E.
  set (scaled := map (fun g => t_mul g t) gamma).
  assert (Hl : length scaled = length gamma) by apply length_map.
  split; intros H.
  - exists (blocks (subsets_upto n_qubits k') scaled).
    rewrite D_as_single_loop, D_inner_loop.
    + cbn [rbind snd skipn app Nat.add]. split; [reflexivity|]. split.
      * rewrite <- subsets_upto_length, rz_angles_blocks.
        -- unfold scaled. now rewrite firstn_map.
        -- apply subsets_upto_nonempty.
        -- rewrite subsets_upto_length. lia.
      * apply blocks_well_placed, subsets_upto_sorted.
    + apply subsets_upto_nonempty.
    + rewrite subsets_upto_length. simpl. lia.
  - rewrite D_short_gamma by lia. reflexivity.
Qed.

End ProbsProperties.

Lemma get_probs_rotations_witness :
  exists tape,
    get_probs (TL := Ideal.ideal) (fun _ _ => Ok tt) (fun _ _ => Ok tt)
              [Ideal.Fin 0] [Ideal.Fin 2] [] [Ideal.Fin 1] (Some 1) 1
    = Ok ([Embedding (TL := Ideal.ideal) [Ideal.Fin 0] [0];
           Template (TL := Ideal.ideal) [] [0]]
            ++ map (Diagonal (TL := Ideal.ideal)) tape
            ++ [AdjointTemplate (TL := Ideal.ideal) [] [0];
                Probs (TL := Ideal.ideal) [0]])
    /\ rz_angles tape = [Ideal.lift2 Rmult (Ideal.Fin 1) (Ideal.Fin 2)].
Proof.
  destruct (proj1 (@get_probs_rotations Ideal.ideal (fun _ _ => Ok tt) (fun _ _ => Ok tt)
                     [Ideal.Fin 0] [] [Ideal.Fin 1] (Ideal.Fin 2) (Some 1) 1
                     eq_refl eq_refl))
    as (tape & H1 & H2 & _).
  - vm_compute. lia.
  - exists tape. split; [exact H1|exact H2].
Defined.

(** ** Training and the workflows *)


Lemma shapes_ok_of_singletons (gamma_length : nat) : shapes_ok 1 1 gamma_length.
Proof.
  exists gamma_length, gamma_length. unfold bshape. split.
  - destruct (1 =? gamma_length) eqn:E; [|reflexivity].
    apply Nat.eqb_eq in E. now subst.
  - destruct (gamma_length =? 1) eqn:E; reflexivity.
Qed.

Section InitialParameters.

Context `{TL : TensorLib}.

(** The dictionary [get_initial_parameters] returns. *)
Lemma get_initial_parameters_shape (W : nat -> nat -> nat) (W_layers n_qubits : nat)
      (seed : Z) (r : rng) :
  exists alpha mu sigma r',
    get_initial_parameters W W_layers n_qubits seed r
    = Ok ([("alpha"%string, alpha); ("mu"%string, mu); ("sigma"%string, sigma)], r')
    /\ length alpha = W W_layers n_qubits /\ length mu = 1 /\ length sigma = 1.
Proof.
  unfold get_initial_parameters. rewrite bind_run. unfold seed_generator.
  rewrite bind_run. unfold rand, draw.
  pose proof (draws_length rand1 (W W_layers n_qubits) (manual_seed seed)) as Ha.
  destruct (draws rand1 (W W_layers n_qubits) (manual_seed seed)) as [a r1].
  rewrite bind_run.
  pose proof (draws_length rand1 1 r1) as Hm.
  destruct (draws rand1 1 r1) as [m r2]. rewrite bind_run.
  pose proof (draws_length rand1 1 r2) as Hs.
  destruct (draws rand1 1 r2) as [s r3]. cbn [fst] in *.
  unfold ret. eexists _, _, _, _. split; [reflexivity|].
  rewrite !length_map. auto.
Qed.

End InitialParameters.

Section TrainingProperties.

Context `{TL : TensorLib}.

Variable callable_proj : tensor -> tensor -> tensor -> tensor -> scalar.
Variable optimizer : Type.
Variable pytorch_optimizer : list tensor -> scalar -> optimizer.
Variable opt_update : optimizer -> list tensor -> list tensor -> optimizer * list tensor.
Variable backward : (list tensor -> result scalar) -> list tensor -> list tensor.

Local Abbreviation train :=
  (train_model_gradients callable_proj pytorch_optimizer opt_update backward).

(** Each step pops one batch while batches are left. *)
Lemma steps_consume_batches (alpha_at mu_at sigma_at gamma_length n_samples : nat)
      (callable_penalty : tensor -> scalar) (n : nat)
      (st st' : train_state optimizer) (r r' : rng) (losses : list scalar) :
  steps callable_proj opt_update backward alpha_at mu_at sigma_at gamma_length
        n_samples callable_penalty n st r losses st' r' ->
  n <= length (dg_data (ts_cycler st)) ->
  dg_X (ts_cycler st') = dg_X (ts_cycler st)
  /\ dg_batch_size (ts_cycler st') = dg_batch_size (ts_cycler st)
  /\ dg_data (ts_cycler st')
     = firstn (length (dg_data (ts_cycler st)) - n) (dg_data (ts_cycler st)).
Proof.
  induction 1 as [st r|n st r loss st1 r1 losses st2 r2 Hstep _ IH]; intros Hn.
  - rewrite Nat.sub_0_r, firstn_all. auto.
  - apply opt_step_inv in Hstep as (batch & r0 & Hnext & _).
    destruct (ts_cycler st) as [X bs data] eqn:Ec. cbn [dg_X dg_batch_size dg_data] in *.
    destruct data as [|b0 data0] using rev_ind; [simpl in Hn; lia|]. clear IHdata0.
    rewrite next_pops in Hnext. injection Hnext as _ Hc _.
    rewrite <- Hc in IH. cbn [dg_X dg_batch_size dg_data] in IH.
    rewrite length_app in Hn. cbn [length] in Hn.
    destruct IH as (HX & Hb & Hd); [lia|].
    split; [exact HX|]. split; [exact Hb|].
    rewrite Hd, length_app. cbn [length].
    replace (length data0 + 1 - S n) with (length data0 - n) by lia.
    rewrite firstn_app.
    replace (length data0 - n - length data0) with 0 by lia.
    cbn [firstn]. now rewrite app_nil_r.
Qed.

(** X7.  With an optimizer that evaluates the closure once per step,
    [train_model_gradients] takes one batch per step from the end of the
    list the cycler holds: when the cycler holds at least
    [batch_iterations] batches, no new pass over the data is started, and
    the cycler is left with the batches it held minus the last
    [batch_iterations] ones. *)
Theorem train_model_gradients_one_batch_per_step (lr : scalar)
        (init_params : dict tensor) (cycler cycler' : cycler_t) (n_samples : nat)
        (callable_penalty : tensor -> scalar) (batch_iterations gamma_length : nat)
        (seed : Z) (print_intermediate : bool) (r r' : rng) (res : results_dict) :
  train lr init_params cycler n_samples callable_penalty batch_iterations
        gamma_length seed print_intermediate r = Ok ((res, cycler'), r') ->
  batch_iterations <= length (dg_data cycler) ->
  dg_X cycler' = dg_X cycler
  /\ dg_batch_size cycler' = dg_batch_size cycler
  /\ dg_data cycler'
     = firstn (length (dg_data cycler) - batch_iterations) (dg_data cycler).
Proof.
  intros Htrain Hn. apply train_model_gradients_inv in Htrain.
  destruct Htrain as (ia & im & isg & st & p0 & p1 & p2 & _ & _ & _ & Hsteps
                      & _ & _ & _ & _ & ->).
  apply (steps_consume_batches Hsteps). exact Hn.
Qed.


(** X25.  With [batch_iterations = 0] no step is taken: [loss_history] is
    empty, the cycler and the parameters are untouched, and [opt_params]
    holds the first three values of [init_params] in the order of the
    dictionary, labelled ["alpha"], ["mu"], ["sigma"] by position,
    whatever keys they had. *)
Theorem train_model_gradients_without_iterations (lr : scalar)
        (k0 k1 k2 : string) (v0 v1 v2 : tensor) (further : dict tensor)
        (cycler : cycler_t) (n_samples : nat) (callable_penalty : tensor -> scalar)
        (gamma_length : nat) (seed : Z) (print_intermediate : bool) (r : rng) :
  let init_params := (k0, v0) :: (k1, v1) :: (k2, v2) :: further in
  In "alpha"%string (map fst init_params) ->
  In "mu"%string (map fst init_params) ->
  In "sigma"%string (map fst init_params) ->
  train lr init_params cycler n_samples callable_penalty 0
        gamma_length seed print_intermediate r
  = Ok ((mkResults [("alpha"%string, v0); ("mu"%string, v1); ("sigma"%string, v2)] [],
         cycler), manual_seed seed).
Proof.
  intros init_params Ha Hm Hs.
  destruct (key_index_present _ _ Ha) as (ia & Ea).
  destruct (key_index_present _ _ Hm) as (im & Em).
  destruct (key_index_present _ _ Hs) as (isg & Es).
  unfold train_model_gradients. rewrite bind_run. unfold seed_generator.
  rewrite bind_run. cbn [init_params map lift snd]. rewrite bind_run.
  fold init_params. unfold lift at 1. rewrite Ea. rewrite bind_run.
  unfold lift at 1. rewrite Em. rewrite bind_run.
  unfold lift at 1. rewrite Es. reflexivity.
Qed.

(** X26.  For a projector that returns a value on every input,
    [training_workflow] returns whenever there is at least one series,
    one time step and a positive batch size, [noise_amp] is a standard
    deviation that [torch.normal] accepts, and the optimizer keeps the
    shapes of the parameters: the training set is not empty, every batch
    holds as many times as points, and the initial [mu] and [sigma] have one
    entry each, which broadcasts against any [gamma_length].  The result has
    one loss for each of the [batch_iterations] steps and the parameters
    ["alpha"], ["mu"], ["sigma"]. *)
Theorem training_workflow_returns (W : nat -> nat -> nat) (n_qubits W_layers : nat)
        (gamma_length n_samples p num_series : nat)
        (noise_amp t_init t_end : scalar) (batch_size : nat) (tau lr : scalar)
        (batch_iterations : nat) (r : rng) :
  keeps_shapes opt_update -> valid_std noise_amp ->
  1 <= p -> 1 <= num_series -> 1 <= batch_size ->
  exists res r',
    training_workflow callable_proj pytorch_optimizer opt_update backward
                      W n_qubits W_layers gamma_length n_samples p num_series
                      noise_amp t_init t_end batch_size tau lr batch_iterations r
    = Ok (res, r')
    /\ length (loss_history res) = batch_iterations
    /\ map fst (opt_params res) = ["alpha"; "mu"; "sigma"]%string.
Proof.
  intros Hkeep _ Hp Hn Hb. unfold training_workflow. rewrite bind_run.
  destruct (generate_normal_shape p num_series noise_amp t_init t_end GLOBAL_SEED r)
    as (X & r1 & -> & HlX & HfX).
  set (T := linspace t_init t_end p).
  set (Xtr := make_atomized_training_set X T).
  assert (HXtr : Xtr <> []).
  { assert (Hrows : Forall (fun x => length x = length T) X).
    { eapply Forall_impl; [|exact HfX]. intros x Hx. unfold T.
      now rewrite linspace_length. }
    pose proof (@make_atomized_training_set_length _ X T Hrows) as Hlen.
    fold Xtr in Hlen. intros E. rewrite E in Hlen. unfold T in Hlen.
    rewrite linspace_length, HlX in Hlen. simpl in Hlen. nia. }
  rewrite bind_run.
  destruct (@get_training_cycler_data _ _ _ collate_pairs Xtr batch_size
              GLOBAL_SEED r1 HXtr Hb) as (items & r2 & _ & ->).
  rewrite bind_run.
  destruct (get_initial_parameters_shape W W_layers n_qubits GLOBAL_SEED r2)
    as (alpha & mu & sigma & r3 & -> & _ & Hmu & Hsigma).
  rewrite bind_run.
  destruct (@train_model_gradients_total _ callable_proj _ pytorch_optimizer opt_update
              backward lr
              [("alpha"%string, alpha); ("mu"%string, mu); ("sigma"%string, sigma)]
              (mkDataGetter Xtr batch_size (map collate_pairs (chunks batch_size items)))
              n_samples (callable_arctan_penalty tau) batch_iterations gamma_length
              GLOBAL_SEED false r3 alpha mu sigma)
    as (res & cycler' & r4 & Htrain); trivial.
  - apply Forall_map, Forall_forall. intros c _. apply collate_pairs_well_formed.
  - rewrite Hmu, Hsigma. apply shapes_ok_of_singletons.
  - rewrite Htrain. unfold ret. cbn [fst]. exists res, r4. split; [reflexivity|].
    apply train_model_gradients_inv in Htrain.
    destruct Htrain as (ia & im & isg & st & p0 & p1 & p2 & _ & _ & _ & Hsteps
                        & _ & _ & _ & Hopt & _).
    split; [exact (steps_length Hsteps)|]. now rewrite Hopt.
Qed.

End TrainingProperties.

Lemma idle_update_keeps_shapes : keeps_shapes (H := Ideal.ideal) idle_update.
Proof. intros o ps gs. reflexivity. Qed.


Lemma train_model_gradients_without_iterations_witness :
  train_model_gradients (TL := Ideal.ideal) perfect_proj
    (fun _ _ => tt) idle_update (fun _ ps => ps)
    (Ideal.Fin 1)
    [("sigma"%string, [Ideal.Fin 1]); ("mu"%string, [Ideal.Fin 0]); ("alpha"%string, [])]
    (mkDataGetter [(Ideal.Fin 0, Ideal.Fin 1)] 1 [])
    1 (callable_arctan_penalty (TL := Ideal.ideal) (Ideal.Fin 5)) 0 1 GLOBAL_SEED false 0%nat
  = Ok ((mkResults (TL := Ideal.ideal)
           [("alpha"%string, [Ideal.Fin 1]); ("mu"%string, [Ideal.Fin 0]);
            ("sigma"%string, [])] [],
         mkDataGetter [(Ideal.Fin 0, Ideal.Fin 1)] 1 []),
        manual_seed (TensorLib := Ideal.ideal) GLOBAL_SEED).
Proof.
  apply (@train_model_gradients_without_iterations Ideal.ideal perfect_proj unit
           (fun _ _ => tt) idle_update (fun _ ps => ps)
           (Ideal.Fin 1) "sigma"%string "mu"%string "alpha"%string
           [Ideal.Fin 1] [Ideal.Fin 0] [] []).
  - right. right. left. reflexivity.
  - right. left. reflexivity.
  - left. reflexivity.
Defined.

Lemma training_workflow_returns_witness :
  exists res r',
    training_workflow (TL := Ideal.ideal) perfect_proj
      (fun _ _ => tt) idle_update (fun _ ps => ps)
      (fun layers qubits => layers * qubits * 3) 1 2 1 10 25 25
      (Ideal.Fin (1 / 10)) (Ideal.Fin (1 / 10)) (Ideal.Fin (2 * PI))
      10 (Ideal.Fin 5) (Ideal.Fin (1 / 100)) 100 0%nat
    = Ok (res, r')
    /\ length (loss_history res) = 100.
Proof.
  destruct (@training_workflow_returns Ideal.ideal perfect_proj unit
              (fun _ _ => tt) idle_update (fun _ ps => ps)
              (fun layers qubits => layers * qubits * 3) 1 2 1 10 25 25
              (Ideal.Fin (1 / 10)) (Ideal.Fin (1 / 10)) (Ideal.Fin (2 * PI))
              10 (Ideal.Fin 5) (Ideal.Fin (1 / 100)) 100 0%nat
              idle_update_keeps_shapes (@ideal_valid_std (1 / 10) ltac:(lra))
              ltac:(lia) ltac:(lia) ltac:(lia))
    as (res & r' & H1 & H2 & _).
  exists res, r'. split; assumption.
Defined.

Lemma train_model_gradients_one_batch_per_step_witness :
  exists res cycler' r',
    train_model_gradients (TL := Ideal.ideal) perfect_proj
      (fun _ _ => tt) idle_update (fun _ ps => ps)
      (Ideal.Fin 1) unit_params
      (mkDataGetter [(Ideal.Fin 0, Ideal.Fin 1); (Ideal.Fin 2, Ideal.Fin 3)] 1
                    [([Ideal.Fin 0], [Ideal.Fin 1]); ([Ideal.Fin 2], [Ideal.Fin 3])])
      1 (callable_arctan_penalty (TL := Ideal.ideal) (Ideal.Fin 5)) 1 1 GLOBAL_SEED false
      0%nat
    = Ok ((res, cycler'), r')
    /\ dg_data cycler' = [([Ideal.Fin 0], [Ideal.Fin 1])].
Proof.
  destruct (@train_model_gradients_total Ideal.ideal perfect_proj unit
              (fun _ _ => tt) idle_update (fun _ ps => ps)
              (Ideal.Fin 1) unit_params
              (mkDataGetter [(Ideal.Fin 0, Ideal.Fin 1); (Ideal.Fin 2, Ideal.Fin 3)] 1
                 [([Ideal.Fin 0], [Ideal.Fin 1]); ([Ideal.Fin 2], [Ideal.Fin 3])])
              1 (callable_arctan_penalty (TL := Ideal.ideal) (Ideal.Fin 5)) 1 1
              GLOBAL_SEED false 0%nat [] [Ideal.Fin 0] [Ideal.Fin 1]
              idle_update_keeps_shapes ltac:(discriminate) ltac:(simpl; lia)
              ltac:(repeat constructor) eq_refl eq_refl eq_refl unit_shapes_ok)
    as (res & cycler' & r' & H).
  exists res, cycler', r'. split; [exact H|].
  apply (@train_model_gradients_one_batch_per_step Ideal.ideal perfect_proj unit
           (fun _ _ => tt) idle_update (fun _ ps => ps) _ _ _ _ _ _ _ _ _ _ _ _ _ H).
  simpl. lia.
Defined.

(** ** The validation workflows *)

Section WorkflowProperties.

Context `{TL : TensorLib}.

Variable callable_proj : tensor -> tensor -> tensor -> tensor -> scalar.

Lemma get_truth_labels_length (X_norm X_anom : list tensor) :
  length (get_truth_labels X_norm X_anom) = 2 * length X_norm.
Proof.
  unfold get_truth_labels. rewrite length_app, length_map, !repeat_length. lia.
Qed.

Lemma get_truth_labels_repeat (X_norm X_anom : list tensor) :
  get_truth_labels X_norm X_anom
  = repeat (lit 1) (length X_norm) ++ repeat (lit (-1)) (length X_norm).
Proof.
  unfold get_truth_labels. f_equal.
  induction (length X_norm) as [|n IH]; simpl; [reflexivity|].
  now rewrite IH, neg_one.
Qed.

(** The two validation sets of the workflows. *)
Lemma validation_sets (p num_series : nat) (noise_amp spike_amp : scalar)
      (max_duration : nat) (t_init t_end : scalar) (r : rng) :
  randint_in_range -> 2 <= max_duration <= p ->
  exists X r1 Y r2,
    generate_normal_time_series_set p num_series noise_amp t_init t_end GLOBAL_SEED r
    = Ok ((X, linspace t_init t_end p), r1)
    /\ generate_anomalous_time_series_set p num_series noise_amp spike_amp
         max_duration t_init t_end GLOBAL_SEED r1
       = Ok ((Y, linspace t_init t_end p), r2)
    /\ length X = num_series /\ length Y = num_series
    /\ Forall (fun x => length (linspace t_init t_end p) <= length x) (X ++ Y).
Proof.
  intros Hrange Hmd.
  destruct (generate_normal_shape p num_series noise_amp t_init t_end GLOBAL_SEED r)
    as (X & r1 & HX & HlX & HfX).
  destruct (@generate_anomalous_fits _ p num_series noise_amp spike_amp max_duration
              t_init t_end GLOBAL_SEED r1 Hrange Hmd)
    as (X' & r1' & Y & r2 & _ & HlX' & _ & HY & HXY).
  exists X, r1, Y, r2. split; [exact HX|]. split; [exact HY|]. split; [exact HlX|].
  split; [rewrite <- HlX'; eapply Forall2_length_eq; eassumption|].
  rewrite linspace_length. apply Forall_app. split.
  - eapply Forall_impl; [|exact HfX]. intros x Hx. cbv beta in Hx |- *. lia.
  - clear -HXY. induction HXY as [|x y X' Y [H _] _ IH]; constructor; trivial.
    cbv beta in H |- *. lia.
Qed.

Lemma scores_of_sets (X_norm X_anom : list tensor) (T : tensor)
      (model_params : dict tensor) (alpha mu sigma : tensor)
      (gamma_length n_samples : nat) (r : rng) :
  getitem model_params "alpha" = Ok alpha ->
  getitem model_params "mu" = Ok mu ->
  getitem model_params "sigma" = Ok sigma ->
  shapes_ok (length sigma) (length mu) gamma_length ->
  Forall (fun x => length T <= length x) (X_norm ++ X_anom) ->
  exists scores r',
    get_norm_and_anom_scores callable_proj X_norm X_anom T model_params
                             gamma_length n_samples r = Ok (scores, r')
    /\ length scores = length X_norm + length X_anom.
Proof.
  intros Ha Hm Hs Hshape Hrows.
  destruct (@get_norm_and_anom_scores_total _ callable_proj X_norm X_anom T model_params
              alpha mu sigma gamma_length n_samples r Ha Hm Hs Hshape Hrows)
    as (scores & r' & E).
  exists scores, r'. split; [exact E|].
  eapply get_norm_and_anom_scores_length. exact E.
Qed.

(** The scores of a model with random parameters. *)
Lemma scores_of_random_model (X_norm X_anom : list tensor) (T : tensor)
      (W : nat -> nat -> nat) (W_layers n_qubits : nat) (seed : Z)
      (gamma_length n_samples : nat) (r : rng) :
  Forall (fun x => length T <= length x) (X_norm ++ X_anom) ->
  exists rand_params r1 scores r2,
    get_initial_parameters W W_layers n_qubits seed r = Ok (rand_params, r1)
    /\ get_norm_and_anom_scores callable_proj X_norm X_anom T rand_params
                                gamma_length n_samples r1 = Ok (scores, r2)
    /\ length scores = length X_norm + length X_anom.
Proof.
  intros Hrows.
  destruct (get_initial_parameters_shape W W_layers n_qubits seed r)
    as (alpha & mu & sigma & r1 & E & _ & Hmu & Hsigma).
  destruct (@scores_of_sets X_norm X_anom T
              [("alpha"%string, alpha); ("mu"%string, mu); ("sigma"%string, sigma)]
              alpha mu sigma gamma_length n_samples r1)
    as (scores & r2 & Es & Hl); trivial.
  - rewrite Hmu, Hsigma. apply shapes_ok_of_singletons.
  - eexists _, r1, scores, r2. split; [exact E|]. split; assumption.
Qed.

Lemma accuracy_of_scores (X_norm X_anom : list tensor) (zeta : scalar) (scores : tensor) :
  length X_anom = length X_norm ->
  length scores = length X_norm + length X_anom ->
  get_accuracy_score (get_preds_given_threshold zeta scores)
                     (get_truth_labels X_norm X_anom)
  = Ok (accuracy_at zeta scores (get_truth_labels X_norm X_anom)).
Proof.
  intros Heq Hs. apply get_accuracy_score_count.
  rewrite get_preds_length, get_truth_labels_length. lia.
Qed.

(** A loop that appends one pair of results per item to two lists. *)
Lemma accumulate_pairs_loop {A B C : Type}
      (body : list B * list C -> A -> M (list B * list C)) (h : A -> M (B * C)) :
  (forall acc a r,
      body acc a r = bind (h a) (fun bc => ret (fst acc ++ [fst bc], snd acc ++ [snd bc])) r) ->
  forall l acc r,
    for_eachM body acc l r
    = bind (mapM h l)
           (fun bcs => ret (fst acc ++ map fst bcs, snd acc ++ map snd bcs)) r.
Proof.
  intros Hbody. induction l as [|a l IH]; intros acc r.
  - cbn [for_eachM mapM]. unfold bind, ret. cbn [map]. rewrite !app_nil_r.
    now destruct acc.
  - cbn [for_eachM]. rewrite bind_run, Hbody, !bind_run, mapM_cons.
    destruct (h a r) as [[bc r1]|e]; trivial.
    unfold ret at 1. rewrite IH, bind_run.
    destruct (mapM h l r1) as [[bcs r2]|e]; trivial.
    unfold ret. cbn [fst snd map]. now rewrite <- !app_assoc.
Qed.

(** X27.  [testing_workflow] with an empty list of thresholds never returns:
    whatever else it is given, it ends with an exception ([best_zetas[0]]
    raises [IndexError] if nothing raised before). *)
Theorem testing_workflow_without_thresholds (opt_params : dict tensor)
        (gamma_length n_samples p num_series : nat)
        (noise_amp spike_amp : scalar) (max_duration : nat) (t_init t_end : scalar)
        (W : nat -> nat -> nat) (n_qubits : nat) (random_model_seeds : list Z)
        (W_layers : nat) (r : rng) :
  exists e,
    testing_workflow callable_proj opt_params gamma_length n_samples []
                     p num_series noise_amp spike_amp max_duration t_init t_end
                     W n_qubits random_model_seeds W_layers r
    = Raise e.
Proof.
  unfold testing_workflow. rewrite bind_run.
  destruct (generate_normal_time_series_set p num_series noise_amp t_init t_end
              GLOBAL_SEED r) as [[XT r1]|e]; [|now exists e].
  rewrite bind_run.
  destruct (generate_anomalous_time_series_set p num_series noise_amp spike_amp
              max_duration t_init t_end GLOBAL_SEED r1) as [[YT r2]|e]; [|now exists e].
  cbv zeta. rewrite bind_run.
  destruct (get_norm_and_anom_scores callable_proj (fst XT) (fst YT) (snd YT)
              opt_params gamma_length n_samples r2) as [[scores r3]|e]; [|now exists e].
  now exists IndexError.
Qed.

(** X28.  For a projector that returns a value on every input,
    [testing_workflow] returns when the validation sets can be built
    ([randint] within its bounds, standard deviations that [torch.normal]
    accepts, [2 <= max_duration <= p]), the trained
    parameters are present with shapes that broadcast, and there is a first
    threshold.  It returns one accuracy for the trained model and one for
    each random model; the random models are as many as the shorter of the
    further thresholds and the seeds, the others are dropped silently. *)
Theorem testing_workflow_returns (opt_params : dict tensor) (alpha mu sigma : tensor)
        (gamma_length n_samples : nat) (zeta0 : scalar) (zetas : list scalar)
        (p num_series : nat) (noise_amp spike_amp : scalar) (max_duration : nat)
        (t_init t_end : scalar) (W : nat -> nat -> nat) (n_qubits : nat)
        (random_model_seeds : list Z) (W_layers : nat) (r : rng) :
  randint_in_range -> valid_std noise_amp -> valid_std spike_amp ->
  2 <= max_duration <= p ->
  getitem opt_params "alpha" = Ok alpha ->
  getitem opt_params "mu" = Ok mu ->
  getitem opt_params "sigma" = Ok sigma ->
  shapes_ok (length sigma) (length mu) gamma_length ->
  exists accs r',
    testing_workflow callable_proj opt_params gamma_length n_samples (zeta0 :: zetas)
                     p num_series noise_amp spike_amp max_duration t_init t_end
                     W n_qubits random_model_seeds W_layers r
    = Ok (accs, r')
    /\ length accs = 1 + Nat.min (length zetas) (length random_model_seeds).
Proof.
  intros Hrange _ _ Hmd Ha Hm Hs Hshape.
  rewrite testing_workflow_unfold. unfold testing_at_first_threshold.
  destruct (@validation_sets p num_series noise_amp spike_amp max_duration t_init t_end
              r Hrange Hmd) as (X & r1 & Y & r2 & HX & HY & HlX & HlY & Hrows).
  rewrite bind_run, HX, bind_run, HY. cbn [fst snd].
  assert (Hacc : forall params a m s r0,
             getitem params "alpha" = Ok a -> getitem params "mu" = Ok m ->
             getitem params "sigma" = Ok s -> shapes_ok (length s) (length m) gamma_length ->
             exists acc r0',
               model_accuracy callable_proj X Y (linspace t_init t_end p)
                              (get_truth_labels X Y) gamma_length n_samples params
                              zeta0 r0 = Ok (acc, r0')).
  { intros params a m s r0 Ka Km Ks Ksh. unfold model_accuracy. rewrite bind_run.
    destruct (@scores_of_sets X Y (linspace t_init t_end p) params a m s gamma_length
                n_samples r0 Ka Km Ks Ksh Hrows) as (scores & r0' & -> & Hl).
    unfold lift. rewrite accuracy_of_scores by congruence. eexists _, _. reflexivity. }
  rewrite bind_run.
  destruct (Hacc opt_params alpha mu sigma r2 Ha Hm Hs Hshape) as (acc & r3 & ->).
  rewrite bind_run.
  match goal with
  | |- context [mapM ?f ?l r3] =>
      destruct (@mapM_total _ _ _ f l) with (r := r3) as (accs & r4 & Haccs)
  end.
  { intros seed r0. rewrite bind_run.
    destruct (get_initial_parameters_shape W W_layers n_qubits seed r0)
      as (a & m & s & r0' & -> & _ & Hlm & Hls).
    apply (Hacc _ a m s r0'); try reflexivity.
    rewrite Hlm, Hls. apply shapes_ok_of_singletons. }
  rewrite Haccs. unfold ret. exists (acc :: accs), r4. split; [reflexivity|].
  apply mapM_length in Haccs. cbn [length]. rewrite Haccs, length_firstn. lia.
Qed.

(** X29.  For a projector that returns a value on every input,
    [threshold_tuning_workflow] returns under the same conditions: one
    tensor of scores and one tensor of accuracies for the trained model and
    for each seed, in that order; every score tensor has [2 * num_series]
    entries, every accuracy tensor [steps] entries, and each accuracy tensor
    is the scan of its score tensor: entry [i] is the accuracy, against
    [num_series] labels [1] followed by [num_series] labels [-1], at the
    [i]-th threshold of [linspace(zeta_min, zeta_max, steps)]. *)
Theorem threshold_tuning_workflow_returns (opt_params : dict tensor)
        (alpha mu sigma : tensor) (gamma_length n_samples : nat)
        (zeta_min zeta_max : scalar) (steps : nat)
        (p num_series : nat) (noise_amp spike_amp : scalar) (max_duration : nat)
        (t_init t_end : scalar) (W : nat -> nat -> nat) (n_qubits : nat)
        (random_model_seeds : list Z) (W_layers : nat) (r : rng) :
  randint_in_range -> valid_std noise_amp -> valid_std spike_amp ->
  2 <= max_duration <= p ->
  getitem opt_params "alpha" = Ok alpha ->
  getitem opt_params "mu" = Ok mu ->
  getitem opt_params "sigma" = Ok sigma ->
  shapes_ok (length sigma) (length mu) gamma_length ->
  let truth := repeat (lit 1) num_series ++ repeat (lit (-1)) num_series in
  exists accs_list scores_list r',
    threshold_tuning_workflow callable_proj opt_params gamma_length n_samples
                              zeta_min zeta_max steps p num_series noise_amp
                              spike_amp max_duration t_init t_end W n_qubits
                              random_model_seeds W_layers r
    = Ok ((accs_list, scores_list), r')
    /\ length accs_list = 1 + length random_model_seeds
    /\ length scores_list = 1 + length random_model_seeds
    /\ Forall2 (fun accs scores =>
                  length scores = 2 * num_series /\ length accs = steps
                  /\ accs = map (fun zeta => accuracy_at zeta scores truth)
                                (linspace zeta_min zeta_max steps))
               accs_list scores_list.
Proof.
  intros Hrange _ _ Hmd Ha Hm Hs Hshape truth. unfold threshold_tuning_workflow.
  destruct (@validation_sets p num_series noise_amp spike_amp max_duration t_init t_end
              r Hrange Hmd) as (X & r1 & Y & r2 & HX & HY & HlX & HlY & Hrows).
  rewrite bind_run, HX, bind_run, HY. cbn [fst snd].
  set (T := linspace t_init t_end p) in *.
  replace (get_truth_labels X Y) with truth
    by (rewrite get_truth_labels_repeat, HlX; reflexivity).
  assert (Htruth : length truth = 2 * num_series)
    by (unfold truth; rewrite length_app, !repeat_length; lia).
  assert (Hscan : forall scores : tensor,
             length scores = length X + length Y ->
             threshold_scan_acc_score scores truth zeta_min zeta_max steps
             = Ok (map (fun zeta => accuracy_at zeta scores truth)
                       (linspace zeta_min zeta_max steps))).
  { intros scores Hl. apply threshold_scan_map. lia. }
  rewrite bind_run.
  destruct (@scores_of_sets X Y T opt_params alpha mu sigma gamma_length n_samples r2
              Ha Hm Hs Hshape Hrows) as (scores & r3 & -> & Hl).
  rewrite bind_run. unfold lift at 1. rewrite (Hscan scores Hl).
  set (one := fun seed : Z =>
                rand_params <- get_initial_parameters W W_layers n_qubits seed ;;
                scores <- get_norm_and_anom_scores callable_proj X Y T rand_params
                            gamma_length n_samples ;;
                accs <- lift (threshold_scan_acc_score scores truth zeta_min zeta_max
                                                       steps) ;;
                ret (accs, scores)).
  rewrite accumulate_pairs_loop with (h := one).
  2:{ intros acc seed r0. unfold one. rewrite !bind_run.
      destruct (get_initial_parameters W W_layers n_qubits seed r0)
        as [[rand_params r4]|e]; trivial. rewrite !bind_run.
      destruct (get_norm_and_anom_scores callable_proj X Y T rand_params
                  gamma_length n_samples r4) as [[scores' r5]|e]; trivial.
      rewrite !bind_run. unfold lift.
      destruct (threshold_scan_acc_score scores' truth zeta_min zeta_max steps)
        as [accs|e]; trivial. }
  set (Q := fun (accs scores : tensor) =>
              length scores = 2 * num_series /\ length accs = steps
              /\ accs = map (fun zeta => accuracy_at zeta scores truth)
                            (linspace zeta_min zeta_max steps)).
  destruct (@mapM_total_rel _ _ _ one (fun _ bc => Q (fst bc) (snd bc))
              random_model_seeds) with (r := r3) as (bcs & r4 & Hbcs & HQ).
  { intros seed _ r0. unfold one. rewrite bind_run.
    destruct (@scores_of_random_model X Y T W W_layers n_qubits seed gamma_length
                n_samples r0 Hrows) as (rand_params & r5 & scores' & r6 & E1 & E2 & Hl').
    rewrite E1, bind_run, E2, !bind_run. unfold lift. rewrite (Hscan scores' Hl').
    unfold ret.
    eexists _, _. split; [reflexivity|]. unfold Q. cbn [fst snd].
    rewrite length_map, linspace_length. repeat split. lia. }
  rewrite bind_run, Hbcs. unfold ret. cbn [fst snd app].
  eexists _, _, r4. split; [reflexivity|].
  pose proof (Forall2_length_eq HQ) as Hlen.
  cbn [length]. rewrite !length_map, Hlen.
  split; [reflexivity|]. split; [reflexivity|].
  constructor.
  - rewrite length_map, linspace_length. repeat split. lia.
  - clear -HQ. induction HQ as [|seed bc seeds bcs H _ IH]; cbn [map]; constructor; trivial.
Qed.

End WorkflowProperties.

Lemma testing_workflow_returns_witness :
  exists accs r',
    testing_workflow (TL := Ideal.ideal) perfect_proj unit_params 1 10
      [Ideal.Fin 0; Ideal.Fin 1; Ideal.Fin 2]
      25 25 (Ideal.Fin (1 / 10)) (Ideal.Fin (4 / 10)) 5
      (Ideal.Fin (1 / 10)) (Ideal.Fin (2 * PI))
      (fun layers qubits => layers * qubits * 3) 1 [0%Z; 1%Z] 2 0%nat
    = Ok (accs, r')
    /\ length accs = 3.
Proof.
  exact (@testing_workflow_returns Ideal.ideal perfect_proj unit_params
           [] [Ideal.Fin 0] [Ideal.Fin 1] 1 10
           (Ideal.Fin 0) [Ideal.Fin 1; Ideal.Fin 2]
           25 25 (Ideal.Fin (1 / 10)) (Ideal.Fin (4 / 10)) 5
           (Ideal.Fin (1 / 10)) (Ideal.Fin (2 * PI))
           (fun layers qubits => layers * qubits * 3) 1 [0%Z; 1%Z] 2 0%nat
           ideal_randint_in_range (@ideal_valid_std (1 / 10) ltac:(lra)) (@ideal_valid_std (4 / 10) ltac:(lra))
           ltac:(lia) eq_refl eq_refl eq_refl unit_shapes_ok).
Defined.

Lemma threshold_tuning_workflow_returns_witness :
  exists accs_list scores_list r',
    threshold_tuning_workflow (TL := Ideal.ideal) perfect_proj unit_params 1 10
      (Ideal.Fin 0) (Ideal.Fin 1) 100
      25 25 (Ideal.Fin (1 / 10)) (Ideal.Fin (4 / 10)) 5
      (Ideal.Fin (1 / 10)) (Ideal.Fin (2 * PI))
      (fun layers qubits => layers * qubits * 3) 1 [0%Z; 1%Z] 2 0%nat
    = Ok ((accs_list, scores_list), r')
    /\ length accs_list = 3 /\ length scores_list = 3.
Proof.
  destruct (@threshold_tuning_workflow_returns Ideal.ideal perfect_proj unit_params
              [] [Ideal.Fin 0] [Ideal.Fin 1] 1 10
              (Ideal.Fin 0) (Ideal.Fin 1) 100
              25 25 (Ideal.Fin (1 / 10)) (Ideal.Fin (4 / 10)) 5
              (Ideal.Fin (1 / 10)) (Ideal.Fin (2 * PI))
              (fun layers qubits => layers * qubits * 3) 1 [0%Z; 1%Z] 2 0%nat
              ideal_randint_in_range (@ideal_valid_std (1 / 10) ltac:(lra)) (@ideal_valid_std (4 / 10) ltac:(lra))
           ltac:(lia) eq_refl eq_refl eq_refl unit_shapes_ok)
    as (accs_list & scores_list & r' & H1 & H2 & H3 & _).
  exists accs_list, scores_list, r'. auto.
Defined.
